(** * Image-PDF-Optimisation: the extraction scan and the PDF save

    A shallow embedding of the PDF pipeline of the editor and of what it
    rests on.  The two central pieces:

    - [extractEmbeddedImages] of [src/core/state.js]: the loop that walks a
      page's operator list, tracks the graphics state (transform stack,
      clip bounds), and pushes one record per extracted image, form or
      shading (module [Extract]);
    - the click handler of [savePdfBtn] in [editor.js]: the pass that pairs
      the image XObjects of the loaded document with the extracted records,
      and the loop that patches the document (module [Save]).

    Around them: the loops over the pages of a document, [renderPdfPages]
    and [extractPdfImages] (module [Document]); the updates of the image
    records by the editor (module [Edit]); the history and the cleanup
    functions of [memory.js] (module [Memory]); the [EditorState] container
    and the accessor object through which [editor.js] uses it (module
    [EditorState]).  The definitions come first, the properties after them,
    one module of properties for each module of definitions.

    JavaScript numbers are modelled by exact rationals ([Q]): sums, products,
    comparisons, [Math.abs], [Math.min] and [Math.max] are the exact ones, so
    rounding, [NaN] and the infinities are outside the model (the only
    infinities of the source, the initial values of the bounding-box loop, are
    treated where they occur).  Counters and page numbers are naturals. *)

From Stdlib Require Import QArith Qabs Qminmax Ascii.
From stdpp Require Import base gmap strings list pretty sorting.

Abbreviation num := Q.

(** [x > y] and [x < y] on numbers. *)
Definition gtb (x y : num) : bool := negb (Qle_bool x y).
Definition ltb (x y : num) : bool := negb (Qle_bool y x).

(** ** Values passed as operator arguments

    The name argument of an operator is tested with [!v], [typeof v] and
    [v.name], so the model keeps the kinds of value these tests tell apart.
    An object carries its identity and its [name] property; for a number in
    the place of a name the integers are enough. *)
Inductive jsval :=
| JUndefined
| JNull
| JNumber (z : Z)
| JString (s : string)
| JObject (ref : nat) (name : option string).

(** [ToBoolean]: [undefined], [null], [0] and the empty string are falsy. *)
Definition truthy (v : jsval) : bool :=
  match v with
  | JUndefined | JNull => false
  | JNumber z => negb (Z.eqb z 0)
  | JString s => negb (String.eqb s "")
  | JObject _ _ => true
  end.

(** [x || y] *)
Definition js_or (x y : jsval) : jsval := if truthy x then x else y.

(** [v.name], for a truthy [v] that is not a string: only an object can
    have the property; a missing property reads [undefined] (falsy). *)
Definition name_property_truthy (v : jsval) : bool :=
  match v with
  | JObject _ (Some s) => negb (String.eqb s "")
  | _ => false
  end.

(** The value comparison of [Set.prototype.has]: strings by contents,
    objects by identity. *)
Definition same_value_zero (x y : jsval) : bool :=
  match x, y with
  | JUndefined, JUndefined => true
  | JNull, JNull => true
  | JNumber y, JNumber z => Z.eqb y z
  | JString s, JString t => String.eqb s t
  | JObject r _, JObject r' _ => Nat.eqb r r'
  | _, _ => false
  end.

(** String conversion inside a template literal. *)
Definition to_string (v : jsval) : string :=
  match v with
  | JString s => s
  | JUndefined => "undefined"
  | JNull => "null"
  | JNumber z => pretty z
  | JObject _ _ => "[object Object]"
  end.

(** ** The extracted-image record (the objects pushed on [allImages]) *)
Module Img.
Record t := mk {
  index : nat;
  dataURL : string;
  originalSize : nat;
  width : num;
  height : num;
  pageNum : nat;
  imageName : string;
  isOptimized : bool;
  optimizedDataURL : option string;   (* [null] or a data URL *)
  optimizedSize : nat
}.
End Img.

(** [dataURL.split(',')[1]]: the text between the first and the second comma;
    [undefined] when the string has no comma. *)
Fixpoint until_comma (s : string) : string :=
  match s with
  | EmptyString => EmptyString
  | String c rest => if Ascii.eqb c ","%char then EmptyString else String c (until_comma rest)
  end.

Fixpoint split_comma_1 (s : string) : option string :=
  match s with
  | EmptyString => None
  | String c rest => if Ascii.eqb c ","%char then Some (until_comma rest) else split_comma_1 rest
  end.

(** [estimateDataURLSize]: [Math.ceil((base64Data.length * 3) / 4)]; reading
    [length] of [undefined] throws, which is [None] here. *)
Definition estimateDataURLSize (dataURL : string) : option nat :=
  match split_comma_1 dataURL with
  | Some base64Data => Some ((String.length base64Data * 3 + 3) / 4)
  | None => None
  end.

(** * The extraction scan: [extractEmbeddedImages] in [src/core/state.js] *)
Module Extract.

Local Open Scope Q_scope.

(** A transform is the array [[a, b, c, d, e, f]]. *)
Record Matrix := Mat { m_a : num; m_b : num; m_c : num; m_d : num; m_e : num; m_f : num }.

Definition identity : Matrix := Mat 1 0 0 1 0 0.

(** The product computed by the [OPS.transform] branch, for the operator's
    [[a, b, c, d, e, f]] and the current [[a0, b0, c0, d0, e0, f0]]. *)
Definition multiply (incoming current : Matrix) : Matrix :=
  let '(Mat a b c d e f) := incoming in
  let '(Mat a0 b0 c0 d0 e0 f0) := current in
  Mat (a * a0 + b * c0) (a * b0 + b * d0)
      (c * a0 + d * c0) (c * b0 + d * d0)
      (e * a0 + f * c0 + e0) (e * b0 + f * d0 + f0).

(** Numeric equality of two matrices, component for component. *)
Definition Meq (m n : Matrix) : Prop :=
  (m_a m == m_a n /\ m_b m == m_b n /\ m_c m == m_c n /\
   m_d m == m_d n /\ m_e m == m_e n /\ m_f m == m_f n)%Q.

Record ClipBounds := { minX : num; minY : num; maxX : num; maxY : num }.

(** The operators the loop looks at, with the arguments it reads. *)
Inductive Op :=
| dependency (arg0 : jsval)
| save
| restore
| transform (a b c d e f : num)
| constructPath (pathOps : list nat) (pathData : option (list num))
| clip
| shadingFill
| paintImageXObject (arg0 : jsval)
| paintInlineImageXObject (arg0 : jsval)
| paintFormXObjectBegin (arg0 arg1 : jsval)
| otherOp.

(** An entry of [page.objs]: [bitmap] is a handle on the decoded bitmap,
    [BBox] is what [obj.dict.get('BBox')] returns ([None] also when the object
    has no [dict] or no [dict.get]). *)
Record PageObj := {
  bitmap : option nat;
  obj_width : num;
  obj_height : num;
  BBox : option (list num)
}.

(** What the loop reads from the page and from the canvas API.
    [objs_has] and [objs_get] are [page.objs.has] and [page.objs.get] (the
    table has a [has] method; [get] is only called on a name that [has]
    accepts, and [None] is an [undefined] result).  The two canvas functions
    stand for [createElement], [drawImage] and [toDataURL] on a fresh canvas;
    [None] means that one of the calls threw. *)
Record Page := {
  pageNum : nat;
  viewport_height : num;
  objs_has : jsval -> bool;
  objs_get : jsval -> option PageObj;
  drawBitmap : PageObj -> option string;
  cropPage : num -> num -> num -> num -> option string
}.

(** [page.getViewport({ scale: 2.0 })] *)
Definition viewport_scale : num := 2.

(** The variables of the loop.  [allImages] and [imageIndex] live across
    pages, the others are created for each page.  The two stacks are kept
    with their last element (the top) at the head of the list. *)
Record State := {
  allImages : list Img.t;
  imageIndex : nat;
  extractedObjects : list jsval;
  transformStack : list Matrix;
  currentTransform : Matrix;
  clippingStack : list (option ClipBounds);
  currentClipBounds : option ClipBounds;
  shadingIndex : nat;
  lastDependencyName : jsval
}.

(** The state at the start of a page. *)
Definition initPage (images : list Img.t) (nextIndex : nat) : State :=
  {| allImages := images; imageIndex := nextIndex;
     extractedObjects := [];
     transformStack := [identity]; currentTransform := identity;
     clippingStack := []; currentClipBounds := None;
     shadingIndex := 0; lastDependencyName := JNull |}.

Definition set_lastDependencyName (v : jsval) (st : State) : State :=
  {| allImages := allImages st; imageIndex := imageIndex st;
     extractedObjects := extractedObjects st;
     transformStack := transformStack st; currentTransform := currentTransform st;
     clippingStack := clippingStack st; currentClipBounds := currentClipBounds st;
     shadingIndex := shadingIndex st; lastDependencyName := v |}.

Definition set_transform (stack : list Matrix) (cur : Matrix) (st : State) : State :=
  {| allImages := allImages st; imageIndex := imageIndex st;
     extractedObjects := extractedObjects st;
     transformStack := stack; currentTransform := cur;
     clippingStack := clippingStack st; currentClipBounds := currentClipBounds st;
     shadingIndex := shadingIndex st; lastDependencyName := lastDependencyName st |}.

Definition set_clip (stack : list (option ClipBounds)) (cur : option ClipBounds)
    (st : State) : State :=
  {| allImages := allImages st; imageIndex := imageIndex st;
     extractedObjects := extractedObjects st;
     transformStack := transformStack st; currentTransform := currentTransform st;
     clippingStack := stack; currentClipBounds := cur;
     shadingIndex := shadingIndex st; lastDependencyName := lastDependencyName st |}.

(** [imageIndex++] on its own: the object literal evaluates [index] first, so
    the counter has moved when a later field throws. *)
Definition bump_imageIndex (st : State) : State :=
  {| allImages := allImages st; imageIndex := S (imageIndex st);
     extractedObjects := extractedObjects st;
     transformStack := transformStack st; currentTransform := currentTransform st;
     clippingStack := clippingStack st; currentClipBounds := currentClipBounds st;
     shadingIndex := shadingIndex st; lastDependencyName := lastDependencyName st |}.

(** [allImages.push({ index: imageIndex++, ... })] *)
Definition push_image (img : Img.t) (st : State) : State :=
  {| allImages := allImages st ++ [img]; imageIndex := S (imageIndex st);
     extractedObjects := extractedObjects st;
     transformStack := transformStack st; currentTransform := currentTransform st;
     clippingStack := clippingStack st; currentClipBounds := currentClipBounds st;
     shadingIndex := shadingIndex st; lastDependencyName := lastDependencyName st |}.

(** [extractedObjects.add(name)] *)
Definition add_extracted (name : jsval) (st : State) : State :=
  {| allImages := allImages st; imageIndex := imageIndex st;
     extractedObjects :=
       if existsb (same_value_zero name) (extractedObjects st)
       then extractedObjects st else extractedObjects st ++ [name];
     transformStack := transformStack st; currentTransform := currentTransform st;
     clippingStack := clippingStack st; currentClipBounds := currentClipBounds st;
     shadingIndex := shadingIndex st; lastDependencyName := lastDependencyName st |}.

(** [shadingIndex++] *)
Definition bump_shadingIndex (st : State) : State :=
  {| allImages := allImages st; imageIndex := imageIndex st;
     extractedObjects := extractedObjects st;
     transformStack := transformStack st; currentTransform := currentTransform st;
     clippingStack := clippingStack st; currentClipBounds := currentClipBounds st;
     shadingIndex := S (shadingIndex st); lastDependencyName := lastDependencyName st |}.

(** The record literal shared by the three [allImages.push] calls. *)
Definition newImage (st : State) (pg : Page) (dataURL : string) (size : nat)
    (w h : num) (name : string) : Img.t :=
  {| Img.index := imageIndex st; Img.dataURL := dataURL; Img.originalSize := size;
     Img.width := w; Img.height := h; Img.pageNum := pageNum pg;
     Img.imageName := name; Img.isOptimized := false;
     Img.optimizedDataURL := None; Img.optimizedSize := 0 |}.

(** What happened to one operator: it only touched the trackers, it pushed
    a record, it was skipped by one of the guards, or an exception was caught
    by one of the [catch] handlers of the loop body. *)
Inductive outcome := Tracked | Emitted | Skipped | Caught.

(** ** The trackers *)

(** [OPS.save] *)
Definition do_save (st : State) : State :=
  set_clip (currentClipBounds st :: clippingStack st) (currentClipBounds st)
    (set_transform (currentTransform st :: transformStack st) (currentTransform st) st).

(** [OPS.restore]: the transform stack is popped only above its first
    frame, the clip stack only when it is not empty. *)
Definition do_restore (st : State) : State :=
  let st1 :=
    match transformStack st with
    | _ :: ((top :: _) as below) => set_transform below top st
    | _ => st
    end in
  match clippingStack st1 with
  | saved :: below => set_clip below saved st1
  | [] => st1
  end.

(** [transformStack[transformStack.length - 1] = m]; the stack is never empty
    when the loop gets there. *)
Definition replace_top (m : Matrix) (stack : list Matrix) : list Matrix :=
  match stack with
  | _ :: below => m :: below
  | [] => []
  end.

(** [OPS.transform] *)
Definition do_transform (a b c d e f : num) (st : State) : State :=
  let m := multiply (Mat a b c d e f) (currentTransform st) in
  set_transform (replace_top m (transformStack st)) m st.

(** The body of the bounding-box loop for one coordinate pair. *)
Definition extend (x y : num) (bb : ClipBounds) : ClipBounds :=
  {| minX := if ltb x (minX bb) then x else minX bb;
     maxX := if gtb x (maxX bb) then x else maxX bb;
     minY := if ltb y (minY bb) then y else minY bb;
     maxY := if gtb y (maxY bb) then y else maxY bb |}.

(** The same body when [pathData[j + 1]] is [undefined] (odd length): both
    comparisons on [y] are false. *)
Definition extend_x (x : num) (bb : ClipBounds) : ClipBounds :=
  {| minX := if ltb x (minX bb) then x else minX bb;
     maxX := if gtb x (maxX bb) then x else maxX bb;
     minY := minY bb; maxY := maxY bb |}.

(** [for (let j = 0; j < pathData.length; j += 2)], from index 2 on. *)
Fixpoint boundsLoop (pathData : list num) (bb : ClipBounds) : ClipBounds :=
  match pathData with
  | x :: y :: rest => boundsLoop rest (extend x y bb)
  | [x] => extend_x x bb
  | [] => bb
  end.

(** The bounds of a path with at least one pair.  The loop starts from
    [Infinity] and [-Infinity]; every number lies strictly between them, so
    its first round stores the first pair in all four fields. *)
Definition pathBounds (x0 y0 : num) (rest : list num) : ClipBounds :=
  boundsLoop rest {| minX := x0; minY := y0; maxX := x0; maxY := y0 |}.

(** [OPS.constructPath]: [if (pathData && pathData.length >= 4)] *)
Definition do_constructPath (pathData : option (list num)) (st : State) : State :=
  match pathData with
  | Some (x0 :: y0 :: ((_ :: _ :: _) as rest)) =>
      set_clip (clippingStack st) (Some (pathBounds x0 y0 rest)) st
  | _ => st
  end.

(** ** The extraction engine *)

(** The region of the page canvas a shading is copied from:
    [(canvasX, canvasY, width, height)]. *)
Definition shadingRegion (pg : Page) (cb : ClipBounds) (m : Matrix)
    : num * num * num * num :=
  let '(Mat a b c d e f) := m in
  let x1 := minX cb * a + minY cb * c + e in
  let y1 := minX cb * b + minY cb * d + f in
  let x2 := maxX cb * a + maxY cb * c + e in
  let y2 := maxX cb * b + maxY cb * d + f in
  let canvasX := Qmin x1 x2 * viewport_scale in
  let canvasY := viewport_height pg - Qmax y1 y2 * viewport_scale in
  let width := Qabs (x2 - x1) * viewport_scale in
  let height := Qabs (y2 - y1) * viewport_scale in
  (canvasX, canvasY, width, height).

(** [`page-${pageNum}-shading-${shadingIndex}`] *)
Definition shadingName (pg : Page) (k : nat) : string :=
  "page-" +:+ pretty (pageNum pg) +:+ "-shading-" +:+ pretty k.

(** [OPS.shadingFill] *)
Definition do_shadingFill (pg : Page) (st : State) : State * outcome :=
  match currentClipBounds st with
  | Some cb =>
      let '(canvasX, canvasY, width, height) :=
        shadingRegion pg cb (currentTransform st) in
      if gtb width 1 && gtb height 1 then
        match cropPage pg canvasX canvasY width height with
        | Some dataURL =>
            match estimateDataURLSize dataURL with
            | Some size =>
                let img := newImage st pg dataURL size width height
                             (shadingName pg (shadingIndex st)) in
                (bump_shadingIndex (push_image img st), Emitted)
            | None => (bump_imageIndex st, Caught)
            end
        | None => (st, Caught)
        end
      else (st, Skipped)
  | None => (st, Skipped)
  end.

Inductive opType := XObject | Inline | FormXObject.

(** [args[1] || lastDependencyName] for a form, [args[0]] otherwise. *)
Definition actualImageName (kind : opType) (arg0 arg1 : jsval) (st : State) : jsval :=
  match kind with
  | FormXObject => js_or arg1 (lastDependencyName st)
  | _ => arg0
  end.

Definition is_string (v : jsval) : bool :=
  match v with JString _ => true | _ => false end.

(** [!name || (typeof name !== 'string' && !name.name)] *)
Definition invalidImageName (v : jsval) : bool :=
  negb (truthy v) || (negb (is_string v) && negb (name_property_truthy v)).

(** Width and height of a form before the transform: the [BBox] when it has
    four entries, 100 x 100 otherwise. *)
Definition formSize (formObj : option PageObj) : num * num :=
  match formObj with
  | Some o =>
      match BBox o with
      | Some (x0 :: y0 :: x1 :: y1 :: _) => (Qabs (x1 - x0), Qabs (y1 - y0))
      | _ => (100, 100)
      end
  | None => (100, 100)
  end.

(** [transformedWidth] and [transformedHeight] *)
Definition transformedSize (formObj : option PageObj) (m : Matrix) : num * num :=
  let '(width, height) := formSize formObj in
  (Qabs (m_a m * width), Qabs (m_d m * height)).

(** The form branch: copy the region of the form out of the page canvas. *)
Definition extractForm (pg : Page) (name : jsval) (st : State) : State * outcome :=
  let formObj := objs_get pg name in
  let '(transformedWidth, transformedHeight) :=
    transformedSize formObj (currentTransform st) in
  let x := m_e (currentTransform st) * viewport_scale in
  let y := viewport_height pg - m_f (currentTransform st) * viewport_scale
           - transformedHeight in
  if gtb transformedWidth 1 && gtb transformedHeight 1 then
    match cropPage pg x y transformedWidth transformedHeight with
    | Some dataURL =>
        match estimateDataURLSize dataURL with
        | Some size =>
            let img := newImage st pg dataURL size transformedWidth transformedHeight
                         ("page-" +:+ pretty (pageNum pg) +:+ "-form-" +:+ to_string name) in
            (add_extracted name (push_image img st), Emitted)
        | None => (bump_imageIndex st, Caught)
        end
    | None => (st, Caught)
    end
  else (st, Skipped).

(** The bitmap branch: draw the decoded bitmap at its own size. *)
Definition extractBitmap (pg : Page) (name : jsval) (obj : PageObj) (st : State)
    : State * outcome :=
  match drawBitmap pg obj with
  | Some dataURL =>
      match estimateDataURLSize dataURL with
      | Some size =>
          let img := newImage st pg dataURL size (obj_width obj) (obj_height obj)
                       ("page-" +:+ pretty (pageNum pg) +:+ "-" +:+ to_string name) in
          (add_extracted name (push_image img st), Emitted)
      | None => (bump_imageIndex st, Caught)
      end
  | None => (st, Caught)
  end.

Definition has_bitmap (obj : option PageObj) : option PageObj :=
  match obj with
  | Some o => match bitmap o with Some _ => Some o | None => None end
  | None => None
  end.

(** The three paint operators. *)
Definition do_paint (pg : Page) (kind : opType) (arg0 arg1 : jsval) (st : State)
    : State * outcome :=
  let finalImageName := actualImageName kind arg0 arg1 st in
  if invalidImageName finalImageName then (st, Skipped)
  else if existsb (same_value_zero finalImageName) (extractedObjects st) then (st, Skipped)
  else if negb (objs_has pg finalImageName) then (st, Skipped)
  else
    match has_bitmap (objs_get pg finalImageName) with
    | Some obj => extractBitmap pg finalImageName obj st
    | None =>
        match kind with
        | FormXObject => extractForm pg finalImageName st
        | _ => (st, Skipped)
        end
    end.

(** ** The loop *)

(** One round of the loop over [ops.fnArray]. *)
Definition step (pg : Page) (op : Op) (st : State) : State * outcome :=
  match op with
  | dependency arg0 => (set_lastDependencyName arg0 st, Tracked)
  | save => (do_save st, Tracked)
  | restore => (do_restore st, Tracked)
  | transform a b c d e f => (do_transform a b c d e f st, Tracked)
  | constructPath _ pathData => (do_constructPath pathData st, Tracked)
  | clip => (st, Tracked)
  | shadingFill => do_shadingFill pg st
  | paintImageXObject arg0 => do_paint pg XObject arg0 JUndefined st
  | paintInlineImageXObject arg0 => do_paint pg Inline arg0 JUndefined st
  | paintFormXObjectBegin arg0 arg1 => do_paint pg FormXObject arg0 arg1 st
  | otherOp => (st, Tracked)
  end.

(** The whole operator list of a page. *)
Fixpoint scan (pg : Page) (ops : list Op) (st : State) : State :=
  match ops with
  | [] => st
  | op :: rest => scan pg rest (fst (step pg op st))
  end.

(** The outcomes of the operators, in order. *)
Fixpoint outcomes (pg : Page) (ops : list Op) (st : State) : list outcome :=
  match ops with
  | [] => []
  | op :: rest => snd (step pg op st) :: outcomes pg rest (fst (step pg op st))
  end.

(** ** Vocabulary of the statements, and a page for the examples *)

(** The invariant of the transform tracker: the stack is not empty and its
    top is the current transform. *)
Definition tracker_inv (st : State) : Prop :=
  exists below, transformStack st = currentTransform st :: below.

(** [st'] has the trackers and the dependency name of [st]. *)
Definition same_trackers (st st' : State) : Prop :=
  transformStack st' = transformStack st /\
  currentTransform st' = currentTransform st /\
  clippingStack st' = clippingStack st /\
  currentClipBounds st' = currentClipBounds st /\
  lastDependencyName st' = lastDependencyName st.

(** A page for the examples: one bitmap image [Im1] of 300 x 200, one form
    [Fm1] with a [BBox] of 50 x 40, a canvas of height 1000. *)
Definition ex_image : PageObj :=
  {| bitmap := Some 1%nat; obj_width := 300; obj_height := 200; BBox := None |}.

Definition ex_form : PageObj :=
  {| bitmap := None; obj_width := 0; obj_height := 0; BBox := Some [0; 0; 50; 40] |}.

Definition ex_objs (v : jsval) : option PageObj :=
  if same_value_zero v (JString "Im1") then Some ex_image
  else if same_value_zero v (JString "Fm1") then Some ex_form
  else None.

Definition ex_page : Page :=
  {| pageNum := 1; viewport_height := 1000;
     objs_has := fun v => match ex_objs v with Some _ => true | None => false end;
     objs_get := ex_objs;
     drawBitmap := fun _ => Some "data:image/png;base64,AAAA"%string;
     cropPage := fun _ _ _ _ => Some "data:image/png;base64,BBBBBBBB"%string |}.

(** The name of the last [dependency] operator of a list, [previous] when
    the list has none. *)
Fixpoint lastDependency (ops : list Op) (previous : jsval) : jsval :=
  match ops with
  | [] => previous
  | dependency v :: rest => lastDependency rest v
  | _ :: rest => lastDependency rest previous
  end.

(** The kind and the two arguments of a paint operator. *)
Definition paint_args (op : Op) : option (opType * jsval * jsval) :=
  match op with
  | paintImageXObject arg0 => Some (XObject, arg0, JUndefined)
  | paintInlineImageXObject arg0 => Some (Inline, arg0, JUndefined)
  | paintFormXObjectBegin arg0 arg1 => Some (FormXObject, arg0, arg1)
  | _ => None
  end.

(** An object exposing a [name] property. *)
Definition exposes_name (v : jsval) : bool :=
  match v with
  | JObject _ (Some _) => true
  | _ => false
  end.

Definition is_emitted (o : outcome) : bool :=
  match o with Emitted => true | _ => false end.

Definition is_shadingFill (op : Op) : bool :=
  match op with shadingFill => true | _ => false end.

(** The name a paint operator resolves to in a state. *)
Definition paintedName (op : Op) (st : State) : option jsval :=
  match paint_args op with
  | Some (kind, arg0, arg1) => Some (actualImageName kind arg0 arg1 st)
  | None => None
  end.

(** The operator paints [name] and pushes a record for it. *)
Definition emitsFor (pg : Page) (name : jsval) (op : Op) (st : State) : bool :=
  match paintedName op st with
  | Some n => same_value_zero n name && is_emitted (snd (step pg op st))
  | None => false
  end.

(** The number of records the scan of [ops] pushes for [name]. *)
Fixpoint recordsFor (pg : Page) (name : jsval) (ops : list Op) (st : State) : nat :=
  match ops with
  | [] => 0
  | op :: rest =>
      ((if emitsFor pg name op st then 1 else 0)
       + recordsFor pg name rest (fst (step pg op st)))%nat
  end.

Definition extracted (name : jsval) (st : State) : bool :=
  existsb (same_value_zero name) (extractedObjects st).

End Extract.

(** * The PDF save: the click handler of [savePdfBtn] in [editor.js] *)
Module Save.

Local Open Scope Q_scope.

(** ** The document, as far as the handler walks it

    The document comes from pdf-lib ([window.PDFLib]), which is not part of
    the repository; the model keeps of it what the handler calls.  Objects
    with an identity live in a store; [PDFRef n] is an indirect reference to
    the object at [n], [PDFDirect n] is that object held directly (a
    dictionary nested in another one). *)
Inductive PDFValue :=
| PDFName (s : string)
| PDFNumber (q : num)
| PDFRef (n : nat)
| PDFDirect (n : nat).

(** The entries of a dictionary, in the order [entries()] lists them. *)
Abbreviation Dict := (list (string * PDFValue)).

(** The objects of the store; [PDFOther] is any object with neither [dict],
    [entries] nor [set]. *)
Inductive PDFObject :=
| PDFDict (d : Dict)
| PDFStream (d : Dict) (contents : list Byte.byte)
| PDFOther.

Record PDFPage := { Resources : option Dict }.

Record PDFDocument := {
  store : gmap nat PDFObject;
  pages : list PDFPage;
  largestObjectNumber : nat
}.

(** [dict.get(PDFName.of(key))] *)
Fixpoint dict_get (key : string) (d : Dict) : option PDFValue :=
  match d with
  | [] => None
  | (k, v) :: rest => if String.eqb k key then Some v else dict_get key rest
  end.

(** [dict.set(PDFName.of(key), v)]: an existing key keeps its place. *)
Fixpoint dict_set (key : string) (v : PDFValue) (d : Dict) : Dict :=
  match d with
  | [] => [(key, v)]
  | (k, w) :: rest =>
      if String.eqb k key then (k, v) :: rest else (k, w) :: dict_set key v rest
  end.

(** [pdfDoc.context.lookup(v)]: a reference is resolved in the store
    ([undefined] when nothing is registered), any other value is returned as
    it is.  A name or a number is an object without [dict] and without
    [entries]. *)
Definition lookup (doc : PDFDocument) (v : PDFValue) : option PDFObject :=
  match v with
  | PDFRef n | PDFDirect n => store doc !! n
  | PDFName _ | PDFNumber _ => Some PDFOther
  end.

(** The XObject dictionary of a page: its place in the store and its
    entries.  A value with [entries()] is a dictionary held directly; any
    other value is looked up once, which resolves a reference and returns
    every other value unchanged.  [None] where the handler says [continue]
    (and where the patcher would call a method of [undefined]). *)
Definition pageXObjects (doc : PDFDocument) (page : PDFPage) : option (nat * Dict) :=
  match Resources page with
  | None => None
  | Some resources =>
      match dict_get "XObject" resources with
      | Some (PDFDirect n) | Some (PDFRef n) =>
          match store doc !! n with
          | Some (PDFDict entries) => Some (n, entries)
          | _ => None
          end
      | _ => None
      end
  end.

(** [xObj.dict]: a stream has its dictionary, a dictionary its entry map. *)
Definition obj_dict (o : PDFObject) : option Dict :=
  match o with
  | PDFDict d | PDFStream d _ => Some d
  | PDFOther => None
  end.

(** The conversion of [Width] and [Height] to plain numbers: [asNumber()] for
    a number object; [Number(obj)] of anything else is [NaN], here [None]. *)
Definition plainNumber (v : PDFValue) : option num :=
  match v with
  | PDFNumber q => Some q
  | _ => None
  end.

(** [subtype?.encodedName === '/Image' || subtype?.decodeText?.() === 'Image'] *)
Definition isImage (subtype : option PDFValue) : bool :=
  match subtype with
  | Some (PDFName s) => String.eqb s "Image"
  | _ => false
  end.

(** ** The matching pass *)

Module Repl.
Record t := mk {
  pageNum : nat;
  xObjKeyName : string;
  xObjRef : PDFValue;
  optimizedImg : Img.t;
  width : num;
  height : num
}.
End Repl.

(** [imagesByPage]: the records grouped under their page number. *)
Definition groupByPage (images : list Img.t) : gmap nat (list Img.t) :=
  foldl (fun m img =>
           <[Img.pageNum img := default [] (m !! Img.pageNum img) ++ [img]]> m)
        ∅ images.

(** [`${img.pageNum}-${img.index}`] *)
Definition imgKey (img : Img.t) : string :=
  pretty (Img.pageNum img) +:+ "-" +:+ pretty (Img.index img).

(** The test of the inner loop:
    [!matchedImages.has(imgKey) && img.width === width && img.height === height] *)
Definition matches (matchedImages : gset string) (width height : num) (img : Img.t) : bool :=
  negb (bool_decide (imgKey img ∈ matchedImages))
  && Qeq_bool (Img.width img) width && Qeq_bool (Img.height img) height.

(** The variables of the pass: [replacements] and [matchedImages]. *)
Record Plan := {
  replacements : list Repl.t;
  matchedImages : gset string
}.

(** The inner loop, for an XObject of [width] x [height] on page [pageNum]:
    the first record that passes the test is taken. *)
Definition matchXObject (imagesByPage : gmap nat (list Img.t)) (pageNum : nat)
    (xObjKeyName : string) (xObjRef : PDFValue) (width height : num) (p : Plan) : Plan :=
  let pageImages := default [] (imagesByPage !! pageNum) in
  match List.find (matches (matchedImages p) width height) pageImages with
  | Some optimizedImg =>
      {| replacements := replacements p ++
           [Repl.mk pageNum xObjKeyName xObjRef optimizedImg width height];
         matchedImages := {[imgKey optimizedImg]} ∪ matchedImages p |}
  | None => p
  end.

(** The size of an entry when it is an image XObject with both dimensions:
    [Some (width, height)] with the plain numbers, each [None] for [NaN]. *)
Definition imageXObjectSize (doc : PDFDocument) (xObjRef : PDFValue)
    : option (option num * option num) :=
  match lookup doc xObjRef with
  | Some xObj =>
      match obj_dict xObj with
      | Some dict =>
          if isImage (dict_get "Subtype" dict) then
            match dict_get "Width" dict, dict_get "Height" dict with
            | Some widthObj, Some heightObj =>
                Some (plainNumber widthObj, plainNumber heightObj)
            | _, _ => None
            end
          else None
      | None => None
      end
  | None => None
  end.

(** The body of [for (const [xObjKey, xObjRef] of xObjectEntries)]. [NaN] is
    equal to no number, so an XObject with such a size finds no record. *)
Definition matchEntry (doc : PDFDocument) (imagesByPage : gmap nat (list Img.t))
    (pageNum : nat) (p : Plan) (entry : string * PDFValue) : Plan :=
  let '(xObjKeyName, xObjRef) := entry in
  match imageXObjectSize doc xObjRef with
  | Some (Some width, Some height) =>
      matchXObject imagesByPage pageNum xObjKeyName xObjRef width height p
  | _ => p
  end.

(** The XObject entries the pass walks on a page ([[]] where it continues). *)
Definition xObjectEntries (doc : PDFDocument) (page : PDFPage) : Dict :=
  match pageXObjects doc page with
  | Some (_, entries) => entries
  | None => []
  end.

(** The body of the loop over the pages. *)
Definition matchPage (doc : PDFDocument) (imagesByPage : gmap nat (list Img.t))
    (pageNum : nat) (page : PDFPage) (p : Plan) : Plan :=
  foldl (matchEntry doc imagesByPage pageNum) p (xObjectEntries doc page).

(** [for (let pageIdx = 0; ...)], from the page at index [pageIdx] on. *)
Fixpoint matchPages (doc : PDFDocument) (imagesByPage : gmap nat (list Img.t))
    (pageIdx : nat) (rest : list PDFPage) (p : Plan) : Plan :=
  match rest with
  | [] => p
  | page :: rest' =>
      matchPages doc imagesByPage (S pageIdx) rest'
        (matchPage doc imagesByPage (pageIdx + 1) page p)
  end.

Definition emptyPlan : Plan := {| replacements := []; matchedImages := ∅ |}.

(** The replacement plan of a document and the current records. *)
Definition buildPlan (doc : PDFDocument) (pdfImages : list Img.t) : Plan :=
  matchPages doc (groupByPage pdfImages) 0 (pages doc) emptyPlan.

(** ** The patch loop *)

(** The calls the loop makes outside the document: [fetch(dataURL)] followed
    by [arrayBuffer()], [pdfDoc.embedPng(bytes)] (the object it would
    register), and [pdfDoc.save].  [None] means that the call threw.
    [hasTransparency] only feeds a log line and resolves [false] on error, so
    it is left out. *)
Record Env := {
  fetchBytes : string -> option (list Byte.byte);
  embedPng : list Byte.byte -> option PDFObject;
  saveBytes : PDFDocument -> option (list Byte.byte)
}.

(** [haystack.includes(needle)] *)
Fixpoint includes (needle haystack : string) : bool :=
  String.prefix needle haystack ||
  match haystack with
  | EmptyString => false
  | String _ rest => includes needle rest
  end.

(** [optimizedImg.optimizedDataURL || optimizedImg.dataURL] *)
Definition dataURLToUse (img : Img.t) : string :=
  match Img.optimizedDataURL img with
  | Some url => if String.eqb url "" then Img.dataURL img else url
  | None => Img.dataURL img
  end.

Definition set_store (s : gmap nat PDFObject) (doc : PDFDocument) : PDFDocument :=
  {| store := s; pages := pages doc; largestObjectNumber := largestObjectNumber doc |}.

(** The registration of a new indirect object under the next reference. *)
Definition register (o : PDFObject) (doc : PDFDocument) : PDFDocument :=
  {| store := <[S (largestObjectNumber doc) := o]> (store doc);
     pages := pages doc;
     largestObjectNumber := S (largestObjectNumber doc) |}.

(** [xObjects.set(PDFName.of(xObjKeyName), newImageRef)] on the XObject
    dictionary of page [pageNum]; [None] when one of the steps that lead to
    the dictionary reads a property of [undefined] or finds no [set]. *)
Definition repoint (pageNum : nat) (xObjKeyName : string) (newImageRef : nat)
    (doc : PDFDocument) : option PDFDocument :=
  match pageNum with
  | O => None
  | S pageIdx =>
      match pages doc !! pageIdx with
      | Some page =>
          match pageXObjects doc page with
          | Some (n, entries) =>
              Some (set_store
                      (<[n := PDFDict (dict_set xObjKeyName (PDFRef newImageRef) entries)]>
                         (store doc)) doc)
          | None => None
          end
      | None => None
      end
  end.

(** The dictionary built for the stream that overwrites an image. *)
Definition imageDict (isJpeg : bool) (width height : num) : Dict :=
  [ ("Type", PDFName "XObject"); ("Subtype", PDFName "Image");
    ("Width", PDFNumber width); ("Height", PDFNumber height);
    ("BitsPerComponent", PDFNumber 8); ("ColorSpace", PDFName "DeviceRGB");
    ("Filter", PDFName (if isJpeg then "DCTDecode" else "FlateDecode")) ]%string.

(** [oldImageObj.dict = stream.dict; oldImageObj.contents = stream.contents]:
    the object at the place of the old one now is the new stream. *)
Definition overwrite (xObjRef : PDFValue) (dict : Dict) (imageBytes : list Byte.byte)
    (doc : PDFDocument) : PDFDocument :=
  match xObjRef with
  | PDFRef n | PDFDirect n => set_store (<[n := PDFStream dict imageBytes]> (store doc)) doc
  | PDFName _ | PDFNumber _ => doc
  end.

(** What the loop did with one replacement. *)
Inductive patched :=
| Embedded          (* [embedPng] and the entry of the page now points to the new object *)
| Overwritten       (* the old object was overwritten in place *)
| NoOldObject       (* the lookup of the old object found nothing: [continue] *)
| Failed.           (* an exception reached the outer [catch] *)

(** The inner [try]: embed the PNG and repoint the entry.  [None] when it
    threw; the object registered by a successful [embedPng] then stays. *)
Definition embedAndRepoint (env : Env) (r : Repl.t) (imageBytes : list Byte.byte)
    (doc : PDFDocument) : PDFDocument * bool :=
  match embedPng env imageBytes with
  | Some img =>
      let doc1 := register img doc in
      match repoint (Repl.pageNum r) (Repl.xObjKeyName r) (largestObjectNumber doc1) doc1 with
      | Some doc2 => (doc2, true)
      | None => (doc1, false)
      end
  | None => (doc, false)
  end.

(** The body of [for (const replacement of replacements)]. *)
Definition applyReplacement (env : Env) (doc : PDFDocument) (r : Repl.t)
    : PDFDocument * patched :=
  let url := dataURLToUse (Repl.optimizedImg r) in
  match fetchBytes env url with
  | None => (doc, Failed)
  | Some imageBytes =>
      match lookup doc (Repl.xObjRef r) with
      | None => (doc, NoOldObject)
      | Some _ =>
          let isPng := includes "image/png" url in
          let isJpeg := includes "image/jpeg" url in
          let '(doc1, embedded) :=
            if isPng then embedAndRepoint env r imageBytes doc else (doc, false) in
          if embedded then (doc1, Embedded)
          else (overwrite (Repl.xObjRef r)
                  (imageDict isJpeg (Repl.width r) (Repl.height r)) imageBytes doc1,
                Overwritten)
      end
  end.

(** The whole loop. *)
Fixpoint applyReplacements (env : Env) (plan : list Repl.t) (doc : PDFDocument)
    : PDFDocument :=
  match plan with
  | [] => doc
  | r :: rest => applyReplacements env rest (fst (applyReplacement env doc r))
  end.

(** Matching, patching and [pdfDoc.save]: the bytes of the saved document,
    [None] when the save threw (the handler then reports the failure). *)
Definition savePdf (env : Env) (doc : PDFDocument) (pdfImages : list Img.t)
    : option (list Byte.byte) :=
  saveBytes env (applyReplacements env (replacements (buildPlan doc pdfImages)) doc).

(** ** Vocabulary of the statements, and a document for the examples *)

(** A record is passed over when it has been consumed or its size differs. *)
Definition passed_over (matched : gset string) (width height : num) (img : Img.t) : Prop :=
  imgKey img ∈ matched \/ ~ (Img.width img == width /\ Img.height img == height).

(** What holds of a replacement of the plan: its record is one of
    [pdfImages], grouped under the page of the XObject, of the size read from
    the XObject, which is an image XObject with both dimensions. *)
Definition sound (doc : PDFDocument) (images : list Img.t) (r : Repl.t) : Prop :=
  Repl.optimizedImg r ∈ images /\
  Img.pageNum (Repl.optimizedImg r) = Repl.pageNum r /\
  Img.width (Repl.optimizedImg r) == Repl.width r /\
  Img.height (Repl.optimizedImg r) == Repl.height r /\
  imageXObjectSize doc (Repl.xObjRef r) = Some (Some (Repl.width r), Some (Repl.height r)).

(** The replacement stands for an entry of the XObject dictionary of its page. *)
Definition placed (doc : PDFDocument) (r : Repl.t) : Prop :=
  exists pageIdx page,
    Repl.pageNum r = S pageIdx /\ pages doc !! pageIdx = Some page /\
    (Repl.xObjKeyName r, Repl.xObjRef r) ∈ xObjectEntries doc page.

Definition usedKey (r : Repl.t) : string := imgKey (Repl.optimizedImg r).

Definition slot (r : Repl.t) : nat * string := (Repl.pageNum r, Repl.xObjKeyName r).

(** The invariant of the matching pass. *)
Definition plan_inv (doc : PDFDocument) (images : list Img.t) (p : Plan) : Prop :=
  Forall (fun r => usedKey r ∈ matchedImages p) (replacements p) /\
  NoDup (usedKey <$> replacements p) /\
  Forall (sound doc images) (replacements p).

(** A document for the examples: one page whose XObject dictionary, held by
    reference, names two images of 200 x 100 and 50 x 50 and a form. *)
Definition ex_imageDict (width height : num) : Dict :=
  [ ("Type", PDFName "XObject"); ("Subtype", PDFName "Image");
    ("Width", PDFNumber width); ("Height", PDFNumber height) ]%string.

Definition ex_doc : PDFDocument :=
  {| store :=
       <[1%nat := PDFDict [("Im1", PDFRef 2); ("Im2", PDFRef 3); ("Fm1", PDFRef 4)]%string]>
         (<[2%nat := PDFStream (ex_imageDict 200 100) [Byte.x0a]]>
            (<[3%nat := PDFStream (ex_imageDict 50 50) [Byte.x0b]]>
               (<[4%nat := PDFStream [("Subtype", PDFName "Form")]%string []]> ∅)));
     pages := [ {| Resources := Some [("XObject", PDFRef 1)]%string |} ];
     largestObjectNumber := 4 |}.

(** Two records of page 1: a 50 x 50 image that was never optimized and a
    200 x 100 image optimized to a JPEG whose data URL cannot be decoded. *)
Definition ex_images : list Img.t :=
  [ Img.mk 0 "data:image/png;base64,AAAA" 3 50 50 1 "page-1-Im2" false None 0;
    Img.mk 1 "data:image/png;base64,BBBB" 3 200 100 1 "page-1-Im1" true
      (Some "data:image/jpeg;base64,broken"%string) 4 ].

Definition ex_env : Env :=
  {| fetchBytes := fun url =>
       if includes "broken" url then None else Some [Byte.x01; Byte.x02];
     embedPng := fun bytes => Some (PDFStream [("Subtype", PDFName "Image")]%string bytes);
     saveBytes := fun doc => Some [Byte.x25; Byte.x50; Byte.x44; Byte.x46] |}.

(** A document of two pages that share one XObject dictionary, and with it
    the image [Im1], and the two records extraction yields for it, one for
    each page. *)
Definition shared_doc : PDFDocument :=
  {| store :=
       <[1%nat := PDFDict [("Im1", PDFRef 2)]%string]>
         (<[2%nat := PDFStream (ex_imageDict 200 100) [Byte.x0a]]> ∅);
     pages := [ {| Resources := Some [("XObject", PDFRef 1)]%string |};
                {| Resources := Some [("XObject", PDFRef 1)]%string |} ];
     largestObjectNumber := 2 |}.

Definition shared_images : list Img.t :=
  [ Img.mk 0 "data:image/png;base64,AAAA" 3 200 100 1 "page-1-Im1" false None 0;
    Img.mk 1 "data:image/png;base64,AAAA" 3 200 100 2 "page-2-Im1" false None 0 ].

(** The same collaborators with an [embedPng] that always throws. *)
Definition ex_env_no_embed : Env :=
  {| fetchBytes := fetchBytes ex_env;
     embedPng := fun _ => None;
     saveBytes := saveBytes ex_env |}.

(** The place in the store a value designates. *)
Definition target (v : PDFValue) : option nat :=
  match v with
  | PDFRef n | PDFDirect n => Some n
  | PDFName _ | PDFNumber _ => None
  end.

(** The place of the XObject dictionary of a page. *)
Definition xObjectsPlace (page : PDFPage) : option nat :=
  match Resources page with
  | Some resources =>
      match dict_get "XObject" resources with
      | Some v => target v
      | None => None
      end
  | None => None
  end.

(** The identities of the document are within its reference counter: the
    objects of the store and the XObject dictionaries the pages name.  The
    next reference then is new to the document. *)
Definition well_formed (doc : PDFDocument) : Prop :=
  (forall n, is_Some (store doc !! n) -> (n <= largestObjectNumber doc)%nat) /\
  (forall page n, page ∈ pages doc -> xObjectsPlace page = Some n ->
                  (n <= largestObjectNumber doc)%nat).

(** The replacement gets the bytes of its data. *)
Definition decodes (env : Env) (r : Repl.t) : Prop :=
  is_Some (fetchBytes env (dataURLToUse (Repl.optimizedImg r))).

(** The place of the XObject dictionary of the page of a replacement. *)
Definition dictionaryOf (doc : PDFDocument) (r : Repl.t) : option nat :=
  match Repl.pageNum r with
  | O => None
  | S pageIdx => pages doc !! pageIdx ≫= xObjectsPlace
  end.

(** The replacement can write the object at [n]: its data is decoded, and
    [n] is its old object or the XObject dictionary of its page. *)
Definition touches (env : Env) (doc : PDFDocument) (r : Repl.t) (n : nat) : Prop :=
  decodes env r /\ (target (Repl.xObjRef r) = Some n \/ dictionaryOf doc r = Some n).

(** The replacement can write the entry [key] of the dictionary at [m]: its
    data is decoded, and [m] is its old object, or [m] is the XObject
    dictionary of its page and [key] its key. *)
Definition touches_entry (env : Env) (doc : PDFDocument) (r : Repl.t) (m : nat)
    (key : string) : Prop :=
  decodes env r /\
  (target (Repl.xObjRef r) = Some m \/
   (dictionaryOf doc r = Some m /\ Repl.xObjKeyName r = key)).

(** ** Collaborators for the examples

    [fetch] of a [data:] URL, after the data-URL processor of the Fetch
    standard: the URL without its fragment is cut at the first comma, the
    body is percent-decoded and, when the media type ends in [;base64],
    decoded as forgiving base64.  Every other URL is a network error. *)
Definition is_space (c : ascii) : bool :=
  let n := N_of_ascii c in
  ((n =? 9) || (n =? 10) || (n =? 12) || (n =? 13) || (n =? 32))%N.

Definition lower (c : ascii) : ascii :=
  let n := N_of_ascii c in
  if ((65 <=? n) && (n <=? 90))%N then ascii_of_N (n + 32) else c.

Definition base64_digit (c : ascii) : option N :=
  let n := N_of_ascii c in
  if ((65 <=? n) && (n <=? 90))%N then Some (n - 65)%N
  else if ((97 <=? n) && (n <=? 122))%N then Some (n - 71)%N
  else if ((48 <=? n) && (n <=? 57))%N then Some (n + 4)%N
  else if (n =? 43)%N then Some 62%N
  else if (n =? 47)%N then Some 63%N
  else None.

Definition hex_digit (c : ascii) : option N :=
  let n := N_of_ascii c in
  if ((48 <=? n) && (n <=? 57))%N then Some (n - 48)%N
  else if ((65 <=? n) && (n <=? 70))%N then Some (n - 55)%N
  else if ((97 <=? n) && (n <=? 102))%N then Some (n - 87)%N
  else None.

Definition byte_of (n : N) : Byte.byte := byte_of_ascii (ascii_of_N n).

Fixpoint percent_decode (cs : list ascii) : list ascii :=
  match cs with
  | [] => []
  | c :: rest =>
      let plain := c :: percent_decode rest in
      if Ascii.eqb c "%" then
        match rest with
        | h :: l :: rest' =>
            match hex_digit h, hex_digit l with
            | Some x, Some y => ascii_of_N (x * 16 + y) :: percent_decode rest'
            | _, _ => plain
            end
        | _ => plain
        end
      else plain
  end.

Fixpoint drop_while {A} (f : A -> bool) (l : list A) : list A :=
  match l with
  | [] => []
  | x :: rest => if f x then drop_while f rest else l
  end.

Fixpoint take_until {A} (f : A -> bool) (l : list A) : list A :=
  match l with
  | [] => []
  | x :: rest => if f x then [] else x :: take_until f rest
  end.

(** Up to two [=] go when the length is a multiple of 4. *)
Definition strip_padding (cs : list ascii) : list ascii :=
  if (length cs mod 4 =? 0)%nat then
    match reverse cs with
    | c1 :: c2 :: rest =>
        if Ascii.eqb c1 "=" then
          if Ascii.eqb c2 "=" then reverse rest else reverse (c2 :: rest)
        else cs
    | _ => cs
    end
  else cs.

(** Four digits of six bits make three bytes; a single digit left over is
    an error, the bits left over by two or three are dropped. *)
Fixpoint base64_bytes (digits : list N) : option (list Byte.byte) :=
  match digits with
  | [] => Some []
  | [_] => None
  | [a; b] => Some [byte_of (a * 4 + b / 16)]
  | [a; b; c] => Some [byte_of (a * 4 + b / 16); byte_of (b * 16 + c / 4)]
  | a :: b :: c :: d :: rest =>
      match base64_bytes rest with
      | Some bytes =>
          Some (byte_of (a * 4 + b / 16) :: byte_of (b * 16 + c / 4)
                :: byte_of (c * 64 + d) :: bytes)
      | None => None
      end
  end%N.

Definition forgiving_base64 (cs : list ascii) : option (list Byte.byte) :=
  mapM base64_digit (strip_padding (List.filter (fun c => negb (is_space c)) cs))
  ≫= base64_bytes.

(** The media type ends in [;], spaces and [base64], in any case. *)
Definition is_base64_type (mediaType : list ascii) : bool :=
  match drop_while is_space (reverse (lower <$> mediaType)) with
  | c4 :: c6 :: ce :: cs :: ca :: cb :: rest =>
      bool_decide (String.string_of_list_ascii [cb; ca; cs; ce; c6; c4] = "base64"%string)
      && match drop_while (Ascii.eqb " ") rest with
         | c :: _ => Ascii.eqb c ";"
         | [] => false
         end
  | _ => false
  end.

Definition fetchDataURL (url : string) : option (list Byte.byte) :=
  let cs := take_until (Ascii.eqb "#") (String.list_ascii_of_string url) in
  if bool_decide (String.string_of_list_ascii (lower <$> take 5 cs) = "data:"%string) then
    let rest := drop 5 cs in
    let mediaType := take_until (Ascii.eqb ",") rest in
    match drop (length mediaType) rest with
    | _ :: body =>
        if is_base64_type mediaType then forgiving_base64 (percent_decode body)
        else Some (byte_of_ascii <$> percent_decode body)
    | [] => None
    end
  else None.

(** [embedPng] as far as the examples go: data that starts like a PNG file,
    with the signature and the size of the header chunk, is embedded as an
    image of that size (the stream pdf-lib builds holds the pixels encoded
    anew; the bytes of the file stand for them), anything else throws. *)
Definition be32 (bytes : list Byte.byte) : Z :=
  foldl (fun acc b => acc * 256 + Z.of_N (Byte.to_N b))%Z 0%Z bytes.

Definition embedPngFile (bytes : list Byte.byte) : option PDFObject :=
  if bool_decide (Byte.to_N <$> take 8 bytes = [137; 80; 78; 71; 13; 10; 26; 10]%N)
     && (24 <=? length bytes)%nat
  then Some (PDFStream
               (imageDict false (inject_Z (be32 (take 4 (drop 16 bytes))))
                  (inject_Z (be32 (take 4 (drop 20 bytes)))))
               bytes)
  else None.

(** [save] as far as the examples go: a header and the contents of the
    streams, in the order of the object numbers. *)
Definition streamBytes (o : PDFObject) : list Byte.byte :=
  match o with
  | PDFStream _ contents => contents
  | _ => []
  end.

Definition serialize (doc : PDFDocument) : list Byte.byte :=
  [Byte.x25; Byte.x50; Byte.x44; Byte.x46]
  ++ concat ((fun entry => streamBytes (snd entry))
             <$> merge_sort (fun x y => (fst x <=? fst y)%nat) (map_to_list (store doc))).

Definition browser_env : Env :=
  {| fetchBytes := fetchDataURL; embedPng := embedPngFile;
     saveBytes := fun doc => Some (serialize doc) |}.

(** A PNG file of one red pixel, as [toDataURL] gives it, and its bytes. *)
Definition tiny_png : string :=
  "data:image/png;base64,iVBORw0KGgoAAAANSUhEUgAAAAEAAAABCAYAAAAfFcSJAAAADUlEQVR42mP4z8DwHwAFAAH/VscvDQAAAABJRU5ErkJggg==".

Definition tiny_png_bytes : list Byte.byte :=
  [ Byte.x89; Byte.x50; Byte.x4e; Byte.x47; Byte.x0d; Byte.x0a; Byte.x1a; Byte.x0a;
    Byte.x00; Byte.x00; Byte.x00; Byte.x0d; Byte.x49; Byte.x48; Byte.x44; Byte.x52;
    Byte.x00; Byte.x00; Byte.x00; Byte.x01; Byte.x00; Byte.x00; Byte.x00; Byte.x01;
    Byte.x08; Byte.x06; Byte.x00; Byte.x00; Byte.x00; Byte.x1f; Byte.x15; Byte.xc4;
    Byte.x89; Byte.x00; Byte.x00; Byte.x00; Byte.x0d; Byte.x49; Byte.x44; Byte.x41;
    Byte.x54; Byte.x78; Byte.xda; Byte.x63; Byte.xf8; Byte.xcf; Byte.xc0; Byte.xf0;
    Byte.x1f; Byte.x00; Byte.x05; Byte.x00; Byte.x01; Byte.xff; Byte.x56; Byte.xc7;
    Byte.x2f; Byte.x0d; Byte.x00; Byte.x00; Byte.x00; Byte.x00; Byte.x49; Byte.x45;
    Byte.x4e; Byte.x44; Byte.xae; Byte.x42; Byte.x60; Byte.x82 ].

(** A document of one page with two images of one pixel, and the two
    records of the page: the first optimized to a data URL that is no
    base64, the second never optimized. *)
Definition tiny_doc : PDFDocument :=
  {| store :=
       <[1%nat := PDFDict [("Im1", PDFRef 2); ("Im2", PDFRef 3)]%string]>
         (<[2%nat := PDFStream (ex_imageDict 1 1) [Byte.x0a]]>
            (<[3%nat := PDFStream (ex_imageDict 1 1) [Byte.x0b]]> ∅));
     pages := [ {| Resources := Some [("XObject", PDFRef 1)]%string |} ];
     largestObjectNumber := 3 |}.

Definition tiny_images : list Img.t :=
  [ Img.mk 0 tiny_png 72 1 1 1 "page-1-Im1" true
      (Some "data:image/jpeg;base64,/9j/4A!"%string) 6;
    Img.mk 1 tiny_png 72 1 1 1 "page-1-Im2" false None 0 ].

(** The two replacements of the plan of the example. *)
Definition tiny_failing : Repl.t :=
  Repl.mk 1 "Im1" (PDFRef 2)
    (Img.mk 0 tiny_png 72 1 1 1 "page-1-Im1" true
       (Some "data:image/jpeg;base64,/9j/4A!"%string) 6) 1 1.

Definition tiny_unoptimized : Repl.t :=
  Repl.mk 1 "Im2" (PDFRef 3) (Img.mk 1 tiny_png 72 1 1 1 "page-1-Im2" false None 0) 1 1.

(** An entry of the XObject dictionary of a page, under the page number. *)
Definition visit (pageNum : nat) (entry : string * PDFValue) : nat * string * PDFValue :=
  (pageNum, fst entry, snd entry).

(** The entries the two loops of the matching pass come by, in order, from
    the page at index [pageIdx] on. *)
Fixpoint visitsFrom (doc : PDFDocument) (pageIdx : nat) (rest : list PDFPage)
    : list (nat * string * PDFValue) :=
  match rest with
  | [] => []
  | page :: rest' =>
      (visit (pageIdx + 1) <$> xObjectEntries doc page) ++ visitsFrom doc (S pageIdx) rest'
  end.

Definition visits (doc : PDFDocument) : list (nat * string * PDFValue) :=
  visitsFrom doc 0 (pages doc).

(** The pairing the claim describes, entry by entry: [pairing doc images
    entries p p'] says that [p'] is the plan that comes of [p] when every
    entry of [entries] that is an image XObject with both dimensions is
    paired with the first record of its page that is not consumed and has
    its size, that record being consumed with it, and every other entry is
    left out. *)
Inductive pairing (doc : PDFDocument) (images : list Img.t)
    : list (nat * string * PDFValue) -> Plan -> Plan -> Prop :=
| pairing_done p : pairing doc images [] p p
| pairing_no_image pageNum key ref rest p p' :
    (forall width height, imageXObjectSize doc ref <> Some (Some width, Some height)) ->
    pairing doc images rest p p' ->
    pairing doc images ((pageNum, key, ref) :: rest) p p'
| pairing_first pageNum key ref width height before img after rest p p' :
    imageXObjectSize doc ref = Some (Some width, Some height) ->
    filter (fun img => Img.pageNum img = pageNum) images = before ++ img :: after ->
    Forall (passed_over (matchedImages p) width height) before ->
    imgKey img ∉ matchedImages p ->
    Img.width img == width ->
    Img.height img == height ->
    pairing doc images rest
      {| replacements := replacements p ++ [Repl.mk pageNum key ref img width height];
         matchedImages := {[imgKey img]} ∪ matchedImages p |} p' ->
    pairing doc images ((pageNum, key, ref) :: rest) p p'
| pairing_no_record pageNum key ref width height rest p p' :
    imageXObjectSize doc ref = Some (Some width, Some height) ->
    Forall (passed_over (matchedImages p) width height)
      (filter (fun img => Img.pageNum img = pageNum) images) ->
    pairing doc images rest p p' ->
    pairing doc images ((pageNum, key, ref) :: rest) p p'.

End Save.

(** * The extraction of a whole document, and the vocabulary of its invariants *)
Module Document.
Import Extract.

Local Open Scope Q_scope.

(** The nesting depth after a list of operators, counted from [depth];
    [None] when a [restore] arrives at depth 0. *)
Fixpoint nesting (ops : list Op) (depth : nat) : option nat :=
  match ops with
  | [] => Some depth
  | save :: rest => nesting rest (S depth)
  | restore :: rest =>
      match depth with
      | O => None
      | S below => nesting rest below
      end
  | _ :: rest => nesting rest depth
  end.

(** The operators that push, pop or replace a frame of the transform stack. *)
Definition moves_stacks (op : Op) : bool :=
  match op with
  | save | restore | transform _ _ _ _ _ _ => true
  | _ => false
  end.

(** The [x] and the [y] coordinates the bounding-box loop reads from
    [pathData]: the entries at the even and at the odd indices. *)
Fixpoint xcoords (pathData : list num) : list num :=
  match pathData with
  | x :: _ :: rest => x :: xcoords rest
  | [x] => [x]
  | [] => []
  end.

Fixpoint ycoords (pathData : list num) : list num :=
  match pathData with
  | _ :: y :: rest => y :: ycoords rest
  | _ => []
  end.

(** The [transform] operator with the six entries of a matrix. *)
Definition transformOp (m : Matrix) : Op :=
  transform (m_a m) (m_b m) (m_c m) (m_d m) (m_e m) (m_f m).

(** The product of a run of matrices, each multiplied onto the ones before. *)
Definition product (ms : list Matrix) : Matrix :=
  foldl (fun acc m => multiply m acc) identity ms.

(** A record as the scan of page [pg] pushes it: of that page, not optimized,
    and named after the page. *)
Definition fresh (pg : Page) (img : Img.t) : Prop :=
  Img.pageNum img = pageNum pg /\
  Img.isOptimized img = false /\
  Img.optimizedDataURL img = None /\
  Img.optimizedSize img = 0%nat /\
  exists suffix, Img.imageName img = "page-" +:+ pretty (pageNum pg) +:+ "-" +:+ suffix.

(** A record as one of the scans leaves it in [allImages]. *)
Definition extracted_record (img : Img.t) : Prop :=
  Img.isOptimized img = false /\
  Img.optimizedDataURL img = None /\
  Img.optimizedSize img = 0%nat /\
  exists suffix,
    Img.imageName img = "page-" +:+ pretty (Img.pageNum img) +:+ "-" +:+ suffix.

(** The invariant of the record list: indices grow strictly and stay below
    the counter. *)
Definition indexed (images : list Img.t) (imageIndex : nat) : Prop :=
  StronglySorted (fun a b => (Img.index a < Img.index b)%nat) images /\
  Forall (fun img => (Img.index img < imageIndex)%nat) images.

(** The page with the loop variable [pageNum] in its place. *)
Definition at_pageNum (n : nat) (pg : Page) : Page :=
  {| pageNum := n; viewport_height := viewport_height pg;
     objs_has := objs_has pg; objs_get := objs_get pg;
     drawBitmap := drawBitmap pg; cropPage := cropPage pg |}.

(** The loop of [extractEmbeddedImages] over the pages, from page [pageNum]
    on.  A page is what [getPage], [render] and [getOperatorList] deliver, [None]
    when one of them threw: the function then rethrows and nothing is
    returned. *)
Fixpoint extractPages (pageNum : nat) (pages : list (option (Page * list Op)))
    (allImages : list Img.t) (imageIndex : nat) : option (list Img.t) :=
  match pages with
  | [] => Some allImages
  | None :: _ => None
  | Some (pg, ops) :: rest =>
      let st := scan (at_pageNum pageNum pg) ops (initPage allImages imageIndex) in
      extractPages (S pageNum) rest (Extract.allImages st) (Extract.imageIndex st)
  end.

(** [extractEmbeddedImages]; the document is [None] when [getDocumentProxy]
    threw. *)
Definition extractEmbeddedImages (pdf : option (list (option (Page * list Op))))
    : option (list Img.t) :=
  match pdf with
  | Some pages => extractPages 1 pages [] 0
  | None => None
  end.

(** What [renderPdfPages] reads of a rendered page: the size of the canvas
    and its PNG data URL. *)
Record RenderedPage := {
  canvas_width : num;
  canvas_height : num;
  canvas_dataURL : string
}.

(** The loop of [renderPdfPages], from page [pageNum] on; a page is [None]
    when [getPage], [render] or [toDataURL] threw. *)
Fixpoint renderPages (pageNum : nat) (pages : list (option RenderedPage))
    (images : list Img.t) : option (list Img.t) :=
  match pages with
  | [] => Some images
  | None :: _ => None
  | Some canvas :: rest =>
      match estimateDataURLSize (canvas_dataURL canvas) with
      | Some size =>
          renderPages (S pageNum) rest
            (images ++
             [ {| Img.index := pageNum - 1; Img.dataURL := canvas_dataURL canvas;
                  Img.originalSize := size;
                  Img.width := canvas_width canvas; Img.height := canvas_height canvas;
                  Img.pageNum := pageNum;
                  Img.imageName := "page-" +:+ pretty pageNum;
                  Img.isOptimized := false; Img.optimizedDataURL := None;
                  Img.optimizedSize := 0 |} ])
      | None => None
      end
  end.

Definition renderPdfPages (pdf : option (list (option RenderedPage)))
    : option (list Img.t) :=
  match pdf with
  | Some pages => renderPages 1 pages []
  | None => None
  end.

(** A loaded document under its two views. *)
Record Pdf := {
  operatorPages : option (list (option (Page * list Op)));
  renderedPages : option (list (option RenderedPage))
}.

(** [extractPdfImages]: the mode selects the extraction; any other mode
    throws. *)
Definition extractPdfImages (pdf : Pdf) (mode : string) : option (list Img.t) :=
  if String.eqb mode "images" then extractEmbeddedImages (operatorPages pdf)
  else if String.eqb mode "fullpages" then renderPdfPages (renderedPages pdf)
  else None.

(** [extractImagesFromPDF] of [editor.js], as far as [state.pdfImages] goes:
    an empty result is turned into an exception. *)
Definition extractImagesFromPDF (pdf : Pdf) (mode : string) : option (list Img.t) :=
  match extractPdfImages pdf mode with
  | Some [] => None
  | result => result
  end.

(** The test at the head of the save handler:
    [pdfImages.length > 0 && pdfImages[0].imageName.startsWith('page_')]. *)
Definition isFullPageMode (pdfImages : list Img.t) : bool :=
  match pdfImages with
  | img :: _ => String.prefix "page_" (Img.imageName img)
  | [] => false
  end.

(** The box holds the coordinates seen so far, and each side is one of them. *)
Definition encloses (bb : ClipBounds) (xs ys : list num) : Prop :=
  Forall (fun x => minX bb <= x /\ x <= maxX bb) xs /\
  Forall (fun y => minY bb <= y /\ y <= maxY bb) ys /\
  minX bb ∈ xs /\ maxX bb ∈ xs /\ minY bb ∈ ys /\ maxY bb ∈ ys.

Definition is_digit (c : ascii) : bool :=
  (48 <=? nat_of_ascii c)%nat && (nat_of_ascii c <=? 57)%nat.

Fixpoint all_digits (s : string) : bool :=
  match s with
  | EmptyString => true
  | String c rest => is_digit c && all_digits rest
  end.

End Document.

(** * The save handler: vocabulary of further properties *)
Module SaveMore.
Import Save.
Local Open Scope Q_scope.

(** The number of XObject entries the matching pass visits. *)
Definition visitedEntries (doc : PDFDocument) (rest : list PDFPage) : nat :=
  sum_list (length <$> (xObjectEntries doc <$> rest)).

(** No replacement of the list carries PNG data. *)
Definition no_png (plan : list Repl.t) : Prop :=
  Forall (fun r => includes "image/png" (dataURLToUse (Repl.optimizedImg r)) = false) plan.

(** A record of another page and a record of another size than the images
    of [ex_doc]. *)
Definition ex_strangers : list Img.t :=
  [ Img.mk 0 "data:image/png;base64,AAAA" 3 200 100 2 "page-2-Im1" false None 0;
    Img.mk 1 "data:image/png;base64,AAAA" 3 200 101 1 "page-1-Im1" false None 0 ].

(** A replacement for [Im1] of [ex_doc] with JPEG data. *)
Definition ex_jpeg : Repl.t :=
  Repl.mk 1 "Im1" (PDFRef 2)
    (Img.mk 1 "data:image/png;base64,BBBB" 3 200 100 1 "page-1-Im1" true
       (Some "data:image/jpeg;base64,CCCC"%string) 4)
    200 100.

End SaveMore.

(** * Memory management ([memory.js]) *)
Module Memory.

(** What the cleanup functions do to the outside: a canvas is cleared and
    shrunk to 0 x 0, an object URL is handed to [URL.revokeObjectURL].  Both
    calls sit in a [try]/[catch] that only warns. *)
Inductive Effect :=
| Disposed (canvas : nat)
| Revoked (url : string).

(** [disposeCanvas]; [None] is a missing canvas. *)
Definition disposeCanvas (canvas : option nat) : list Effect :=
  match canvas with
  | Some c => [Disposed c]
  | None => []
  end.

(** [revokeObjectURL]: [if (url && url.startsWith('blob:'))] *)
Definition revokeObjectURL (url : option string) : list Effect :=
  match url with
  | Some u => if String.prefix "blob:" u then [Revoked u] else []
  | None => []
  end.

(** The items of the history: a falsy value, a canvas element, or an object
    with the properties [canvas] and [dataURL] ([None] when missing). *)
Inductive HistoryItem :=
| Nothing
| CanvasElement (c : nat)
| Snapshot (canvas : option nat) (dataURL : option string).

(** [cleanupHistoryItem] *)
Definition cleanupHistoryItem (item : HistoryItem) : list Effect :=
  match item with
  | Nothing => []
  | CanvasElement c => disposeCanvas (Some c)
  | Snapshot canvas dataURL => disposeCanvas canvas ++ revokeObjectURL dataURL
  end.

(** The manager: [stack] in array order, oldest item first; [maxSize] is
    taken to be an integer. *)
Record HistoryManager := {
  stack : list HistoryItem;
  maxSize : Z
}.

(** [new HistoryManager(maxSize)] *)
Definition new (maxSize : Z) : HistoryManager := {| stack := []; maxSize := maxSize |}.

(** [HISTORY.MAX_STACK_SIZE] *)
Definition MAX_STACK_SIZE : Z := 10.

Definition set_stack (s : list HistoryItem) (h : HistoryManager) : HistoryManager :=
  {| stack := s; maxSize := maxSize h |}.

(** [push]: [shift()] of an empty array yields [undefined], which
    [cleanupHistoryItem] returns on. *)
Definition push (item : HistoryItem) (h : HistoryManager) : HistoryManager * list Effect :=
  if (maxSize h <=? Z.of_nat (length (stack h)))%Z then
    match stack h with
    | oldest :: rest => (set_stack (rest ++ [item]) h, cleanupHistoryItem oldest)
    | [] => (set_stack [item] h, [])
    end
  else (set_stack (stack h ++ [item]) h, []).

(** [pop]: the last item, [None] for [undefined]. *)
Definition pop (h : HistoryManager) : HistoryManager * option HistoryItem :=
  (set_stack (removelast (stack h)) h, last (stack h)).

Definition size (h : HistoryManager) : nat := length (stack h).

Definition isEmpty (h : HistoryManager) : bool := Nat.eqb (length (stack h)) 0.

(** [while (this.stack.length > 0)]; every round pops an item, so as many
    rounds as there are items end the loop. *)
Fixpoint clearLoop (rounds : nat) (h : HistoryManager) : HistoryManager * list Effect :=
  match rounds with
  | O => (h, [])
  | S rounds' =>
      if Nat.ltb 0 (length (stack h)) then
        let '(h1, item) := pop h in
        let '(h2, effects) := clearLoop rounds' h1 in
        (h2, cleanupHistoryItem (default Nothing item) ++ effects)
      else (h, [])
  end.

Definition clear (h : HistoryManager) : HistoryManager * list Effect :=
  clearLoop (length (stack h)) h.

(** The calls on a manager, and a run of them with the effects in order. *)
Inductive Call :=
| Push (item : HistoryItem)
| Pop
| Clear.

Definition call (c : Call) (h : HistoryManager) : HistoryManager * list Effect :=
  match c with
  | Push item => push item h
  | Pop => (fst (pop h), [])
  | Clear => clear h
  end.

Fixpoint run (calls : list Call) (h : HistoryManager) : HistoryManager * list Effect :=
  match calls with
  | [] => (h, [])
  | c :: rest =>
      let '(h1, effects) := call c h in
      let '(h2, effects') := run rest h1 in
      (h2, effects ++ effects')
  end.

(** A record of [state.pdfImages] with the preview URL the editor adds. *)
Record PdfImage := {
  record : Img.t;
  tempPreviewDataURL : option string
}.

(** [cleanupPdfImages] on an array: the URLs of every record are handed to
    [revokeObjectURL], then the array is emptied in place. *)
Definition cleanupPdfImages (pdfImages : list PdfImage) : list PdfImage * list Effect :=
  ([], concat ((fun img =>
                  revokeObjectURL (Some (Img.dataURL (record img)))
                  ++ revokeObjectURL (Img.optimizedDataURL (record img))
                  ++ revokeObjectURL (tempPreviewDataURL img)) <$> pdfImages)).

(** [estimateDataURLMemory] *)
Definition estimateDataURLMemory (dataURL : jsval) : nat :=
  match dataURL with
  | JString s => String.length s * 2
  | _ => 0
  end.

(** [isMemoryPressureHigh] *)
Definition isMemoryPressureHigh (dataURLs : list jsval) : bool :=
  Nat.ltb (500 * 1024 * 1024) (sum_list (estimateDataURLMemory <$> dataURLs)).

(** ** Vocabulary of the statements *)

(** The URLs a record holds. *)
Definition urls (img : PdfImage) : list string :=
  Img.dataURL (record img)
  :: from_option (fun u => [u]) [] (Img.optimizedDataURL (record img))
  ++ from_option (fun u => [u]) [] (tempPreviewDataURL img).

(** An effect that revokes a [blob:] URL out of [candidates]. *)
Definition revokes_blob (candidates : list string) (e : Effect) : Prop :=
  match e with
  | Revoked url => String.prefix "blob:" url = true /\ url ∈ candidates
  | Disposed _ => False
  end.

(** The URLs of an item. *)
Definition itemURLs (item : HistoryItem) : list string :=
  match item with
  | Snapshot _ (Some u) => [u]
  | _ => []
  end.

End Memory.

(** * The state container ([EditorState]) *)
Module EditorState.

Local Open Scope Q_scope.

(** The values the editor stores: primitives and objects of the host (a
    canvas, a file, a cropper, an array), of which the identity is kept;
    [VEmptyArray] is the array a literal [[]] has just created, before
    anything is written to it. *)
Inductive value :=
| VUndefined
| VNull
| VBool (b : bool)
| VNumber (q : num)
| VNaN
| VString (s : string)
| VEmptyArray
| VHost (id : nat).

(** [_state]: the plain objects come from the literal of the constructor and
    from the [{}] that [set] creates, so each is reachable under one path
    only; the leaves are the stored values.  [set] with a plain object as
    value is outside the model. *)
Local Unset Elimination Schemes.
Inductive tree :=
| Leaf (v : value)
| Object (fields : list (string * tree)).
Local Set Elimination Schemes.

(** [!!x] *)
Definition to_boolean (x : tree) : bool :=
  match x with
  | Object _ => true
  | Leaf VUndefined | Leaf VNull | Leaf VNaN => false
  | Leaf (VBool b) => b
  | Leaf (VNumber q) => negb (Qeq_bool q 0)
  | Leaf (VString s) => negb (String.eqb s "")
  | Leaf VEmptyArray | Leaf (VHost _) => true
  end.

(** The property names a plain object inherits from [Object.prototype]. *)
Definition inherited (key : string) : bool :=
  existsb (String.eqb key)
    [ "constructor"; "__proto__"; "hasOwnProperty"; "isPrototypeOf";
      "propertyIsEnumerable"; "toLocaleString"; "toString"; "valueOf";
      "__defineGetter__"; "__defineSetter__"; "__lookupGetter__";
      "__lookupSetter__" ]%string.

(** The own property [key] of an object. *)
Fixpoint own (key : string) (fields : list (string * tree)) : option tree :=
  match fields with
  | [] => None
  | (k, x) :: rest => if String.eqb k key then Some x else own key rest
  end.

(** [obj[key] = x] on the own properties. *)
Fixpoint put (key : string) (x : tree) (fields : list (string * tree))
    : list (string * tree) :=
  match fields with
  | [] => [(key, x)]
  | (k, y) :: rest =>
      if String.eqb k key then (k, x) :: rest else (k, y) :: put key x rest
  end.

(** [path.split('.')]: never empty. *)
Fixpoint split (path : string) : list string :=
  match path with
  | EmptyString => [EmptyString]
  | String c rest =>
      if Ascii.eqb c "." then EmptyString :: split rest
      else match split rest with
           | part :: parts => String c part :: parts
           | [] => [String c EmptyString]
           end
  end.

(** What the setter of [__proto__] ignores: a value that is neither an
    object nor [null]. *)
Definition is_primitive (x : tree) : bool :=
  match x with
  | Leaf VUndefined | Leaf (VBool _) | Leaf (VNumber _) | Leaf VNaN | Leaf (VString _) => true
  | Leaf VNull | Leaf VEmptyArray | Leaf (VHost _) | Object _ => false
  end.

(** ** The engine

    [get] and [set] follow the keys of a path through whatever they find.
    What they find in a plain object of the container is in the tree; for
    every other receiver, an array, a host object, a primitive, a built-in
    that a plain object inherits, the answer is the engine's.  The container
    is described for every engine:

    - [World] is the state of the objects outside the tree, [initial] the one
      the container is constructed in;
    - [prototype_get w key] is what a plain object reads under a key that is
      not an own property, through [Object.prototype]: [undefined] for most
      keys, a built-in function for [toString], the prototype for
      [__proto__].  Apart from the accessor [__proto__], [Object.prototype]
      is taken to hold data properties only, so that an assignment to such a
      key creates the own property;
    - [engine_get w x key] is [x[key]] for a value [x] other than [undefined]
      and [null], and [engine_set w x key v] is [x[key] = v] in strict mode;
      [None] when the access throws;
    - [engine_new w] is the object a literal [{}] creates where the walk of
      [set] is outside the tree;
    - [engine_array w] gives the array of a [VEmptyArray] an identity, when
      the walk of [set] arrives at it and is about to write to it;
    - [engine_adopt w fields proto] takes over a plain object of the tree
      whose prototype is replaced by [proto]: from then on it is no plain
      object any more. *)
Class Engine := {
  World : Type;
  initial : World;
  prototype_get : World -> string -> value;
  engine_get : World -> value -> string -> option value;
  engine_set : World -> value -> string -> value -> option World;
  engine_new : World -> World * value;
  engine_array : World -> World * value;
  engine_adopt : World -> list (string * tree) -> tree -> World * value
}.

Section Container.
Context `{Engine}.

(** [obj?.[key]] *)
Definition read (w : World) (obj : tree) (key : string) : option tree :=
  match obj with
  | Leaf VUndefined | Leaf VNull => Some (Leaf VUndefined)
  | Leaf x => Leaf <$> engine_get w x key
  | Object fields => Some (default (Leaf (prototype_get w key)) (own key fields))
  end.

(** [keys.reduce((obj, key) => obj?.[key], root)] *)
Definition get_keys (w : World) (keys : list string) (root : tree) : option tree :=
  foldl (fun obj key => obj ≫= fun o => read w o key) (Some root) keys.

(** [x[key]] without the [?.]: [undefined] and [null] have no properties,
    the read throws. *)
Definition property (w : World) (x : value) (key : string) : option value :=
  match x with
  | VUndefined | VNull => None
  | _ => engine_get w x key
  end.

(** The body of [set] from a receiver outside the tree: the walk over
    [keys], which assigns [{}] where it reads a falsy value and reads the
    property again, and the assignment of [lastKey].  The result is the world
    after the call and [oldValue]. *)
Fixpoint engine_walk (keys : list string) (lastKey : string) (v : value) (x : value)
    (w : World) : option (World * value) :=
  match keys with
  | [] =>
      oldValue ← property w x lastKey;
      w' ← engine_set w x lastKey v;
      Some (w', oldValue)
  | key :: rest =>
      child ← property w x key;
      if to_boolean (Leaf child) then engine_walk rest lastKey v child w
      else
        let '(w1, fresh) := engine_new w in
        w2 ← engine_set w1 x key fresh;
        child' ← property w2 x key;
        engine_walk rest lastKey v child' w2
  end.

(** [obj[key] = x] on a plain object: an own property takes the value, a
    new one is created.  Under [__proto__], when it is no own property, the
    assignment goes to the setter the object inherits, which ignores a
    primitive and otherwise makes [x] the prototype of the object. *)
Definition store (w : World) (fields : list (string * tree)) (key : string) (x : tree)
    : tree * World :=
  match own key fields with
  | Some _ => (Object (put key x fields), w)
  | None =>
      if String.eqb key "__proto__" then
        if is_primitive x then (Object fields, w)
        else let '(w', o) := engine_adopt w fields x in (Leaf o, w')
      else (Object (put key x fields), w)
  end.

(** The body of [set] on the keys of the path, [keys] being the keys
    without the last ([keys.pop()]): the walk, which assigns [{}] where it
    reads a falsy value, and the assignment of [lastKey].  The result is the
    root after the call, the world after it and [oldValue]; [None] when an
    access throws, as a read of a property of [undefined] does. *)
Fixpoint assign (keys : list string) (lastKey : string) (v : value) (obj : tree)
    (w : World) : option (tree * World * tree) :=
  match obj with
  | Leaf x =>
      let '(w1, x1) := match x with VEmptyArray => engine_array w | _ => (w, x) end in
      '(w2, oldValue) ← engine_walk keys lastKey v x1 w1;
      Some (Leaf x1, w2, Leaf oldValue)
  | Object fields =>
      match keys with
      | [] =>
          let oldValue := default (Leaf (prototype_get w lastKey)) (own lastKey fields) in
          let '(obj', w') := store w fields lastKey (Leaf v) in
          Some (obj', w', oldValue)
      | key :: rest =>
          let child := default (Leaf (prototype_get w key)) (own key fields) in
          let '(obj1, w1) :=
            if to_boolean child then (obj, w) else store w fields key (Object []) in
          match obj1 with
          | Object fields1 =>
              match own key fields1 with
              | Some child1 =>
                  '(child', w2, oldValue) ← assign rest lastKey v child1 w1;
                  Some (Object (put key child' fields1), w2, oldValue)
              | None =>
                  '(w2, oldValue) ← engine_walk rest lastKey v (prototype_get w1 key) w1;
                  Some (obj1, w2, Leaf oldValue)
              end
          | Leaf x1 =>
              child1 ← property w1 x1 key;
              '(w2, oldValue) ← engine_walk rest lastKey v child1 w1;
              Some (obj1, w2, Leaf oldValue)
          end
      end
  end.

(** A subscription object: its identity, the listener and the watched path
    ([None] for [null]). *)
Record Subscription := {
  sub_id : nat;
  listener : nat;
  watchPath : option string
}.

(** The container; [world] is the state of the objects outside [_state],
    and [allocated] counts the subscription objects created, to give each
    its identity. *)
Record t := {
  _state : tree;
  world : World;
  _listeners : list Subscription;
  allocated : nat
}.

(** A call [listener(path, newValue, oldValue)].  A listener that throws is
    caught; a listener that writes to the container is outside the model. *)
Record Notification := {
  to : nat;
  n_path : string;
  newValue : value;
  oldValue : tree
}.

(** [watchPath === null || path.startsWith(watchPath)] *)
Definition watches (path : string) (s : Subscription) : bool :=
  match watchPath s with
  | None => true
  | Some w => String.prefix w path
  end.

Definition _notifyListeners (st : t) (path : string) (newValue : value) (oldValue : tree)
    : list Notification :=
  (fun s => {| to := listener s; n_path := path;
               newValue := newValue; oldValue := oldValue |})
    <$> List.filter (watches path) (_listeners st).

Definition get (path : string) (st : t) : option tree :=
  get_keys (world st) (split path) (_state st).

Definition set (path : string) (v : value) (st : t) : option (t * list Notification) :=
  let keys := split path in
  match assign (removelast keys) (List.last keys EmptyString) v (_state st) (world st) with
  | Some (root, w, old) =>
      Some ({| _state := root; world := w; _listeners := _listeners st;
               allocated := allocated st |},
            _notifyListeners st path v old)
  | None => None
  end.

(** [update]: [Object.entries(updates).forEach(...)], the entries in order. *)
Fixpoint update (updates : list (string * value)) (st : t)
    : option (t * list Notification) :=
  match updates with
  | [] => Some (st, [])
  | (path, v) :: rest =>
      match set path v st with
      | Some (st1, calls) =>
          match update rest st1 with
          | Some (st2, calls') => Some (st2, calls ++ calls')
          | None => None
          end
      | None => None
      end
  end.

(** [subscribe]: the new container and the identity of the subscription
    that the returned function removes. *)
Definition subscribe (listener : nat) (watchPath : option string) (st : t) : t * nat :=
  ({| _state := _state st; world := world st;
      _listeners := _listeners st ++
        [ {| sub_id := allocated st; listener := listener; watchPath := watchPath |} ];
      allocated := S (allocated st) |},
   allocated st).

(** The function [subscribe] returns. *)
Definition unsubscribe (subscription : nat) (st : t) : t :=
  {| _state := _state st; world := world st;
     _listeners := List.filter (fun s => negb (Nat.eqb (sub_id s) subscription))
                     (_listeners st);
     allocated := allocated st |}.

(** [new EditorState()], with the defaults of [config.js]. *)
Definition new : t :=
  {| _state :=
       Object
         [ ("image", Object
              [ ("original", Object
                   [ ("dataURL", Leaf VNull); ("width", Leaf (VNumber 0));
                     ("height", Leaf (VNumber 0)); ("fileSize", Leaf (VNumber 0));
                     ("filename", Leaf (VString "image.png")) ]);
                ("current", Object
                   [ ("width", Leaf (VNumber 0)); ("height", Leaf (VNumber 0));
                     ("aspectRatio", Leaf (VNumber 1)); ("canvas", Leaf VNull) ]);
                ("cropper", Object
                   [ ("instance", Leaf VNull); ("isCropping", Leaf (VBool false));
                     ("aspectRatio", Leaf VNaN);
                     ("zoomableOption", Leaf (VBool true)) ]) ]);
           ("pdf", Object
              [ ("file", Leaf VNull); ("document", Leaf VNull);
                ("originalBytes", Leaf VNull); ("images", Leaf VEmptyArray);
                ("currentEditingIndex", Leaf VNull);
                ("currentPreviewIndex", Leaf (VNumber 0));
                ("mode", Leaf (VBool false)); ("previewBgMode", Leaf (VString "dark"));
                ("isPreviewComparing", Leaf (VBool false)) ]);
           ("ui", Object
              [ ("loading", Leaf (VBool false)); ("comparing", Leaf (VBool false));
                ("theme", Leaf (VString "dark"));
                ("useSystemTheme", Leaf (VBool false)) ]);
           ("editing", Object
              [ ("format", Leaf (VString "image/jpeg"));
                ("quality", Leaf (VNumber 0.92)) ]) ]%string;
     world := initial;
     _listeners := [];
     allocated := 0 |}.

(** The literals of [resetImageState] and [resetPdfState]. *)
Definition imageDefaults : list (string * value) :=
  [ ("image.original.dataURL", VNull); ("image.original.width", VNumber 0);
    ("image.original.height", VNumber 0); ("image.original.fileSize", VNumber 0);
    ("image.original.filename", VString "image.png");
    ("image.current.width", VNumber 0); ("image.current.height", VNumber 0);
    ("image.current.aspectRatio", VNumber 1); ("image.current.canvas", VNull);
    ("image.cropper.instance", VNull); ("image.cropper.isCropping", VBool false);
    ("image.cropper.aspectRatio", VNaN) ]%string.

Definition pdfDefaults : list (string * value) :=
  [ ("pdf.file", VNull); ("pdf.document", VNull); ("pdf.originalBytes", VNull);
    ("pdf.images", VEmptyArray); ("pdf.currentEditingIndex", VNull);
    ("pdf.currentPreviewIndex", VNumber 0); ("pdf.mode", VBool false) ]%string.

Definition resetImageState (st : t) : option (t * list Notification) :=
  update imageDefaults st.

Definition resetPdfState (st : t) : option (t * list Notification) :=
  update pdfDefaults st.

Definition reset (st : t) : option (t * list Notification) :=
  match resetImageState st with
  | Some (st1, calls1) =>
      match resetPdfState st1 with
      | Some (st2, calls2) =>
          match set "ui.comparing" (VBool false) st2 with
          | Some (st3, calls3) =>
              match set "ui.loading" (VBool false) st3 with
              | Some (st4, calls4) => Some (st4, calls1 ++ calls2 ++ calls3 ++ calls4)
              | None => None
              end
          | None => None
          end
      | None => None
      end
  | None => None
  end.

(** The accessor object [state] of [editor.js]: each property reads and
    writes one path of the container. *)
Definition accessors : list (string * string) :=
  [ ("originalImageDataURL", "image.original.dataURL");
    ("currentImageFilename", "image.original.filename");
    ("originalWidth", "image.original.width");
    ("originalHeight", "image.original.height");
    ("originalFileSize", "image.original.fileSize");
    ("currentWidth", "image.current.width");
    ("currentHeight", "image.current.height");
    ("currentAspectRatio", "image.current.aspectRatio");
    ("masterCanvas", "image.current.canvas");
    ("cropper", "image.cropper.instance");
    ("isCropping", "image.cropper.isCropping");
    ("currentAspectRatio_crop", "image.cropper.aspectRatio");
    ("originalZoomableOption", "image.cropper.zoomableOption");
    ("currentPdfFile", "pdf.file");
    ("pdfDocument", "pdf.document");
    ("pdfOriginalBytes", "pdf.originalBytes");
    ("pdfImages", "pdf.images");
    ("currentEditingImageIndex", "pdf.currentEditingIndex");
    ("currentPreviewIndex", "pdf.currentPreviewIndex");
    ("isPdfMode", "pdf.mode");
    ("previewBgMode", "pdf.previewBgMode");
    ("isPreviewComparing", "pdf.isPreviewComparing");
    ("isComparingImages", "ui.comparing") ]%string.

Definition accessorPath (property : string) : option string :=
  snd <$> List.find (fun entry => String.eqb (fst entry) property) accessors.

(** [state.property] and [state.property = v] *)
Definition state_get (property : string) (st : t) : option tree :=
  accessorPath property ≫= fun path => get path st.

Definition state_set (property : string) (v : value) (st : t) : option t :=
  accessorPath property ≫= fun path => fst <$> set path v st.

(** ** Vocabulary of the statements *)

(** Two key lists part at some key: neither leads through the other. *)
Fixpoint diverge (ks qs : list string) : bool :=
  match ks, qs with
  | k :: ks', q :: qs' => if String.eqb k q then diverge ks' qs' else true
  | _, _ => false
  end.

(** No key of the list is inherited by a plain object. *)
Definition clean (keys : list string) : bool := forallb (fun key => negb (inherited key)) keys.


(** Every path of the list parts from every later one. *)
Fixpoint later_diverge (paths : list string) : bool :=
  match paths with
  | [] => true
  | p :: rest =>
      forallb (fun p' => diverge (split p') (split p)) rest && later_diverge rest
  end.

(** The plain object the keys lead to from [obj], through own properties
    that are plain objects. *)
Fixpoint plainObjectAt (keys : list string) (obj : tree) : option (list (string * tree)) :=
  match obj with
  | Leaf _ => None
  | Object fields =>
      match keys with
      | [] => Some fields
      | key :: rest =>
          match own key fields with
          | Some child => plainObjectAt rest child
          | None => None
          end
      end
  end.

(** The walk of [set] on the path stays in the tree: the keys before the
    last lead from the root to a plain object through own properties that are
    plain objects, and the last key is not [__proto__]. *)
Definition direct (path : string) (st : t) : bool :=
  match plainObjectAt (removelast (split path)) (_state st) with
  | Some _ => negb (String.eqb (List.last (split path) EmptyString) "__proto__")
  | None => false
  end.

(** The paths [reset] leaves alone. *)
Definition keptByReset : list string :=
  [ "image.cropper.zoomableOption"; "pdf.previewBgMode"; "pdf.isPreviewComparing";
    "ui.theme"; "ui.useSystemTheme"; "editing.format"; "editing.quality" ]%string.

(** The calls the editor makes on the container through [state], and
    [reset]. *)
Inductive Call :=
| Assign (property : string) (v : value)
| Reset.

Definition call (c : Call) (st : t) : option t :=
  match c with
  | Assign property v => state_set property v st
  | Reset => fst <$> reset st
  end.

Definition run (calls : list Call) (st : t) : option t :=
  foldl (fun acc c => acc ≫= call c) (Some st) calls.

(** The objects of the literal of the constructor that hold the leaves. *)
Definition holders : list (list string) :=
  [ ["image"; "original"]; ["image"; "current"]; ["image"; "cropper"];
    ["pdf"]; ["ui"]; ["editing"] ]%string.

Definition is_object (x : option tree) : bool :=
  match x with
  | Some (Object _) => true
  | _ => false
  end.

(** The container still has the objects of the constructor. *)
Definition shaped (st : t) : bool :=
  forallb (fun keys => is_object (get_keys (world st) keys (_state st))) holders.

(** [h] leads to [keys]: it is a proper prefix. *)
Fixpoint leads (h keys : list string) : bool :=
  match h, keys with
  | [], _ :: _ => true
  | x :: h', y :: keys' => String.eqb x y && leads h' keys'
  | _, _ => false
  end.

(** A path of a leaf in one of the objects of the constructor: [set] on it
    walks through these objects only. *)
Definition settled (path : string) : bool :=
  let keys := split path in
  bool_decide (removelast keys ∈ holders) && clean keys
  && forallb (fun h => leads h keys || diverge keys h) holders.

(** The entries [reset] writes, in order. *)
Definition resetEntries : list (string * value) :=
  imageDefaults ++ pdfDefaults
  ++ [ ("ui.comparing", VBool false); ("ui.loading", VBool false) ]%string.

(** The assignments name properties of the accessor object. *)
Definition known (c : Call) : Prop :=
  match c with
  | Assign property _ => is_Some (accessorPath property)
  | Reset => True
  end.

(** Every subscription has an identity handed out before. *)
Definition ids_allocated (st : t) : Prop :=
  Forall (fun s => (sub_id s < allocated st)%nat) (_listeners st).

End Container.

(** ** An engine for the examples

    Its objects are ordinary objects with data properties of their own, and
    arrays, which keep [length] in step with their indices.  A plain object
    inherits the built-ins of [Object.prototype], which is the object 900,
    and what has been written to that object; a string has its [length] and
    its characters; what arrays, functions and primitives inherit from their
    prototypes is not part of this engine: a property that is no own property
    of theirs reads [undefined].  An object
    the engine has not heard of has no properties yet; the objects it creates
    are numbered from 1000, the examples use smaller numbers for the objects
    of the page.  A write to a primitive throws, the module being in strict
    mode. *)
Record ExObject := {
  ex_array : bool;
  ex_props : list (string * value)
}.

Record ExWorld := {
  ex_heap : gmap nat ExObject;
  ex_next : nat
}.

Fixpoint ex_own (key : string) (props : list (string * value)) : option value :=
  match props with
  | [] => None
  | (k, x) :: rest => if String.eqb k key then Some x else ex_own key rest
  end.

Fixpoint ex_put (key : string) (x : value) (props : list (string * value))
    : list (string * value) :=
  match props with
  | [] => [(key, x)]
  | (k, y) :: rest =>
      if String.eqb k key then (k, x) :: rest else (k, y) :: ex_put key x rest
  end.

Fixpoint ex_digits (s : string) (acc : nat) : option nat :=
  match s with
  | EmptyString => Some acc
  | String c rest =>
      let n := nat_of_ascii c in
      if ((48 <=? n) && (n <=? 57))%nat then ex_digits rest (10 * acc + (n - 48)) else None
  end.

(** The array index a key stands for. *)
Definition ex_index (key : string) : option nat :=
  match key with
  | EmptyString => None
  | _ => n ← ex_digits key 0; if String.eqb (pretty n) key then Some n else None
  end.

(** The length a value stands for in [array.length = v]; [None] where the
    assignment throws a [RangeError]. *)
Definition ex_length (v : value) : option nat :=
  match v with
  | VNumber q =>
      if (Z.pos (Qden q) =? 1)%Z && (0 <=? Qnum q)%Z then Some (Z.to_nat (Qnum q)) else None
  | VBool b => Some (if b then 1 else 0)%nat
  | VNull => Some 0%nat
  | VString s => ex_digits s 0
  | _ => None
  end.

Definition ex_object (w : ExWorld) (id : nat) : ExObject :=
  default {| ex_array := false; ex_props := [] |} (ex_heap w !! id).

(** The built-ins a plain object inherits: [Object.prototype] itself under
    [__proto__], and its functions, numbered from 901. *)
Definition ex_builtin (key : string) : value :=
  if String.eqb key "__proto__" then VHost 900
  else
    match list_find (String.eqb key)
            [ "constructor"; "hasOwnProperty"; "isPrototypeOf"; "propertyIsEnumerable";
              "toLocaleString"; "toString"; "valueOf"; "__defineGetter__";
              "__defineSetter__"; "__lookupGetter__"; "__lookupSetter__" ]%string with
    | Some (i, _) => VHost (901 + i)
    | None => VUndefined
    end.

Definition ex_prototype_get (w : ExWorld) (key : string) : value :=
  default (ex_builtin key) (ex_own key (ex_props (ex_object w 900))).

Definition ex_get (w : ExWorld) (x : value) (key : string) : option value :=
  match x with
  | VHost id => Some (default VUndefined (ex_own key (ex_props (ex_object w id))))
  | VEmptyArray => Some (if String.eqb key "length" then VNumber 0 else VUndefined)
  | VString s =>
      if String.eqb key "length" then Some (VNumber (inject_Z (Z.of_nat (String.length s))))
      else
        match ex_index key ≫= fun i => String.get i s with
        | Some c => Some (VString (String c EmptyString))
        | None => Some VUndefined
        end
  | _ => Some VUndefined
  end.

Definition ex_array_length (props : list (string * value)) : nat :=
  match ex_own "length" props with
  | Some v => default 0%nat (ex_length v)
  | None => 0%nat
  end.

Definition ex_set (w : ExWorld) (x : value) (key : string) (v : value) : option ExWorld :=
  match x with
  | VHost id =>
      let o := ex_object w id in
      let updated props :=
        Some {| ex_heap := <[id := {| ex_array := ex_array o; ex_props := props |}]> (ex_heap w);
                ex_next := ex_next w |} in
      if ex_array o then
        if String.eqb key "length" then
          match ex_length v with
          | Some n =>
              updated
                (ex_put "length" (VNumber (inject_Z (Z.of_nat n)))
                   (List.filter
                      (fun entry => match ex_index (fst entry) with
                                    | Some i => (i <? n)%nat
                                    | None => true
                                    end)
                      (ex_props o)))
          | None => None
          end
        else
          match ex_index key with
          | Some i =>
              let props := ex_put key v (ex_props o) in
              if (ex_array_length props <=? i)%nat
              then updated (ex_put "length" (VNumber (inject_Z (Z.of_nat (S i)))) props)
              else updated props
          | None => updated (ex_put key v (ex_props o))
          end
      else updated (ex_put key v (ex_props o))
  | _ => None
  end.

Definition ex_allocate (o : ExObject) (w : ExWorld) : ExWorld * value :=
  ({| ex_heap := <[ex_next w := o]> (ex_heap w); ex_next := S (ex_next w) |},
   VHost (ex_next w)).

Definition ex_new_array : ExObject :=
  {| ex_array := true; ex_props := [("length"%string, VNumber 0)] |}.

(** A tree that the engine takes over: its plain objects become objects of
    the engine. *)
Fixpoint ex_export (x : tree) (w : ExWorld) : ExWorld * value :=
  match x with
  | Leaf VEmptyArray => ex_allocate ex_new_array w
  | Leaf v => (w, v)
  | Object fields =>
      let '(w', props) :=
        (fix export_fields (fields : list (string * tree)) (w : ExWorld)
           : ExWorld * list (string * value) :=
           match fields with
           | [] => (w, [])
           | (k, child) :: rest =>
               let '(w1, v) := ex_export child w in
               let '(w2, props) := export_fields rest w1 in
               (w2, (k, v) :: props)
           end) fields w in
      ex_allocate {| ex_array := false; ex_props := props |} w'
  end.

Definition ex_engine : Engine :=
  {| World := ExWorld;
     initial := {| ex_heap := ∅; ex_next := 1000 |};
     prototype_get := ex_prototype_get;
     engine_get := ex_get;
     engine_set := ex_set;
     engine_new := ex_allocate {| ex_array := false; ex_props := [] |};
     engine_array := ex_allocate ex_new_array;
     engine_adopt := fun w fields proto => ex_export (Object fields) w |}.

End EditorState.

(** * The editor's updates of the image records *)
Module Edit.
Import Save.

Local Open Scope Q_scope.

(** The assignments by which the editor stores a result in a record, the
    same after an edit, in the bulk optimization and in the preview:
    [optimizedDataURL], [optimizedSize], [isOptimized], [width], [height].
    ([previewQuality] is read by none of the code modelled here.) *)
Definition storeOptimized (optimizedDataURL : string) (optimizedSize : nat)
    (width height : num) (img : Img.t) : Img.t :=
  {| Img.index := Img.index img; Img.dataURL := Img.dataURL img;
     Img.originalSize := Img.originalSize img;
     Img.width := width; Img.height := height;
     Img.pageNum := Img.pageNum img; Img.imageName := Img.imageName img;
     Img.isOptimized := true; Img.optimizedDataURL := Some optimizedDataURL;
     Img.optimizedSize := optimizedSize |}.

(** [masterCanvas]: its size, and what [toDataURL] and
    [getBlobSizeFromDataURL] give for it, [None] when one of them throws. *)
Record Edited := {
  canvas_width : num;
  canvas_height : num;
  encoded : option (string * nat)
}.

(** What the handlers of the gallery share through [state]: the array
    [pdfImages], the name of [currentPdfFile], [currentEditingImageIndex] and
    [masterCanvas]; [None] stands for [null]. *)
Module Session.
Record t := mk {
  pdfImages : list Memory.PdfImage;
  currentPdfFile : option string;
  currentEditingImageIndex : option Z;
  masterCanvas : option Edited
}.
End Session.

(** The assignments to [state.pdfImages[index]]: without a record at the
    index the first of them throws and nothing is stored. *)
Definition storeAt (index : Z) (optimizedDataURL : string) (optimizedSize : nat)
    (width height : num) (pdfImages : list Memory.PdfImage) : list Memory.PdfImage :=
  if (index <? 0)%Z then pdfImages
  else
    match pdfImages !! Z.to_nat index with
    | Some img =>
        <[Z.to_nat index :=
            {| Memory.record :=
                 storeOptimized optimizedDataURL optimizedSize width height
                   (Memory.record img);
               Memory.tempPreviewDataURL := Memory.tempPreviewDataURL img |}]> pdfImages
    | None => pdfImages
    end.

(** The first part of the back-to-gallery handler,
    [if (state.currentEditingImageIndex !== null && state.masterCanvas)]: the
    canvas is encoded and the result stored in the record that was edited;
    an exception on the way is caught and leaves the records as they are. *)
Definition saveEdit (s : Session.t) : list Memory.PdfImage :=
  match Session.currentEditingImageIndex s, Session.masterCanvas s with
  | Some index, Some canvas =>
      match encoded canvas with
      | Some (optimizedDataURL, optimizedSize) =>
          storeAt index optimizedDataURL optimizedSize
            (canvas_width canvas) (canvas_height canvas) (Session.pdfImages s)
      | None => Session.pdfImages s
      end
  | _, _ => Session.pdfImages s
  end.

(** [clearAll], as far as the session goes: [masterCanvas] is set to [null]
    before anything disposes of it, [cleanupPdfImages] revokes the URLs of
    the records and empties the array in place, the file is forgotten and the
    index set to -1.  (The elements of the page, the cropper and the history
    manager, which [clearAll] resets as well, are left out.) *)
Definition clearAll (s : Session.t) : Session.t * list Memory.Effect :=
  let '(pdfImages, effects) := Memory.cleanupPdfImages (Session.pdfImages s) in
  ({| Session.pdfImages := pdfImages; Session.currentPdfFile := None;
      Session.currentEditingImageIndex := Some (-1)%Z; Session.masterCanvas := None |},
   effects).

(** The handler of the back-to-gallery button: the edit is stored, the index
    is set to [null], [clearAll()] runs, and the last statement shows
    [state.currentPdfFile.name].  The third component is that name; it is
    [None] when the file is [null] and reading its name throws, which ends
    the handler. *)
Definition backToGallery (s : Session.t)
    : Session.t * list Memory.Effect * option string :=
  let edited :=
    {| Session.pdfImages := saveEdit s; Session.currentPdfFile := Session.currentPdfFile s;
       Session.currentEditingImageIndex := None;
       Session.masterCanvas := Session.masterCanvas s |} in
  let '(cleared, effects) := clearAll edited in
  (cleared, effects, Session.currentPdfFile cleared).

(** What the optimization of one record yields: the data URL, its size, and
    the size of the canvas when one was used ([None] when the advanced
    compression delivered); the whole is [None] when a step threw. *)
Definition Optimizer := Img.t -> option (string * nat * option (num * num)).

(** The loop of the bulk optimization: an exception leaves the loop with the
    records before it updated. *)
Fixpoint applyBulkOptimization (optimize : Optimizer) (pdfImages : list Img.t)
    : list Img.t :=
  match pdfImages with
  | [] => []
  | img :: rest =>
      match optimize img with
      | Some (optimizedDataURL, optimizedSize, canvas) =>
          let '(imgWidth, imgHeight) := default (Img.width img, Img.height img) canvas in
          storeOptimized optimizedDataURL optimizedSize imgWidth imgHeight img
          :: applyBulkOptimization optimize rest
      | None => img :: rest
      end
  end.

(** ** Vocabulary of the statements *)

(** Two records that the matching pass cannot tell apart. *)
Definition same_cell (a b : Img.t) : Prop :=
  Img.pageNum b = Img.pageNum a /\ Img.index b = Img.index a /\
  Img.width b == Img.width a /\ Img.height b == Img.height a.

(** [b] is [a], or [a] with a result stored under a size equal to its own. *)
Definition restored (a b : Img.t) : Prop :=
  b = a \/
  exists url size width height,
    b = storeOptimized url size width height a /\
    width == Img.width a /\ height == Img.height a.

(** Two replacements for the same entry, with records related by [R]. *)
Definition same_entry (R : Img.t -> Img.t -> Prop) (r r' : Repl.t) : Prop :=
  Repl.pageNum r' = Repl.pageNum r /\ Repl.xObjKeyName r' = Repl.xObjKeyName r /\
  Repl.xObjRef r' = Repl.xObjRef r /\ Repl.width r' = Repl.width r /\
  Repl.height r' = Repl.height r /\ R (Repl.optimizedImg r) (Repl.optimizedImg r').

(** An optimizer whose canvases have the size of the record. *)
Definition keeps_size (optimize : Optimizer) : Prop :=
  forall img url size width height,
    optimize img = Some (url, size, Some (width, height)) ->
    width == Img.width img /\ height == Img.height img.

(** An optimizer for the examples: JPEG data, no canvas. *)
Definition ex_optimize : Optimizer :=
  fun img => Some ("data:image/jpeg;base64,CCCC"%string, 2%nat, None).

(** Two plans that pair the same entries with related records. *)
Definition plan_related (R : Img.t -> Img.t -> Prop) (p p' : Plan) : Prop :=
  matchedImages p' = matchedImages p /\
  Forall2 (same_entry R) (replacements p) (replacements p').

(** A session for the examples: the second of two records, whose optimized
    data is held under a blob: URL, is being edited and has been cropped to
    40 x 40. *)
Definition ex_session : Session.t :=
  {| Session.pdfImages :=
       [ {| Memory.record :=
              Img.mk 0 "data:image/png;base64,AAAA" 3 50 50 1 "page-1-Im2" false None 0;
            Memory.tempPreviewDataURL := Some "blob:preview-1"%string |};
         {| Memory.record :=
              Img.mk 1 "data:image/png;base64,BBBB" 3 200 100 1 "page-1-Im1" true
                (Some "blob:optimized-1"%string) 4;
            Memory.tempPreviewDataURL := None |} ];
     Session.currentPdfFile := Some "scan.pdf"%string;
     Session.currentEditingImageIndex := Some 1%Z;
     Session.masterCanvas :=
       Some {| canvas_width := 40; canvas_height := 40;
               encoded := Some ("data:image/png;base64,DDDD"%string, 2%nat) |} |}.

End Edit.

(** * Properties of the extraction scan *)
Module ExtractFacts.
Import Extract.

Local Open Scope Q_scope.

Lemma gtb_true x y : gtb x y = true <-> (y < x)%Q.
Proof.
  unfold gtb. rewrite negb_true_iff, <- not_true_iff_false, Qle_bool_iff.
  split; [apply Qnot_le_lt | apply Qlt_not_le].
Qed.

Lemma gtb_false x y : gtb x y = false <-> (x <= y)%Q.
Proof. unfold gtb. rewrite negb_false_iff. apply Qle_bool_iff. Qed.

(** ** The scan, step by step *)

Lemma scan_app pg ops1 ops2 st :
  scan pg (ops1 ++ ops2) st = scan pg ops2 (scan pg ops1 st).
Proof. revert st. induction ops1 as [|op ops1 IH]; intros st; simpl; [done | apply IH]. Qed.

Lemma initPage_inv images k : tracker_inv (initPage images k).
Proof. by exists []. Qed.

Lemma do_shadingFill_trackers pg st : same_trackers st (fst (do_shadingFill pg st)).
Proof.
  unfold do_shadingFill.
  destruct (currentClipBounds st) as [cb|] eqn:Hcb; [|done].
  destruct (shadingRegion pg cb (currentTransform st)) as [[[x y] w] h].
  destruct (gtb w 1 && gtb h 1); [|done].
  destruct (cropPage pg x y w h) as [url|]; [|done].
  by destruct (estimateDataURLSize url).
Qed.

Lemma do_paint_trackers pg kind arg0 arg1 st :
  same_trackers st (fst (do_paint pg kind arg0 arg1 st)) /\
  shadingIndex (fst (do_paint pg kind arg0 arg1 st)) = shadingIndex st.
Proof.
  unfold do_paint, extractBitmap, extractForm, same_trackers.
  repeat (match goal with
          | |- context [if ?b then _ else _] => destruct b
          | |- context [match ?x with _ => _ end] => destruct x
          end; simpl; try done).
Qed.

Lemma step_inv pg op st : tracker_inv st -> tracker_inv (fst (step pg op st)).
Proof.
  intros [below Hst]. unfold tracker_inv. destruct op; simpl; try (by exists below).
  - by eexists.
  - unfold do_restore. rewrite Hst.
    destruct below as [|top below'];
      (destruct (clippingStack _); simpl; [by eexists | by eexists]).
  - unfold do_transform. rewrite Hst. simpl. by eexists.
  - unfold do_constructPath.
    destruct pathData as [[|? [|? [|? [|? ?]]]]|]; by exists below.
  - destruct (do_shadingFill_trackers pg st) as (-> & -> & _). by exists below.
  - destruct (do_paint_trackers pg XObject arg0 JUndefined st) as [(-> & -> & _) _].
    by exists below.
  - destruct (do_paint_trackers pg Inline arg0 JUndefined st) as [(-> & -> & _) _].
    by exists below.
  - destruct (do_paint_trackers pg FormXObject arg0 arg1 st) as [(-> & -> & _) _].
    by exists below.
Qed.

Lemma scan_inv pg ops st : tracker_inv st -> tracker_inv (scan pg ops st).
Proof.
  revert st. induction ops as [|op ops IH]; intros st H; simpl; [done |].
  apply IH, step_inv, H.
Qed.

Lemma restore_after_save st : tracker_inv st -> do_restore (do_save st) = st.
Proof. intros [below H]. destruct st; simpl in *. by subst. Qed.

Lemma do_save_inv st : tracker_inv st -> tracker_inv (do_save st).
Proof. intros _. by eexists. Qed.

Lemma repeat_snoc {A} (x : A) n : repeat x (S n) = repeat x n ++ [x].
Proof. induction n as [|n IH]; [done |]. simpl in *. by rewrite <- IH. Qed.

Lemma saves_then_restores pg N st :
  tracker_inv st -> scan pg (repeat save N ++ repeat restore N) st = st.
Proof.
  revert st. induction N as [|N IH]; intros st H; [done |].
  rewrite (repeat_snoc restore), app_assoc. cbn [repeat app scan step fst].
  rewrite scan_app, (IH _ (do_save_inv _ H)). simpl.
  by apply restore_after_save.
Qed.

(** ** Transform composition *)

(** C1: a [transform] operator with arguments (a,b,c,d,e,f) replaces the
    current matrix (a0,b0,c0,d0,e0,f0), which is the top of the stack, by
    (a*a0+b*c0, a*b0+b*d0, c*a0+d*c0, c*b0+d*d0, e*a0+f*c0+e0, e*b0+f*d0+f0);
    and two operators A = (a,...,f) then B = (a',...,f') from the identity
    leave, component for component, the product of B onto A in that order,
    which is also what the single combined operator leaves. *)
Theorem transform_multiplies_top pg st (a b c d e f a0 b0 c0 d0 e0 f0 : num) below :
  currentTransform st = Mat a0 b0 c0 d0 e0 f0 ->
  transformStack st = Mat a0 b0 c0 d0 e0 f0 :: below ->
  let new := Mat (a * a0 + b * c0) (a * b0 + b * d0)
                 (c * a0 + d * c0) (c * b0 + d * d0)
                 (e * a0 + f * c0 + e0) (e * b0 + f * d0 + f0) in
  (currentTransform (fst (step pg (transform a b c d e f) st)) = new /\
   transformStack (fst (step pg (transform a b c d e f) st)) = new :: below) /\
  forall (a' b' c' d' e' f' : num) images k,
    let combined := Mat (a' * a + b' * c) (a' * b + b' * d)
                        (c' * a + d' * c) (c' * b + d' * d)
                        (e' * a + f' * c + e) (e' * b + f' * d + f) in
    let st2 := scan pg [transform a b c d e f; transform a' b' c' d' e' f']
                 (initPage images k) in
    Meq (currentTransform st2) combined /\
    (exists top, transformStack st2 = [top] /\ Meq top combined) /\
    Meq (currentTransform st2)
        (currentTransform
           (scan pg [transform (m_a combined) (m_b combined) (m_c combined)
                       (m_d combined) (m_e combined) (m_f combined)]
              (initPage images k))).
Proof.
  intros Hcur Hstack new. split.
  - simpl. unfold do_transform. rewrite Hcur, Hstack. by simpl.
  - intros a' b' c' d' e' f' images k combined st2.
    split; [|split].
    + unfold Meq; simpl. repeat split; ring.
    + eexists. split; [reflexivity |]. unfold Meq; simpl. repeat split; ring.
    + unfold Meq; simpl. repeat split; ring.
Qed.

Lemma transform_multiplies_top_witness :
  currentTransform (fst (step ex_page (transform 0 1 (-1) 0 5 7)
                           (scan ex_page [save; transform 2 0 0 2 1 1] (initPage [] 0))))
  = Mat 0 2 (-2) 0 11 15.
Proof.
  pose proof (transform_multiplies_top ex_page
                (scan ex_page [save; transform 2 0 0 2 1 1] (initPage [] 0))
                0 1 (-1) 0 5 7 (2 * 1 + 0 * 0) (2 * 0 + 0 * 1) (0 * 1 + 2 * 0)
                (0 * 0 + 2 * 1) (1 * 1 + 1 * 0 + 0) (1 * 0 + 1 * 1 + 0)
                [identity] eq_refl eq_refl) as [[H _] _].
  exact H.
Defined.

(** ** Stack balance *)

(** C3: from a tracker state whose current transform is the top of its
    stack (every state the scan reaches), N [save] operators followed by N
    [restore] operators give back the very same state, so the same top matrix
    and the same clip bounds; no operator sequence empties the transform
    stack, and a [restore] at depth 1 leaves the stack as it is. *)
Theorem save_restore_balanced pg st N :
  tracker_inv st ->
  scan pg (repeat save N ++ repeat restore N) st = st /\
  (forall ops, (1 <= length (transformStack (scan pg ops st)))%nat) /\
  (length (transformStack st) = 1%nat ->
   transformStack (fst (step pg restore st)) = transformStack st) /\
  (forall images k ops, tracker_inv (scan pg ops (initPage images k))).
Proof.
  intros H. split; [by apply saves_then_restores |]. split; [|split].
  - intros ops. destruct (scan_inv pg ops st H) as [below ->]. simpl. lia.
  - intros Hlen. destruct st as [? ? ? stack ? clips ? ? ?]; simpl in *.
    unfold do_restore; simpl.
    destruct stack as [|m [|m' stack]]; simplify_eq/=; by destruct clips.
  - intros images k ops. apply scan_inv, initPage_inv.
Qed.

Lemma save_restore_balanced_witness :
  scan ex_page (repeat save 2 ++ repeat restore 2)
    (scan ex_page [transform 2 0 0 2 1 1; constructPath [] (Some [0; 0; 4; 4])]
       (initPage [] 0))
  = scan ex_page [transform 2 0 0 2 1 1; constructPath [] (Some [0; 0; 4; 4])]
      (initPage [] 0).
Proof.
  refine (proj1 (save_restore_balanced ex_page _ 2 _)).
  eexists. reflexivity.
Defined.

(** ** Path construction *)

(** C10: a path-construction operator whose coordinate array is absent or
    has fewer than four entries changes nothing: the clip bounds of an earlier
    path stay current, and the operators that follow, [clip] and
    [shadingFill] among them, see the state they would see without it. *)
Theorem short_path_keeps_clip pg st pathOps pathData :
  match pathData with
  | Some coords => (length coords < 4)%nat
  | None => True
  end ->
  step pg (constructPath pathOps pathData) st = (st, Tracked) /\
  currentClipBounds (fst (step pg (constructPath pathOps pathData) st))
  = currentClipBounds st /\
  step pg shadingFill (fst (step pg (constructPath pathOps pathData) st))
  = step pg shadingFill st /\
  forall rest,
    scan pg (constructPath pathOps pathData :: rest) st = scan pg rest st /\
    outcomes pg (constructPath pathOps pathData :: rest) st
    = Tracked :: outcomes pg rest st.
Proof.
  intros Hshort.
  assert (Hstep : step pg (constructPath pathOps pathData) st = (st, Tracked)).
  { simpl. unfold do_constructPath.
    destruct pathData as [[|x0 [|y0 [|x1 [|y1 rest]]]]|]; simpl in Hshort;
      try done; lia. }
  split; [done |]. simpl in *. injection Hstep as ->. done.
Qed.

Lemma short_path_keeps_clip_witness :
  currentClipBounds
    (scan ex_page [constructPath [] (Some [0; 0; 4; 4]); constructPath [] (Some [9; 9; 9])]
       (initPage [] 0))
  = Some {| minX := 0; minY := 0; maxX := 4; maxY := 4 |}.
Proof.
  cbn [scan].
  rewrite (proj1 (short_path_keeps_clip ex_page _ [] (Some [9; 9; 9]) ltac:(simpl; lia))).
  reflexivity.
Defined.

(** ** The dependency name and the names that are skipped *)

Lemma step_paint pg op kind arg0 arg1 st :
  paint_args op = Some (kind, arg0, arg1) -> step pg op st = do_paint pg kind arg0 arg1 st.
Proof. destruct op; simpl; intros; by simplify_eq. Qed.

Lemma step_lastDependencyName pg op st :
  lastDependencyName (fst (step pg op st))
  = match op with dependency v => v | _ => lastDependencyName st end.
Proof.
  destruct op; simpl; try done.
  - unfold do_restore. destruct (transformStack st) as [|? [|? ?]];
      by destruct (clippingStack _).
  - unfold do_constructPath.
    by destruct pathData as [[|? [|? [|? [|? ?]]]]|].
  - apply do_shadingFill_trackers.
  - apply do_paint_trackers.
  - apply do_paint_trackers.
  - apply do_paint_trackers.
Qed.

Lemma scan_lastDependencyName pg ops st :
  lastDependencyName (scan pg ops st) = lastDependency ops (lastDependencyName st).
Proof.
  revert st. induction ops as [|op ops IH]; intros st; [done |].
  cbn [scan]. rewrite IH, step_lastDependencyName. by destruct op.
Qed.

Lemma not_a_name_invalid v :
  is_string v = false -> exposes_name v = false -> invalidImageName v = true.
Proof.
  unfold invalidImageName.
  destruct v as [| |z|s|r [nm|]]; simpl; try done.
  intros _ _. by destruct (Z.eqb z 0).
Qed.

Lemma do_paint_invalid pg kind arg0 arg1 st :
  invalidImageName (actualImageName kind arg0 arg1 st) = true ->
  do_paint pg kind arg0 arg1 st = (st, Skipped).
Proof. unfold do_paint. by intros ->. Qed.

(** C7: the scan keeps the name argument of the latest [dependency]
    operator; a form-paint operator whose own name argument is [null] or
    missing is handled under that name: the object of that name is looked up
    on the page and, when it has a decoded bitmap, pushed as the record
    page-n-name of the bitmap's size, otherwise copied out of the page canvas
    as the record page-n-form-name of the transformed size, and the name is
    marked extracted; and a paint operator whose resolved name is neither a
    string nor an object with a [name] property is skipped, the state is
    untouched and the scan goes on with the rest. *)
Theorem dependency_name_fallback pg st :
  (forall v, lastDependencyName (fst (step pg (dependency v) st)) = v) /\
  (forall ops,
     lastDependencyName (scan pg ops st) = lastDependency ops (lastDependencyName st)) /\
  (forall arg0 arg1, arg1 = JNull \/ arg1 = JUndefined ->
     actualImageName FormXObject arg0 arg1 st = lastDependencyName st /\
     step pg (paintFormXObjectBegin arg0 arg1) st
     = step pg (paintFormXObjectBegin arg0 (lastDependencyName st)) st) /\
  (forall arg0 arg1, arg1 = JNull \/ arg1 = JUndefined ->
     let name := lastDependencyName st in
     let st' := fst (step pg (paintFormXObjectBegin arg0 arg1) st) in
     invalidImageName name = false ->
     extracted name st = false ->
     objs_has pg name = true ->
     (forall obj dataURL size,
        has_bitmap (objs_get pg name) = Some obj ->
        drawBitmap pg obj = Some dataURL ->
        estimateDataURLSize dataURL = Some size ->
        snd (step pg (paintFormXObjectBegin arg0 arg1) st) = Emitted /\
        allImages st'
        = allImages st ++
          [Img.mk (imageIndex st) dataURL size (obj_width obj) (obj_height obj) (pageNum pg)
             ("page-" +:+ pretty (pageNum pg) +:+ "-" +:+ to_string name) false None 0] /\
        extractedObjects st' = extractedObjects st ++ [name]) /\
     (forall dataURL size,
        has_bitmap (objs_get pg name) = None ->
        let width := Qabs (m_a (currentTransform st) * fst (formSize (objs_get pg name))) in
        let height := Qabs (m_d (currentTransform st) * snd (formSize (objs_get pg name))) in
        1 < width -> 1 < height ->
        cropPage pg (m_e (currentTransform st) * viewport_scale)
          (viewport_height pg - m_f (currentTransform st) * viewport_scale - height)
          width height = Some dataURL ->
        estimateDataURLSize dataURL = Some size ->
        snd (step pg (paintFormXObjectBegin arg0 arg1) st) = Emitted /\
        allImages st'
        = allImages st ++
          [Img.mk (imageIndex st) dataURL size width height (pageNum pg)
             ("page-" +:+ pretty (pageNum pg) +:+ "-form-" +:+ to_string name) false None 0] /\
        extractedObjects st' = extractedObjects st ++ [name])) /\
  (forall op kind arg0 arg1,
     paint_args op = Some (kind, arg0, arg1) ->
     is_string (actualImageName kind arg0 arg1 st) = false ->
     exposes_name (actualImageName kind arg0 arg1 st) = false ->
     step pg op st = (st, Skipped) /\
     forall rest,
       scan pg (op :: rest) st = scan pg rest st /\
       outcomes pg (op :: rest) st = Skipped :: outcomes pg rest st).
Proof.
  split; [done |]. split; [intros ops; apply scan_lastDependencyName |].
  split; [|split].
  - intros arg0 arg1 Harg.
    assert (H : actualImageName FormXObject arg0 arg1 st = lastDependencyName st)
      by (by destruct Harg as [-> | ->]).
    split; [done |]. simpl. unfold do_paint. rewrite H.
    assert (H' : actualImageName FormXObject arg0 (lastDependencyName st) st
                 = lastDependencyName st)
      by (simpl; unfold js_or; by destruct (truthy _)).
    by rewrite H'.
  - intros arg0 arg1 Harg name st' Hvalid Hnew Hhas.
    assert (Hname : actualImageName FormXObject arg0 arg1 st = name)
      by (by destruct Harg as [-> | ->]).
    assert (Hstep : step pg (paintFormXObjectBegin arg0 arg1) st
                    = match has_bitmap (objs_get pg name) with
                      | Some obj => extractBitmap pg name obj st
                      | None => extractForm pg name st
                      end).
    { simpl. unfold do_paint. rewrite Hname, Hvalid.
      unfold extracted in Hnew. by rewrite Hnew, Hhas. }
    assert (Hadd : forall img,
               extractedObjects (add_extracted name (push_image img st))
               = extractedObjects st ++ [name]).
    { intros img. unfold add_extracted; simpl. unfold extracted in Hnew. by rewrite Hnew. }
    subst st'. rewrite Hstep. split.
    + intros obj dataURL size -> Hdraw Hsize. unfold extractBitmap.
      rewrite Hdraw, Hsize. cbn [fst snd]. by rewrite Hadd.
    + intros dataURL size -> width height Hwidth Hheight Hcrop Hsize.
      unfold extractForm, transformedSize. subst width height.
      destruct (formSize (objs_get pg name)) as [w h]. cbn [fst snd] in *.
      apply gtb_true in Hwidth, Hheight. rewrite Hwidth, Hheight. cbn [andb].
      rewrite Hcrop, Hsize. cbn [fst snd]. by rewrite Hadd.
  - intros op kind arg0 arg1 Hop Hstr Hname.
    assert (Hstep : step pg op st = (st, Skipped)).
    { rewrite (step_paint _ _ _ _ _ _ Hop).
      by apply do_paint_invalid, not_a_name_invalid. }
    split; [done |]. intros rest. simpl. by rewrite Hstep.
Qed.

Lemma dependency_name_fallback_witness :
  let st := scan ex_page [dependency (JString "Im1")] (initPage [] 0) in
  let st2 := scan ex_page [transform 2 0 0 2 5 5; dependency (JString "Fm1")] (initPage [] 0) in
  (actualImageName FormXObject JNull JNull st = JString "Im1" /\
   step ex_page (paintFormXObjectBegin JNull JNull) st
   = step ex_page (paintFormXObjectBegin JNull (JString "Im1")) st) /\
  (snd (step ex_page (paintFormXObjectBegin JNull JNull) st) = Emitted /\
   allImages (fst (step ex_page (paintFormXObjectBegin JNull JNull) st))
   = [] ++ [Img.mk 0 "data:image/png;base64,AAAA" 3 300 200 1
              ("page-" +:+ pretty 1%nat +:+ "-" +:+ "Im1") false None 0] /\
   extractedObjects (fst (step ex_page (paintFormXObjectBegin JNull JNull) st))
   = [] ++ [JString "Im1"]) /\
  (snd (step ex_page (paintFormXObjectBegin JNull JUndefined) st2) = Emitted /\
   allImages (fst (step ex_page (paintFormXObjectBegin JNull JUndefined) st2))
   = [] ++ [Img.mk 0 "data:image/png;base64,BBBBBBBB" 6 100 80 1
              ("page-" +:+ pretty 1%nat +:+ "-form-" +:+ "Fm1") false None 0] /\
   extractedObjects (fst (step ex_page (paintFormXObjectBegin JNull JUndefined) st2))
   = [] ++ [JString "Fm1"]) /\
  step ex_page (paintImageXObject (JNumber 5)) st = (st, Skipped).
Proof.
  intros st st2.
  destruct (dependency_name_fallback ex_page st) as (_ & _ & Hform & Hextract & Hskip).
  destruct (dependency_name_fallback ex_page st2) as (_ & _ & _ & Hextract2 & _).
  split; [apply (Hform JNull JNull); by left |].
  split; [|split].
  - destruct (Hextract JNull JNull (or_introl eq_refl) eq_refl eq_refl eq_refl)
      as [Hbitmap _].
    exact (Hbitmap ex_image "data:image/png;base64,AAAA"%string 3%nat
             eq_refl eq_refl eq_refl).
  - destruct (Hextract2 JNull JUndefined (or_intror eq_refl) eq_refl eq_refl eq_refl)
      as [_ Hcrop].
    refine (Hcrop "data:image/png;base64,BBBBBBBB"%string 6%nat eq_refl _ _ eq_refl eq_refl);
      by vm_compute.
  - by apply (Hskip (paintImageXObject (JNumber 5)) XObject (JNumber 5) JUndefined).
Defined.

(** ** Degenerate forms *)

(** C6 as stated fails: the bitmap branch comes before the form branch and
    its guard.  A form-paint operator whose name resolves to an object with a
    decoded bitmap, given in the operator or taken from the last
    [dependency], pushes a record of the bitmap's own size although the
    transformed width |a| * width is at most 1. *)
Lemma degenerate_form_with_bitmap_emitted :
  let st := scan ex_page [transform (1 # 100) 0 0 3 0 0] (initPage [] 0) in
  let op := paintFormXObjectBegin JNull (JString "Im1") in
  let record := Img.mk 0 "data:image/png;base64,AAAA" 3 300 200 1 "page-1-Im1"
                  false None 0 in
  Qabs (m_a (currentTransform st) * fst (formSize (objs_get ex_page (JString "Im1")))) <= 1 /\
  snd (step ex_page op st) = Emitted /\
  allImages (fst (step ex_page op st)) = [record] /\
  outcomes ex_page
    [transform (1 # 100) 0 0 3 0 0; dependency (JString "Im1");
     paintFormXObjectBegin JNull JNull] (initPage [] 0)
  = [Tracked; Tracked; Emitted] /\
  allImages
    (scan ex_page
       [transform (1 # 100) 0 0 3 0 0; dependency (JString "Im1");
        paintFormXObjectBegin JNull JNull] (initPage [] 0))
  = [record].
Proof. by vm_compute. Qed.

(** C6, amended: a form-paint operator whose resolved object has no decoded
    bitmap, so that the bitmap branch is not taken, and whose transformed
    width |a| * width or transformed height |d| * height is at most 1 pushes
    no record and raises nothing: the step is a skip that leaves the state as
    it was, and the scan goes on with the remaining operators from that very
    state. *)
Theorem degenerate_form_skipped pg st arg0 arg1 :
  let name := actualImageName FormXObject arg0 arg1 st in
  has_bitmap (objs_get pg name) = None ->
  let transformedWidth :=
    Qabs (m_a (currentTransform st) * fst (formSize (objs_get pg name))) in
  let transformedHeight :=
    Qabs (m_d (currentTransform st) * snd (formSize (objs_get pg name))) in
  transformedWidth <= 1 \/ transformedHeight <= 1 ->
  step pg (paintFormXObjectBegin arg0 arg1) st = (st, Skipped) /\
  forall rest,
    allImages (fst (step pg (paintFormXObjectBegin arg0 arg1) st)) = allImages st /\
    scan pg (paintFormXObjectBegin arg0 arg1 :: rest) st = scan pg rest st /\
    outcomes pg (paintFormXObjectBegin arg0 arg1 :: rest) st
    = Skipped :: outcomes pg rest st.
Proof.
  intros name Hbitmap tw th Hsmall.
  assert (Hstep : step pg (paintFormXObjectBegin arg0 arg1) st = (st, Skipped)).
  { simpl. unfold do_paint. fold name.
    destruct (invalidImageName name); [done |].
    destruct (existsb _ _); [done |].
    destruct (negb _); [done |].
    rewrite Hbitmap. unfold extractForm, transformedSize.
    subst tw th. destruct (formSize (objs_get pg name)) as [w h].
    cbn [fst snd] in Hsmall. cbv beta iota.
    assert (Hguard : gtb (Qabs (m_a (currentTransform st) * w)) 1
                     && gtb (Qabs (m_d (currentTransform st) * h)) 1 = false).
    { apply andb_false_iff. rewrite !gtb_false. exact Hsmall. }
    by rewrite Hguard. }
  split; [done |]. intros rest. simpl in *. by rewrite Hstep.
Qed.

Lemma degenerate_form_skipped_witness :
  let st := scan ex_page [transform (1 # 100) 0 0 3 0 0] (initPage [] 0) in
  step ex_page (paintFormXObjectBegin JNull (JString "Fm1")) st = (st, Skipped).
Proof.
  intros st.
  refine (proj1 (degenerate_form_skipped ex_page st JNull (JString "Fm1") eq_refl _)).
  left. by vm_compute.
Defined.

(** ** Shading fills *)

Lemma step_shadingIndex pg op st :
  shadingIndex (fst (step pg op st))
  = if is_shadingFill op && is_emitted (snd (step pg op st))
    then S (shadingIndex st) else shadingIndex st.
Proof.
  destruct op; simpl; try done.
  - unfold do_restore. destruct (transformStack st) as [|? [|? ?]];
      by destruct (clippingStack _).
  - unfold do_constructPath.
    by destruct pathData as [[|? [|? [|? [|? ?]]]]|].
  - unfold do_shadingFill.
    destruct (currentClipBounds st) as [cb|]; [|done].
    destruct (shadingRegion pg cb (currentTransform st)) as [[[x y] w] h].
    destruct (gtb w 1 && gtb h 1); [|done].
    destruct (cropPage pg x y w h) as [url|]; [|done].
    by destruct (estimateDataURLSize url).
  - apply do_paint_trackers.
  - apply do_paint_trackers.
  - apply do_paint_trackers.
Qed.

(** C5 as stated fails: with clip bounds active, a [shadingFill] whose
    region is not more than one pixel wide and high copies nothing and
    pushes no record. *)
Lemma shadingFill_with_clip_not_copied :
  let st := scan ex_page [constructPath [] (Some [3; 3; 3; 3])] (initPage [] 0) in
  currentClipBounds st = Some {| minX := 3; minY := 3; maxX := 3; maxY := 3 |} /\
  step ex_page shadingFill st = (st, Skipped) /\
  allImages (scan ex_page [constructPath [] (Some [3; 3; 3; 3]); shadingFill] (initPage [] 0))
  = [].
Proof. by vm_compute. Qed.

(** C5, amended: without current clip bounds a [shadingFill] is skipped and
    pushes no record.  With clip bounds, the two corners of the clip rectangle
    go through the current transform and into canvas pixels with the vertical
    flip; when the region is more than one pixel wide and high (and the
    canvas copy succeeds) it is copied out of the page render into exactly one
    new record named page-n-shading-k, k being the shading counter, which
    starts at 0 on each page and moves by one exactly when a shading is
    extracted; a region of width or height at most 1 is skipped. *)
Theorem shadingFill_extracts_clip_region pg st :
  (currentClipBounds st = None -> step pg shadingFill st = (st, Skipped)) /\
  (forall cb a b c d e f,
     currentClipBounds st = Some cb ->
     currentTransform st = Mat a b c d e f ->
     let x1 := minX cb * a + minY cb * c + e in
     let y1 := minX cb * b + minY cb * d + f in
     let x2 := maxX cb * a + maxY cb * c + e in
     let y2 := maxX cb * b + maxY cb * d + f in
     let canvasX := Qmin x1 x2 * 2 in
     let canvasY := viewport_height pg - Qmax y1 y2 * 2 in
     let width := Qabs (x2 - x1) * 2 in
     let height := Qabs (y2 - y1) * 2 in
     (width <= 1 \/ height <= 1 -> step pg shadingFill st = (st, Skipped)) /\
     (1 < width -> 1 < height ->
      forall dataURL size,
        cropPage pg canvasX canvasY width height = Some dataURL ->
        estimateDataURLSize dataURL = Some size ->
        exists st',
          step pg shadingFill st = (st', Emitted) /\
          allImages st' = allImages st ++
            [ {| Img.index := imageIndex st; Img.dataURL := dataURL;
                 Img.originalSize := size; Img.width := width; Img.height := height;
                 Img.pageNum := pageNum pg;
                 Img.imageName :=
                   "page-" +:+ pretty (pageNum pg) +:+ "-shading-"
                   +:+ pretty (shadingIndex st);
                 Img.isOptimized := false; Img.optimizedDataURL := None;
                 Img.optimizedSize := 0 |} ] /\
          shadingIndex st' = S (shadingIndex st))) /\
  (forall images k, shadingIndex (initPage images k) = 0%nat) /\
  (forall op,
     shadingIndex (fst (step pg op st))
     = if is_shadingFill op && is_emitted (snd (step pg op st))
       then S (shadingIndex st) else shadingIndex st).
Proof.
  split; [|split; [|split]].
  - intros Hnone. simpl. unfold do_shadingFill. by rewrite Hnone.
  - intros cb a b c d e f Hcb Hm x1 y1 x2 y2 canvasX canvasY width height.
    simpl. unfold do_shadingFill. rewrite Hcb, Hm.
    change (shadingRegion pg cb (Mat a b c d e f))
      with (canvasX, canvasY, width, height).
    cbv iota beta. split.
    + intros Hsmall.
      assert (Hguard : gtb width 1 && gtb height 1 = false)
        by (apply andb_false_iff; by rewrite !gtb_false).
      by rewrite Hguard.
    + intros Hw Hh dataURL size Hcrop Hsize.
      apply gtb_true in Hw, Hh. rewrite Hw, Hh, Hcrop, Hsize. simpl.
      eexists. split; [reflexivity |]. by split.
  - done.
  - intros op. apply step_shadingIndex.
Qed.

Lemma shadingFill_extracts_clip_region_witness :
  let st := scan ex_page [constructPath [] (Some [0; 0; 10; 20])] (initPage [] 0) in
  exists st',
    step ex_page shadingFill st = (st', Emitted) /\
    map Img.imageName (allImages st') = ["page-1-shading-0"%string] /\
    shadingIndex st' = 1%nat.
Proof.
  intros st.
  destruct (shadingFill_extracts_clip_region ex_page st) as (_ & H & _).
  destruct (H {| minX := 0; minY := 0; maxX := 10; maxY := 20 |} 1 0 0 1 0 0
              eq_refl eq_refl) as [_ Hbig].
  destruct (Hbig ltac:(by vm_compute) ltac:(by vm_compute)
              "data:image/png;base64,BBBBBBBB"%string 6%nat eq_refl eq_refl)
    as (st' & Hstep & Himgs & Hk).
  exists st'. split; [exact Hstep |]. split; [|exact Hk].
  rewrite Himgs. reflexivity.
Defined.

(** ** Deduplication *)

Lemma same_value_zero_sym x y : same_value_zero x y = same_value_zero y x.
Proof.
  destruct x, y; simpl; try done.
  - apply Z.eqb_sym.
  - apply eq_true_iff_eq. rewrite !String.eqb_eq. split; intros H; by symmetry.
  - apply Nat.eqb_sym.
Qed.

Lemma same_value_zero_trans x y z :
  same_value_zero x y = true -> same_value_zero y z = true -> same_value_zero x z = true.
Proof.
  destruct x, y, z; simpl; try done.
  - rewrite !Z.eqb_eq. congruence.
  - rewrite !String.eqb_eq. congruence.
  - rewrite !Nat.eqb_eq. congruence.
Qed.

Lemma extracted_same name name' st :
  same_value_zero name name' = true -> extracted name st = extracted name' st.
Proof.
  intros H. unfold extracted.
  induction (extractedObjects st) as [|x l IH]; [done |]. simpl. rewrite IH. f_equal.
  apply eq_true_iff_eq. split; intros Hx.
  - apply same_value_zero_trans with name; [by rewrite same_value_zero_sym | done].
  - by apply same_value_zero_trans with name'.
Qed.

Lemma extracted_add name n st :
  extracted name (add_extracted n st)
  = extracted name st || same_value_zero name n.
Proof.
  unfold extracted, add_extracted; simpl.
  destruct (existsb (same_value_zero n) (extractedObjects st)) eqn:Hn.
  - destruct (same_value_zero name n) eqn:Hname; [|by rewrite orb_false_r].
    rewrite orb_true_r. fold (extracted name st).
    by rewrite (extracted_same _ _ _ Hname).
  - rewrite existsb_app. simpl. by rewrite orb_false_r.
Qed.

(** What a paint operator does to the set of extracted names: nothing when
    it pushes no record, and it adds the painted name when it pushes one. *)
Lemma do_paint_extracted pg kind arg0 arg1 st :
  let name := actualImageName kind arg0 arg1 st in
  let res := do_paint pg kind arg0 arg1 st in
  (is_emitted (snd res) = false /\ extractedObjects (fst res) = extractedObjects st /\
   allImages (fst res) = allImages st) \/
  (snd res = Emitted /\ extracted name st = false /\
   extractedObjects (fst res) = extractedObjects st ++ [name] /\
   exists img, allImages (fst res) = allImages st ++ [img]).
Proof.
  intros name res. subst res. unfold do_paint. fold name. fold (extracted name st).
  destruct (invalidImageName name); [by left |].
  destruct (extracted name st) eqn:Hex; [by left |].
  destruct (negb _); [by left |].
  assert (Hadd : forall img,
             extractedObjects (add_extracted name (push_image img st))
             = extractedObjects st ++ [name]).
  { intros img. unfold add_extracted; simpl. fold (extracted name st). by rewrite Hex. }
  destruct (has_bitmap _) as [obj|].
  - unfold extractBitmap.
    destruct (drawBitmap pg obj) as [url|]; [|by left].
    destruct (estimateDataURLSize url) as [size|]; [|by left].
    right. cbn [fst snd]. split; [done |]. split; [done |].
    split; [apply Hadd | by eexists].
  - destruct kind; try by left.
    unfold extractForm.
    destruct (transformedSize _ _) as [tw th].
    destruct (gtb tw 1 && gtb th 1); [|by left].
    destruct (cropPage _ _ _ _ _) as [url|]; [|by left].
    destruct (estimateDataURLSize url) as [size|]; [|by left].
    right. cbn [fst snd]. split; [done |]. split; [done |].
    split; [apply Hadd | by eexists].
Qed.

Lemma do_shadingFill_extracted pg st :
  extractedObjects (fst (do_shadingFill pg st)) = extractedObjects st.
Proof.
  unfold do_shadingFill.
  destruct (currentClipBounds st) as [cb|]; [|done].
  destruct (shadingRegion pg cb (currentTransform st)) as [[[x y] w] h].
  destruct (gtb w 1 && gtb h 1); [|done].
  destruct (cropPage pg x y w h) as [url|]; [|done].
  by destruct (estimateDataURLSize url).
Qed.

Lemma step_extractedObjects pg op st :
  paint_args op = None ->
  extractedObjects (fst (step pg op st)) = extractedObjects st.
Proof.
  destruct op; simpl; try done; intros _.
  - unfold do_restore. destruct (transformStack st) as [|? [|? ?]];
      by destruct (clippingStack _).
  - unfold do_constructPath.
    by destruct pathData as [[|? [|? [|? [|? ?]]]]|].
  - apply do_shadingFill_extracted.
Qed.

(** A name that has been extracted stays extracted. *)
Lemma step_extracted_mono pg op name st :
  extracted name st = true -> extracted name (fst (step pg op st)) = true.
Proof.
  intros H. destruct (paint_args op) as [[[kind arg0] arg1]|] eqn:Hop.
  - rewrite (step_paint _ _ _ _ _ _ Hop).
    destruct (do_paint_extracted pg kind arg0 arg1 st)
      as [(_ & Heq & _) | (_ & _ & Heq & _)];
      unfold extracted in *; rewrite Heq; [done |].
    rewrite existsb_app, H. done.
  - unfold extracted in *. by rewrite step_extractedObjects.
Qed.

(** A paint of a name that has been extracted is skipped. *)
Lemma extracted_paint_skipped pg op n name st :
  paintedName op st = Some n -> same_value_zero n name = true ->
  extracted name st = true -> step pg op st = (st, Skipped).
Proof.
  unfold paintedName. intros Hop Hsame Hex.
  destruct (paint_args op) as [[[kind arg0] arg1]|] eqn:Hargs; [|done].
  simplify_eq. rewrite (step_paint _ _ _ _ _ _ Hargs). unfold do_paint.
  destruct (invalidImageName _); [done |].
  fold (extracted (actualImageName kind arg0 arg1 st) st).
  by rewrite (extracted_same _ _ _ Hsame), Hex.
Qed.

Lemma emitsFor_extracts pg name op st :
  emitsFor pg name op st = true ->
  extracted name st = false /\ extracted name (fst (step pg op st)) = true /\
  exists img, allImages (fst (step pg op st)) = allImages st ++ [img].
Proof.
  unfold emitsFor, paintedName.
  destruct (paint_args op) as [[[kind arg0] arg1]|] eqn:Hargs; [|done].
  rewrite (step_paint _ _ _ _ _ _ Hargs).
  intros [Hsame Hemit]%andb_true_iff.
  destruct (do_paint_extracted pg kind arg0 arg1 st)
    as [(Hno & _) | (_ & Hex & Heq & Himg)]; [congruence |].
  rewrite <- (extracted_same _ _ _ Hsame). split; [done |]. split; [|done].
  unfold extracted. rewrite Heq, existsb_app. simpl.
  rewrite (same_value_zero_sym name), Hsame. by rewrite orb_true_r.
Qed.

Lemma recordsFor_extracted pg name ops st :
  extracted name st = true -> recordsFor pg name ops st = 0%nat.
Proof.
  revert st. induction ops as [|op ops IH]; intros st Hex; [done |].
  cbn [recordsFor]. rewrite (IH _ (step_extracted_mono pg op name st Hex)).
  destruct (emitsFor pg name op st) eqn:Hemit; [|done].
  apply emitsFor_extracts in Hemit as [Hno _]. congruence.
Qed.

Lemma recordsFor_le_1 pg name ops st : (recordsFor pg name ops st <= 1)%nat.
Proof.
  revert st. induction ops as [|op ops IH]; intros st; cbn [recordsFor]; [lia |].
  destruct (emitsFor pg name op st) eqn:Hemit.
  - apply emitsFor_extracts in Hemit as (_ & Hex & _).
    rewrite (recordsFor_extracted _ _ _ _ Hex). lia.
  - specialize (IH (fst (step pg op st))). lia.
Qed.

(** A record is pushed exactly by the operators whose outcome is [Emitted]. *)
Lemma step_allImages pg op st :
  if is_emitted (snd (step pg op st))
  then exists img, allImages (fst (step pg op st)) = allImages st ++ [img]
  else allImages (fst (step pg op st)) = allImages st.
Proof.
  destruct (paint_args op) as [[[kind arg0] arg1]|] eqn:Hop.
  - rewrite (step_paint _ _ _ _ _ _ Hop).
    destruct (do_paint_extracted pg kind arg0 arg1 st)
      as [(-> & _ & Himgs) | (-> & _ & _ & Himgs)]; done.
  - destruct op; simpl in *; try done.
    + unfold do_restore. destruct (transformStack st) as [|? [|? ?]];
        by destruct (clippingStack _).
    + unfold do_constructPath.
      by destruct pathData as [[|? [|? [|? [|? ?]]]]|].
    + unfold do_shadingFill.
      destruct (currentClipBounds st) as [cb|]; [|done].
      destruct (shadingRegion pg cb (currentTransform st)) as [[[x y] w] h].
      destruct (gtb w 1 && gtb h 1); [|done].
      destruct (cropPage pg x y w h) as [url|]; [|done].
      destruct (estimateDataURLSize url); [by eexists | done].
Qed.

(** C4 as stated fails: a name painted twice, once directly and once
    through a form, whose object is not in the page's object table yields no
    record at all, not exactly one. *)
Lemma painted_twice_without_record :
  let ops := [paintImageXObject (JString "Im9");
              paintFormXObjectBegin JNull (JString "Im9")] in
  recordsFor ex_page (JString "Im9") ops (initPage [] 0) = 0%nat /\
  allImages (scan ex_page ops (initPage [] 0)) = [] /\
  outcomes ex_page ops (initPage [] 0) = [Skipped; Skipped].
Proof. by vm_compute. Qed.

(** C4, amended: the scan keeps a per-page set of extracted names, empty at
    the start of the page, to which a name is added when a record is pushed
    for it and from which nothing is removed.  For every operator sequence
    at most one record is pushed for a name: once an occurrence has produced a
    record, every later paint of that name is skipped and leaves the state
    untouched, so a sequence whose first paint of the name is extracted
    yields exactly one record for it. *)
Theorem at_most_one_record_per_name pg name ops st :
  (recordsFor pg name ops st <= 1)%nat /\
  (forall op rest,
     emitsFor pg name op st = true ->
     recordsFor pg name (op :: rest) st = 1%nat /\
     extracted name (fst (step pg op st)) = true) /\
  (extracted name st = true ->
   recordsFor pg name ops st = 0%nat /\
   forall op n,
     paintedName op st = Some n -> same_value_zero n name = true ->
     step pg op st = (st, Skipped)) /\
  (forall op, extracted name st = true -> extracted name (fst (step pg op st)) = true) /\
  (forall op,
     if is_emitted (snd (step pg op st))
     then exists img, allImages (fst (step pg op st)) = allImages st ++ [img]
     else allImages (fst (step pg op st)) = allImages st) /\
  (forall images k, extractedObjects (initPage images k) = []).
Proof.
  split; [apply recordsFor_le_1 |]. split; [|split; [|split; [|split]]].
  - intros op rest Hemit. cbn [recordsFor]. rewrite Hemit.
    apply emitsFor_extracts in Hemit as (_ & Hex & _).
    by rewrite (recordsFor_extracted _ _ _ _ Hex).
  - intros Hex. split; [by apply recordsFor_extracted |].
    intros op n Hop Hsame. by apply (extracted_paint_skipped pg op n name).
  - intros op. apply step_extracted_mono.
  - intros op. apply step_allImages.
  - done.
Qed.

Lemma at_most_one_record_per_name_witness :
  let ops := [paintImageXObject (JString "Im1");
              paintFormXObjectBegin JNull (JString "Im1")] in
  recordsFor ex_page (JString "Im1") ops (initPage [] 0) = 1%nat.
Proof.
  intros ops.
  destruct (at_most_one_record_per_name ex_page (JString "Im1") ops (initPage [] 0))
    as (_ & Hone & _).
  apply (Hone (paintImageXObject (JString "Im1"))
              [paintFormXObjectBegin JNull (JString "Im1")]).
  by vm_compute.
Defined.

End ExtractFacts.

(** * Properties of the PDF save *)
Module SaveFacts.
Import Save.

Local Open Scope Q_scope.

(** ** Grouping by page *)

Lemma groupByPage_fold (m : gmap nat (list Img.t)) images n :
  default [] (foldl (fun m img =>
                       <[Img.pageNum img := default [] (m !! Img.pageNum img) ++ [img]]> m)
                    m images !! n)
  = default [] (m !! n) ++ filter (fun img => Img.pageNum img = n) images.
Proof.
  revert m. induction images as [|img images IH]; intros m.
  - simpl. by rewrite app_nil_r.
  - cbn [foldl]. rewrite IH. rewrite filter_cons.
    destruct (decide (Img.pageNum img = n)) as [<- | Hne].
    + rewrite lookup_insert_eq. simpl. by rewrite <- app_assoc.
    + by rewrite lookup_insert_ne.
Qed.

(** The candidates of a page are the records with its page number, in the
    order of [pdfImages]. *)
Lemma groupByPage_lookup images n :
  default [] (groupByPage images !! n) = filter (fun img => Img.pageNum img = n) images.
Proof. unfold groupByPage. by rewrite groupByPage_fold, lookup_empty. Qed.

(** ** The first record that passes the test *)

Lemma find_first {A} (f : A -> bool) l x :
  List.find f l = Some x ->
  exists before after,
    l = before ++ x :: after /\ f x = true /\ Forall (fun y => f y = false) before.
Proof.
  induction l as [|y l IH]; [done |]. simpl.
  destruct (f y) eqn:Hy.
  - intros [= ->]. by exists [], l.
  - intros (before & after & -> & Hx & Hall)%IH.
    exists (y :: before), after. repeat split; [done |]. by constructor.
Qed.

Lemma find_nothing {A} (f : A -> bool) l :
  List.find f l = None -> Forall (fun y => f y = false) l.
Proof.
  induction l as [|y l IH]; [by constructor |]. simpl.
  destruct (f y) eqn:Hy; [done |]. intros H. constructor; auto.
Qed.

Lemma matches_true matched width height img :
  matches matched width height img = true <->
  (imgKey img ∉ matched) /\ Img.width img == width /\ Img.height img == height.
Proof.
  unfold matches. rewrite !andb_true_iff, negb_true_iff, bool_decide_eq_false.
  rewrite !Qeq_bool_iff. tauto.
Qed.

Lemma matches_false matched width height img :
  matches matched width height img = false -> passed_over matched width height img.
Proof.
  intros H. unfold passed_over.
  destruct (decide (imgKey img ∈ matched)) as [|Hnot]; [by left |].
  right. intros Hsize. apply not_true_iff_false in H. apply H, matches_true. tauto.
Qed.

(** The two ways the inner loop ends. *)
Lemma matchXObject_cases images pageNum key ref width height p :
  let candidates := filter (fun img => Img.pageNum img = pageNum) images in
  let p' := matchXObject (groupByPage images) pageNum key ref width height p in
  (exists before img after,
      candidates = before ++ img :: after /\
      Forall (passed_over (matchedImages p) width height) before /\
      (imgKey img ∉ matchedImages p) /\
      Img.width img == width /\ Img.height img == height /\
      replacements p' = replacements p ++ [Repl.mk pageNum key ref img width height] /\
      matchedImages p' = {[imgKey img]} ∪ matchedImages p) \/
  (Forall (passed_over (matchedImages p) width height) candidates /\ p' = p).
Proof.
  intros candidates p'. subst p'. unfold matchXObject.
  rewrite groupByPage_lookup. fold candidates.
  destruct (List.find _ candidates) as [img|] eqn:Hfind.
  - left. apply find_first in Hfind as (before & after & Hsplit & Himg & Hbefore).
    apply matches_true in Himg as (Hfree & Hw & Hh).
    exists before, img, after. repeat split; try done.
    eapply Forall_impl; [exact Hbefore |]. intros x. apply matches_false.
  - right. split; [|done].
    eapply Forall_impl; [by apply find_nothing |]. intros x. apply matches_false.
Qed.

(** ** The plan, entry by entry *)

Lemma emptyPlan_inv doc images : plan_inv doc images emptyPlan.
Proof. repeat split; simpl; constructor. Qed.

(** One entry either leaves the plan alone or appends one replacement for
    this very entry. *)
Lemma matchEntry_step doc images pageNum p key ref :
  plan_inv doc images p ->
  let p' := matchEntry doc (groupByPage images) pageNum p (key, ref) in
  plan_inv doc images p' /\
  (replacements p' = replacements p \/
   exists r, replacements p' = replacements p ++ [r] /\
             Repl.pageNum r = pageNum /\ Repl.xObjKeyName r = key /\
             Repl.xObjRef r = ref).
Proof.
  intros (Hused & Hnodup & Hsound) p'. subst p'. unfold matchEntry.
  destruct (imageXObjectSize doc ref) as [[[width|] [height|]]|] eqn:Hsize;
    try (split; [done | by left]).
  destruct (matchXObject_cases images pageNum key ref width height p)
    as [(before & img & after & Hsplit & _ & Hfree & Hw & Hh & Hrepl & Hmatched)
       | [_ Hsame]]; [|rewrite Hsame; split; [done | by left]].
  split; [|right; eexists; split; [exact Hrepl | done]].
  unfold plan_inv. rewrite Hrepl, Hmatched. split; [|split].
  - apply Forall_app. split.
    + eapply Forall_impl; [exact Hused |]. intros r Hr. apply elem_of_union. by right.
    + constructor; [|constructor]. apply elem_of_union. left.
      by apply elem_of_singleton.
  - rewrite fmap_app. apply NoDup_app. split; [done |]. split; [|apply NoDup_singleton].
    intros k Hk Hin. apply list_elem_of_singleton in Hin. subst k.
    apply list_elem_of_fmap in Hk as (r & Hkey & Hr).
    rewrite Forall_forall in Hused. apply Hused in Hr.
    apply Hfree. unfold usedKey in Hkey; simpl in Hkey. by rewrite Hkey.
  - apply Forall_app. split; [done |]. constructor; [|constructor].
    assert (Hin : img ∈ filter (fun img => Img.pageNum img = pageNum) images)
      by (rewrite Hsplit; apply elem_of_app; right; apply elem_of_cons; by left).
    apply list_elem_of_filter in Hin as [Hpage Hin].
    by repeat split.
Qed.

(** ** The plan, page by page *)

Lemma matchEntries_step doc images pageNum entries p :
  plan_inv doc images p ->
  NoDup (fst <$> entries) ->
  NoDup (slot <$> replacements p) ->
  (forall r, r ∈ replacements p -> Repl.pageNum r = pageNum ->
             Repl.xObjKeyName r ∉ fst <$> entries) ->
  let p' := foldl (matchEntry doc (groupByPage images) pageNum) p entries in
  plan_inv doc images p' /\
  NoDup (slot <$> replacements p') /\
  (forall r, r ∈ replacements p' ->
             r ∈ replacements p \/
             (Repl.pageNum r = pageNum /\
              (Repl.xObjKeyName r, Repl.xObjRef r) ∈ entries)).
Proof.
  revert p. induction entries as [|[key ref] entries IH]; intros p Hinv Hkeys Hslots Hfresh.
  - simpl. split; [done |]. split; [done |]. intros r Hr. by left.
  - cbn [foldl]. rewrite fmap_cons in Hkeys. apply NoDup_cons in Hkeys as [Hkey Hkeys].
    destruct (matchEntry_step doc images pageNum p key ref Hinv) as [Hinv1 Hcases].
    set (p1 := matchEntry doc (groupByPage images) pageNum p (key, ref)) in *.
    assert (Hstep : NoDup (slot <$> replacements p1) /\
                    (forall r, r ∈ replacements p1 -> Repl.pageNum r = pageNum ->
                               Repl.xObjKeyName r ∉ fst <$> entries) /\
                    (forall r, r ∈ replacements p1 ->
                               r ∈ replacements p \/
                               (Repl.pageNum r = pageNum /\
                                (Repl.xObjKeyName r, Repl.xObjRef r) = (key, ref)))).
    { destruct Hcases as [-> | (r & -> & Hn & Hk & Hr)].
      - split; [done |]. split; [|by left].
        intros r Hr Hn Hin. apply (Hfresh r Hr Hn). rewrite fmap_cons.
        apply elem_of_cons. by right.
      - split; [|split].
        + rewrite fmap_app. apply NoDup_app. split; [done |].
          split; [|apply NoDup_singleton].
          intros s Hs Hin. apply list_elem_of_singleton in Hin. subst s.
          apply list_elem_of_fmap in Hs as (r' & Hslot & Hr').
          unfold slot in Hslot. simplify_eq.
          apply (Hfresh r' Hr'); [congruence |].
          rewrite fmap_cons. apply elem_of_cons. left. simpl. congruence.
        + intros r' [Hr' | ->%list_elem_of_singleton]%elem_of_app Hn'.
          * intros Hin. apply (Hfresh r' Hr' Hn'). rewrite fmap_cons.
            apply elem_of_cons. by right.
          * by rewrite Hk.
        + intros r' [Hr' | ->%list_elem_of_singleton]%elem_of_app; [by left |].
          right. split; [done |]. congruence. }
    destruct Hstep as (Hslots1 & Hfresh1 & Hnew1).
    destruct (IH p1 Hinv1 Hkeys Hslots1 Hfresh1) as (Hinv' & Hslots' & Hnew').
    split; [done |]. split; [done |].
    intros r Hr. destruct (Hnew' r Hr) as [Hr1 | [Hn Hin]].
    + destruct (Hnew1 r Hr1) as [? | [Hn Heq]]; [by left |].
      right. split; [done |]. rewrite Heq. apply elem_of_cons. by left.
    + right. split; [done |]. apply elem_of_cons. by right.
Qed.

Lemma matchPages_step doc images done rest p :
  pages doc = done ++ rest ->
  (forall page, page ∈ pages doc -> NoDup (fst <$> xObjectEntries doc page)) ->
  plan_inv doc images p ->
  NoDup (slot <$> replacements p) ->
  Forall (fun r => (Repl.pageNum r <= length done)%nat /\ placed doc r) (replacements p) ->
  let p' := matchPages doc (groupByPage images) (length done) rest p in
  plan_inv doc images p' /\
  NoDup (slot <$> replacements p') /\
  Forall (placed doc) (replacements p').
Proof.
  revert done p. induction rest as [|page rest IH]; intros done p Hpages Hkeys Hinv Hslots Hold.
  - simpl. split; [done |]. split; [done |].
    eapply Forall_impl; [exact Hold |]. by intros r [_ ?].
  - cbn [matchPages]. unfold matchPage.
    rewrite Forall_forall in Hold.
    assert (Hpage : pages doc !! length done = Some page).
    { rewrite Hpages. rewrite lookup_app_r by lia. by rewrite Nat.sub_diag. }
    assert (Hin : page ∈ pages doc) by (apply list_elem_of_lookup; eauto).
    destruct (matchEntries_step doc images (length done + 1) (xObjectEntries doc page) p
                Hinv (Hkeys page Hin) Hslots) as (Hinv1 & Hslots1 & Hnew1).
    { intros r Hr Hn. destruct (Hold r Hr) as [Hle _]. lia. }
    set (p1 := foldl _ p _) in *.
    replace (S (length done)) with (length (done ++ [page]))
      by (rewrite length_app; simpl; lia).
    apply IH; try done.
    + by rewrite <- app_assoc.
    + apply Forall_forall. intros r Hr. rewrite length_app. simpl.
      destruct (Hnew1 r Hr) as [Hr0 | [Hn Hentry]].
      * destruct (Hold r Hr0) as [Hle Hplaced]. split; [lia | done].
      * split; [lia |]. exists (length done), page.
        split; [lia |]. by split.
Qed.

(** ** Matching *)

(** The two ways an image XObject entry leaves the plan. *)
Lemma matchEntry_cases doc images pageNum key ref width height p :
  imageXObjectSize doc ref = Some (Some width, Some height) ->
  let candidates := filter (fun img => Img.pageNum img = pageNum) images in
  let p' := matchEntry doc (groupByPage images) pageNum p (key, ref) in
  (exists before img after,
      candidates = before ++ img :: after /\
      Forall (passed_over (matchedImages p) width height) before /\
      (imgKey img ∉ matchedImages p) /\
      Img.width img == width /\ Img.height img == height /\
      replacements p' = replacements p ++ [Repl.mk pageNum key ref img width height] /\
      matchedImages p' = {[imgKey img]} ∪ matchedImages p) \/
  (Forall (passed_over (matchedImages p) width height) candidates /\ p' = p).
Proof.
  intros Hsize candidates p'. subst p'. unfold matchEntry. rewrite Hsize.
  apply matchXObject_cases.
Qed.

(** C2 as stated fails: an image XObject that two pages share (one XObject
    dictionary for both, a common layout) is planned once for each page, so
    the same original object occurs in two planned replacements. *)
Lemma shared_xobject_planned_twice :
  let plan := replacements (buildPlan shared_doc shared_images) in
  Repl.xObjRef <$> plan = [PDFRef 2; PDFRef 2] /\
  slot <$> plan = [(1%nat, "Im1"%string); (2%nat, "Im1"%string)] /\
  ~ NoDup (Repl.xObjRef <$> plan).
Proof.
  intros plan.
  assert (Hrefs : Repl.xObjRef <$> plan = [PDFRef 2; PDFRef 2]) by (by vm_compute).
  split; [done |]. split; [by vm_compute |].
  rewrite Hrefs. intros [Hnew _]%NoDup_cons. apply Hnew, elem_of_cons. by left.
Qed.

(** The plan after the whole pass is the pairing of the entries it visits. *)
Lemma pairing_app doc images entries1 entries2 p p1 p2 :
  pairing doc images entries1 p p1 -> pairing doc images entries2 p1 p2 ->
  pairing doc images (entries1 ++ entries2) p p2.
Proof.
  induction 1 as [p | pageNum key ref rest p p1 Hsize _ IH
                  | pageNum key ref width height before img after rest p p1
                      Hsize Hsplit Hbefore Hfree Hw Hh _ IH
                  | pageNum key ref width height rest p p1 Hsize Hall _ IH];
    intros Hrest; simpl.
  - done.
  - apply pairing_no_image; auto.
  - eapply pairing_first; eauto.
  - eapply pairing_no_record; eauto.
Qed.

Lemma matchEntry_pairing doc images pageNum p entry rest p' :
  pairing doc images rest (matchEntry doc (groupByPage images) pageNum p entry) p' ->
  pairing doc images (visit pageNum entry :: rest) p p'.
Proof.
  destruct entry as [key ref]. unfold visit. cbn [fst snd]. intros Hrest.
  destruct (imageXObjectSize doc ref) as [[[width|] [height|]]|] eqn:Hsize;
    try (apply pairing_no_image; [intros w h; congruence |];
         unfold matchEntry in Hrest; by rewrite Hsize in Hrest).
  destruct (matchEntry_cases doc images pageNum key ref width height p Hsize)
    as [(before & img & after & Hsplit & Hbefore & Hfree & Hw & Hh & Hrepl & Hmatched)
       | [Hall Hsame]].
  - eapply pairing_first; eauto.
    destruct (matchEntry _ _ _ _ _) as [replacements' matched']. simpl in *.
    by subst.
  - eapply pairing_no_record; eauto. by rewrite <- Hsame.
Qed.

Lemma matchEntries_pairing doc images pageNum entries rest p p' :
  pairing doc images rest (foldl (matchEntry doc (groupByPage images) pageNum) p entries) p' ->
  pairing doc images ((visit pageNum <$> entries) ++ rest) p p'.
Proof.
  revert p. induction entries as [|entry entries IH]; intros p Hrest; [done |].
  rewrite fmap_cons. cbn [app]. apply matchEntry_pairing, IH. exact Hrest.
Qed.

Lemma matchPages_pairing doc images pageIdx rest p :
  pairing doc images (visitsFrom doc pageIdx rest) p
    (matchPages doc (groupByPage images) pageIdx rest p).
Proof.
  revert pageIdx p. induction rest as [|page rest IH]; intros pageIdx p.
  - apply pairing_done.
  - cbn [visitsFrom matchPages]. apply matchEntries_pairing, IH.
Qed.

(** C2, amended: for every document and every list of records, the plan of
    the matching pass is the pairing of the entries it visits, page by page
    and entry by entry: an entry of a page's XObject dictionary that is an
    image XObject of size (width, height) is paired with the first record
    grouped under that page number that has not been consumed and whose width
    and height equal the XObject's, with numeric equality and no tolerance,
    that record is consumed, and the entry is left out when there is none.
    Every replacement of the plan pairs such an entry of its page with such a
    record; no entry (page number and key) occurs in two replacements, and no
    record key (page-index) is used twice.  An object that several entries
    refer to can be planned once for each of them.  The keys of a dictionary
    are distinct. *)
Theorem matching_first_unconsumed_exclusive doc pdfImages :
  (forall page, page ∈ pages doc -> NoDup (fst <$> xObjectEntries doc page)) ->
  let plan := replacements (buildPlan doc pdfImages) in
  pairing doc pdfImages (visits doc) emptyPlan (buildPlan doc pdfImages) /\
  (forall pageNum key ref width height p,
     imageXObjectSize doc ref = Some (Some width, Some height) ->
     let candidates := filter (fun img => Img.pageNum img = pageNum) pdfImages in
     let p' := matchEntry doc (groupByPage pdfImages) pageNum p (key, ref) in
     (exists before img after,
        candidates = before ++ img :: after /\
        Forall (passed_over (matchedImages p) width height) before /\
        (imgKey img ∉ matchedImages p) /\
        Img.width img == width /\ Img.height img == height /\
        replacements p' = replacements p ++ [Repl.mk pageNum key ref img width height] /\
        matchedImages p' = {[imgKey img]} ∪ matchedImages p) \/
     (Forall (passed_over (matchedImages p) width height) candidates /\ p' = p)) /\
  Forall (fun r => sound doc pdfImages r /\ placed doc r) plan /\
  NoDup (slot <$> plan) /\
  NoDup (usedKey <$> plan).
Proof.
  intros Hkeys plan. split; [apply matchPages_pairing |]. split.
  { intros pageNum key ref width height p. apply matchEntry_cases. }
  destruct (matchPages_step doc pdfImages [] (pages doc) emptyPlan)
    as ((_ & Hnodup & Hsound) & Hslots & Hplaced); try done.
  - apply emptyPlan_inv.
  - constructor.
  - split; [|done]. apply Forall_forall. intros r Hr.
    rewrite Forall_forall in Hsound, Hplaced. split; [by apply Hsound | by apply Hplaced].
Qed.

Lemma ex_doc_keys page :
  page ∈ pages ex_doc -> NoDup (fst <$> xObjectEntries ex_doc page).
Proof.
  intros ->%list_elem_of_singleton. apply (bool_decide_unpack _). by vm_compute.
Defined.

Lemma matching_first_unconsumed_exclusive_witness :
  pairing ex_doc ex_images
    [ (1%nat, "Im1"%string, PDFRef 2); (1%nat, "Im2"%string, PDFRef 3);
      (1%nat, "Fm1"%string, PDFRef 4) ]
    emptyPlan (buildPlan ex_doc ex_images) /\
  NoDup (slot <$> replacements (buildPlan ex_doc ex_images)) /\
  NoDup (usedKey <$> replacements (buildPlan ex_doc ex_images)).
Proof.
  destruct (matching_first_unconsumed_exclusive ex_doc ex_images ex_doc_keys)
    as (Hpairing & _ & _ & Hslots & Hused).
  split; [exact Hpairing | by split].
Defined.

(** ** The patch loop *)

Lemma pageXObjects_place doc page n entries :
  pageXObjects doc page = Some (n, entries) ->
  xObjectsPlace page = Some n /\ store doc !! n = Some (PDFDict entries).
Proof.
  unfold pageXObjects, xObjectsPlace.
  destruct (Resources page) as [resources|]; [|done].
  destruct (dict_get "XObject" resources) as [[| |m|m]|]; try done;
    destruct (store doc !! m) as [[]|] eqn:Hm; try done; intros [= <- <-]; by rewrite <- Hm.
Qed.

Lemma applyReplacements_app env plan1 plan2 doc :
  applyReplacements env (plan1 ++ plan2) doc
  = applyReplacements env plan2 (applyReplacements env plan1 doc).
Proof.
  revert doc. induction plan1 as [|r plan1 IH]; intros doc; simpl; [done | apply IH].
Qed.

(** A replacement whose data URL cannot be decoded changes nothing. *)
Lemma decode_failure env doc r :
  fetchBytes env (dataURLToUse (Repl.optimizedImg r)) = None ->
  applyReplacement env doc r = (doc, Failed).
Proof. unfold applyReplacement. by intros ->. Qed.

Lemma repoint_pages pageNum key newRef doc doc' :
  repoint pageNum key newRef doc = Some doc' ->
  pages doc' = pages doc /\ largestObjectNumber doc' = largestObjectNumber doc /\
  exists page n entries,
    xObjectsPlace page = Some n /\ page ∈ pages doc /\
    store doc !! n = Some (PDFDict entries) /\
    store doc' = <[n := PDFDict (dict_set key (PDFRef newRef) entries)]> (store doc).
Proof.
  unfold repoint. destruct pageNum as [|pageIdx]; [done |].
  destruct (pages doc !! pageIdx) as [page|] eqn:Hpage; [|done].
  destruct (pageXObjects doc page) as [[n entries]|] eqn:Hx; [|done].
  intros [= <-]. apply pageXObjects_place in Hx as [Hplace Hn].
  repeat split. exists page, n, entries. repeat split; try done.
  apply list_elem_of_lookup; eauto.
Qed.

(** One replacement keeps the pages, never lowers the reference counter, and
    changes the store only at the place of the old object, at the place of
    the XObject dictionary of a page, or above the counter. *)
Lemma applyReplacement_frame env doc r :
  let doc' := fst (applyReplacement env doc r) in
  pages doc' = pages doc /\
  (largestObjectNumber doc <= largestObjectNumber doc')%nat /\
  forall n,
    (n <= largestObjectNumber doc)%nat ->
    (target (Repl.xObjRef r) = Some n ->
     fetchBytes env (dataURLToUse (Repl.optimizedImg r)) = None) ->
    (forall page, page ∈ pages doc -> xObjectsPlace page <> Some n) ->
    store doc' !! n = store doc !! n.
Proof.
  unfold applyReplacement.
  destruct (fetchBytes env _) as [imageBytes|] eqn:Hfetch; [|by repeat split].
  destruct (lookup doc (Repl.xObjRef r)) as [old|]; [|by repeat split].
  set (url := dataURLToUse (Repl.optimizedImg r)).
  assert (Hover : forall d dict,
             pages (overwrite (Repl.xObjRef r) dict imageBytes d) = pages d /\
             largestObjectNumber (overwrite (Repl.xObjRef r) dict imageBytes d)
             = largestObjectNumber d /\
             forall n, target (Repl.xObjRef r) <> Some n ->
                       store (overwrite (Repl.xObjRef r) dict imageBytes d) !! n
                       = store d !! n).
  { intros d dict. unfold overwrite.
    destruct (Repl.xObjRef r) as [| |m|m]; simpl; repeat split; try done;
      intros n Hn; apply lookup_insert_ne; congruence. }
  destruct (includes "image/png" url); cbn [fst snd].
  - unfold embedAndRepoint.
    destruct (embedPng env imageBytes) as [img|].
    + destruct (repoint _ _ _ (register img doc)) as [doc2|] eqn:Hrepoint; cbn [fst snd].
      * apply repoint_pages in Hrepoint
          as (Hpages & Hlargest & page & m & entries & Hplace & Hpage & _ & Hstore).
        simpl in *. rewrite Hpages, Hlargest. split; [done |]. split; [lia |].
        intros n Hn _ Hdict. rewrite Hstore.
        rewrite lookup_insert_ne by (intros ->; by apply (Hdict page)).
        apply lookup_insert_ne. lia.
      * destruct (Hover (register img doc)
                    (imageDict (includes "image/jpeg" url) (Repl.width r) (Repl.height r)))
          as (-> & -> & Hstore).
        simpl. split; [done |]. split; [lia |].
        intros n Hn Htarget _. rewrite Hstore by (intros H; by specialize (Htarget H)).
        simpl. apply lookup_insert_ne. lia.
    + cbn [fst snd].
      destruct (Hover doc
                  (imageDict (includes "image/jpeg" url) (Repl.width r) (Repl.height r)))
        as (-> & -> & Hstore).
      split; [done |]. split; [lia |].
      intros n Hn Htarget _. apply Hstore. intros H. by specialize (Htarget H).
  - destruct (Hover doc
                (imageDict (includes "image/jpeg" url) (Repl.width r) (Repl.height r)))
      as (-> & -> & Hstore).
    split; [done |]. split; [lia |].
    intros n Hn Htarget _. apply Hstore. intros H. by specialize (Htarget H).
Qed.

Lemma dict_get_set key v d : dict_get key (dict_set key v d) = Some v.
Proof.
  induction d as [|[k w] d IH]; simpl.
  - by rewrite String.eqb_refl.
  - destruct (String.eqb k key) eqn:Hk; simpl; by rewrite Hk.
Qed.

(** When [embedPng] throws, the old object is overwritten in place. *)
Lemma embed_failure env doc r imageBytes n old :
  fetchBytes env (dataURLToUse (Repl.optimizedImg r)) = Some imageBytes ->
  target (Repl.xObjRef r) = Some n ->
  store doc !! n = Some old ->
  embedPng env imageBytes = None ->
  snd (applyReplacement env doc r) = Overwritten /\
  store (fst (applyReplacement env doc r)) !! n
  = Some (PDFStream
            (imageDict (includes "image/jpeg" (dataURLToUse (Repl.optimizedImg r)))
               (Repl.width r) (Repl.height r))
            imageBytes).
Proof.
  intros Hfetch Htarget Hold Hembed. unfold applyReplacement. rewrite Hfetch.
  assert (Hlookup : lookup doc (Repl.xObjRef r) = Some old)
    by (destruct (Repl.xObjRef r); simplify_eq/=; done).
  rewrite Hlookup. unfold embedAndRepoint. rewrite Hembed.
  assert (Hover : forall dict,
             store (overwrite (Repl.xObjRef r) dict imageBytes doc) !! n
             = Some (PDFStream dict imageBytes)).
  { intros dict. unfold overwrite.
    destruct (Repl.xObjRef r); simplify_eq/=; apply lookup_insert_eq. }
  destruct (includes "image/png" _); cbn [fst snd]; by rewrite Hover.
Qed.

(** C8 as stated fails: when the embedding of a replacement throws, the
    replacement is not skipped; the old object is overwritten in place and
    the output no longer holds the original. *)
Lemma embed_failure_overwrites_original :
  let plan := replacements (buildPlan ex_doc ex_images) in
  let r := Repl.mk 1 "Im2" (PDFRef 3)
             (Img.mk 0 "data:image/png;base64,AAAA" 3 50 50 1 "page-1-Im2" false None 0)
             50 50 in
  r ∈ plan /\
  fetchBytes ex_env_no_embed (dataURLToUse (Repl.optimizedImg r))
  = Some [Byte.x01; Byte.x02] /\
  embedPng ex_env_no_embed [Byte.x01; Byte.x02] = None /\
  snd (applyReplacement ex_env_no_embed ex_doc r) = Overwritten /\
  store ex_doc !! 3%nat = Some (PDFStream (ex_imageDict 50 50) [Byte.x0b]) /\
  store (applyReplacements ex_env_no_embed plan ex_doc) !! 3%nat
  = Some (PDFStream (imageDict false 50 50) [Byte.x01; Byte.x02]).
Proof.
  split; [|by vm_compute].
  apply list_elem_of_lookup. exists 1%nat. by vm_compute.
Qed.

(** The old object of a replacement of the plan is in the store. *)
Lemma sound_target doc images r :
  sound doc images r ->
  exists n, target (Repl.xObjRef r) = Some n /\ is_Some (store doc !! n).
Proof.
  intros (_ & _ & _ & _ & Hsize). unfold imageXObjectSize in Hsize.
  destruct (Repl.xObjRef r) as [| |n|n]; simpl in *; try done;
    (destruct (store doc !! n) as [old|] eqn:Hn; [|done]);
    exists n; by rewrite Hn.
Qed.

Lemma matchEntries_inv doc images pageNum entries p :
  plan_inv doc images p ->
  plan_inv doc images (foldl (matchEntry doc (groupByPage images) pageNum) p entries).
Proof.
  revert p. induction entries as [|[key ref] entries IH]; intros p Hinv; [done |].
  cbn [foldl]. by apply IH, matchEntry_step.
Qed.

Lemma matchPages_inv doc images pageIdx rest p :
  plan_inv doc images p -> plan_inv doc images (matchPages doc (groupByPage images) pageIdx rest p).
Proof.
  revert pageIdx p. induction rest as [|page rest IH]; intros pageIdx p Hinv; [done |].
  cbn [matchPages]. by apply IH, matchEntries_inv.
Qed.

Lemma buildPlan_sound doc images :
  Forall (sound doc images) (replacements (buildPlan doc images)).
Proof.
  by destruct (matchPages_inv doc images 0 (pages doc) emptyPlan (emptyPlan_inv doc images))
    as (_ & _ & Hsound).
Qed.

(** Every replacement of the plan stands for an entry the pass visited. *)
Lemma pairing_visited doc images entries p p' :
  pairing doc images entries p p' ->
  forall r, r ∈ replacements p' ->
            r ∈ replacements p \/
            (Repl.pageNum r, Repl.xObjKeyName r, Repl.xObjRef r) ∈ entries.
Proof.
  induction 1 as [p | pageNum key ref rest p p1 Hsize _ IH
                  | pageNum key ref width height before img after rest p p1
                      Hsize Hsplit Hbefore Hfree Hw Hh _ IH
                  | pageNum key ref width height rest p p1 Hsize Hall _ IH];
    intros r Hr.
  - by left.
  - destruct (IH r Hr) as [? | ?]; [by left |]. right. apply elem_of_cons. by right.
  - destruct (IH r Hr) as [Hin | ?]; [|right; apply elem_of_cons; by right].
    simpl in Hin. apply elem_of_app in Hin as [? | ->%list_elem_of_singleton]; [by left |].
    right. apply elem_of_cons. by left.
  - destruct (IH r Hr) as [? | ?]; [by left |]. right. apply elem_of_cons. by right.
Qed.

Lemma visitsFrom_placed doc pageIdx rest pageNum key ref :
  (pageNum, key, ref) ∈ visitsFrom doc pageIdx rest ->
  exists i page,
    pageNum = S (pageIdx + i) /\ rest !! i = Some page /\
    (key, ref) ∈ xObjectEntries doc page.
Proof.
  revert pageIdx. induction rest as [|page rest IH]; intros pageIdx Hin.
  - by apply elem_of_nil in Hin.
  - cbn [visitsFrom] in Hin. apply elem_of_app in Hin as [Hin | Hin].
    + apply list_elem_of_fmap in Hin as ([key' ref'] & Heq & Hin).
      unfold visit in Heq. simpl in Heq. injection Heq as -> -> ->.
      exists 0%nat, page. split; [lia |]. by split.
    + destruct (IH _ Hin) as (i & page' & -> & Hpage & Hentry).
      exists (S i), page'. split; [lia |]. by split.
Qed.

Lemma buildPlan_placed doc images :
  Forall (placed doc) (replacements (buildPlan doc images)).
Proof.
  apply Forall_forall. intros r Hr.
  destruct (pairing_visited _ _ _ _ _ (matchPages_pairing doc images 0 (pages doc) emptyPlan)
              r Hr) as [Hin | Hin]; [by apply elem_of_nil in Hin |].
  apply visitsFrom_placed in Hin as (i & page & Hnum & Hpage & Hentry).
  by exists i, page.
Qed.

(** No replacement removes an object from the store. *)
Lemma applyReplacement_keeps env doc r n :
  is_Some (store doc !! n) -> is_Some (store (fst (applyReplacement env doc r)) !! n).
Proof.
  intros Hn. unfold applyReplacement.
  destruct (fetchBytes env _) as [imageBytes|]; [|done].
  destruct (lookup doc (Repl.xObjRef r)) as [old|]; [|done].
  assert (Hover : forall d dict,
             is_Some (store d !! n) ->
             is_Some (store (overwrite (Repl.xObjRef r) dict imageBytes d) !! n)).
  { intros d dict Hd. unfold overwrite.
    destruct (Repl.xObjRef r); simpl; try done; apply lookup_insert_is_Some'; by right. }
  assert (Hreg : forall img, is_Some (store (register img doc) !! n))
    by (intros img; simpl; apply lookup_insert_is_Some'; by right).
  destruct (includes "image/png" _); [|by apply Hover].
  unfold embedAndRepoint.
  destruct (embedPng env imageBytes) as [img|]; [|by apply Hover].
  destruct (repoint _ _ _ (register img doc)) as [doc2|] eqn:Hrepoint;
    [|by apply Hover].
  apply repoint_pages in Hrepoint as (_ & _ & page & place & entries & _ & _ & _ & Hstore).
  cbn [fst]. rewrite Hstore. apply lookup_insert_is_Some'. right. apply Hreg.
Qed.

Lemma applyReplacements_keeps env plan doc n :
  is_Some (store doc !! n) -> is_Some (store (applyReplacements env plan doc) !! n).
Proof.
  revert doc. induction plan as [|r plan IH]; intros doc Hn; [done |].
  cbn [applyReplacements]. by apply IH, applyReplacement_keeps.
Qed.

(** ** What one replacement writes *)

Lemma dict_get_set_ne key key' v d :
  key' <> key -> dict_get key (dict_set key' v d) = dict_get key d.
Proof.
  intros Hne. induction d as [|[k w] d IH]; simpl.
  - by apply String.eqb_neq in Hne as ->.
  - destruct (String.eqb k key') eqn:Hk'; simpl.
    + apply String.eqb_eq in Hk' as ->. by apply String.eqb_neq in Hne as ->.
    + by destruct (String.eqb k key).
Qed.

Lemma repoint_spec pageNum key newRef doc doc' :
  repoint pageNum key newRef doc = Some doc' ->
  exists pageIdx page m entries,
    pageNum = S pageIdx /\ pages doc !! pageIdx = Some page /\
    xObjectsPlace page = Some m /\ store doc !! m = Some (PDFDict entries) /\
    doc' = set_store (<[m := PDFDict (dict_set key (PDFRef newRef) entries)]> (store doc)) doc.
Proof.
  unfold repoint. destruct pageNum as [|pageIdx]; [done |].
  destruct (pages doc !! pageIdx) as [page|] eqn:Hpage; [|done].
  destruct (pageXObjects doc page) as [[m entries]|] eqn:Hx; [|done].
  intros [= <-]. apply pageXObjects_place in Hx as [Hplace Hm].
  by exists pageIdx, page, m, entries.
Qed.

Lemma dictionaryOf_pages doc doc' r :
  pages doc' = pages doc -> dictionaryOf doc' r = dictionaryOf doc r.
Proof. unfold dictionaryOf. by intros ->. Qed.

Lemma dictionaryOf_place doc r m :
  dictionaryOf doc r = Some m ->
  exists page, page ∈ pages doc /\ xObjectsPlace page = Some m.
Proof.
  unfold dictionaryOf. destruct (Repl.pageNum r) as [|pageIdx]; [done |].
  destruct (pages doc !! pageIdx) as [page|] eqn:Hpage; [|done]. simpl.
  intros Hplace. exists page. split; [|done]. apply list_elem_of_lookup; eauto.
Qed.

Lemma touches_pages env doc doc' r n :
  pages doc' = pages doc -> touches env doc' r n <-> touches env doc r n.
Proof. intros H. unfold touches. by rewrite (dictionaryOf_pages _ _ _ H). Qed.

Lemma touches_entry_pages env doc doc' r m key :
  pages doc' = pages doc -> touches_entry env doc' r m key <-> touches_entry env doc r m key.
Proof. intros H. unfold touches_entry. by rewrite (dictionaryOf_pages _ _ _ H). Qed.

(** The store after one replacement, place by place: the object is the one
    before; or the place is the new reference; or the replacement decoded its
    data and the object is its old object, overwritten by a stream, or the
    XObject dictionary of its page, with its key repointed to the new
    reference. *)
Lemma applyReplacement_store env doc r :
  let doc' := fst (applyReplacement env doc r) in
  let newRef := S (largestObjectNumber doc) in
  pages doc' = pages doc /\
  (largestObjectNumber doc <= largestObjectNumber doc')%nat /\
  forall k,
    store doc' !! k = store doc !! k \/
    (k = newRef /\ largestObjectNumber doc' = newRef) \/
    (decodes env r /\ target (Repl.xObjRef r) = Some k /\ is_Some (store doc !! k) /\
     exists dict bytes, store doc' !! k = Some (PDFStream dict bytes)) \/
    (decodes env r /\ dictionaryOf doc r = Some k /\
     exists entries,
       store doc !! k = Some (PDFDict entries) /\
       store doc' !! k
       = Some (PDFDict (dict_set (Repl.xObjKeyName r) (PDFRef newRef) entries))).
Proof.
  unfold applyReplacement, decodes.
  destruct (fetchBytes env _) as [imageBytes|] eqn:Hfetch;
    [|by repeat split; try left].
  destruct (lookup doc (Repl.xObjRef r)) as [old|] eqn:Hold;
    [|by repeat split; try left].
  set (url := dataURLToUse (Repl.optimizedImg r)).
  set (dict := imageDict (includes "image/jpeg" url) (Repl.width r) (Repl.height r)).
  assert (Htarget : forall n, target (Repl.xObjRef r) = Some n -> is_Some (store doc !! n)).
  { intros n Hn. destruct (Repl.xObjRef r); simplify_eq/=; by rewrite Hold. }
  assert (Hplain : let doc' := overwrite (Repl.xObjRef r) dict imageBytes doc in
                   pages doc' = pages doc /\
                   (largestObjectNumber doc <= largestObjectNumber doc')%nat /\
                   forall k,
                     store doc' !! k = store doc !! k \/
                     (k = S (largestObjectNumber doc) /\
                      largestObjectNumber doc' = S (largestObjectNumber doc)) \/
                     (is_Some (Some imageBytes) /\ target (Repl.xObjRef r) = Some k /\
                      is_Some (store doc !! k) /\
                      exists dict bytes, store doc' !! k = Some (PDFStream dict bytes)) \/
                     (is_Some (Some imageBytes) /\ dictionaryOf doc r = Some k /\
                      exists entries,
                        store doc !! k = Some (PDFDict entries) /\
                        store doc' !! k
                        = Some (PDFDict (dict_set (Repl.xObjKeyName r)
                                           (PDFRef (S (largestObjectNumber doc))) entries)))).
  { unfold overwrite.
    destruct (Repl.xObjRef r) as [| |n|n] eqn:Href; simpl;
      (split; [done |]); (split; [done |]); intros k; try (by left);
      (destruct (decide (k = n)) as [-> | Hne];
       [right; right; left; split; [by eexists |]; split; [done |];
        split; [by apply Htarget |]; eexists _, _; apply lookup_insert_eq
       |left; by apply lookup_insert_ne]). }
  destruct (includes "image/png" url); cbn [fst snd]; [|exact Hplain].
  unfold embedAndRepoint.
  destruct (embedPng env imageBytes) as [img|]; cbn [fst snd]; [|exact Hplain].
  destruct (repoint _ _ _ (register img doc)) as [doc2|] eqn:Hrepoint; cbn [fst snd].
  - apply repoint_spec in Hrepoint
      as (pageIdx & page & m & entries & Hnum & Hpage & Hplace & Hm & ->).
    simpl in *. split; [done |]. split; [lia |]. intros k.
    destruct (decide (k = S (largestObjectNumber doc))) as [-> | Hnew]; [by right; left |].
    destruct (decide (k = m)) as [-> | Hne].
    + right. right. right. split; [by eexists |]. split.
      * unfold dictionaryOf. rewrite Hnum, Hpage. done.
      * exists entries. rewrite lookup_insert_ne in Hm by done.
        split; [done |]. apply lookup_insert_eq.
    + left. rewrite lookup_insert_ne by done. by apply lookup_insert_ne.
  - unfold overwrite.
    destruct (Repl.xObjRef r) as [| |n|n] eqn:Href; simpl;
      (split; [done |]); (split; [lia |]); intros k;
      (destruct (decide (k = S (largestObjectNumber doc))) as [-> | Hnew];
       [by right; left |]);
      try (left; by apply lookup_insert_ne);
      (destruct (decide (k = n)) as [-> | Hne];
       [right; right; left; split; [by eexists |]; split; [done |];
        split; [by apply Htarget |]; eexists _, _; apply lookup_insert_eq
       |left; rewrite lookup_insert_ne by done; by apply lookup_insert_ne]).
Qed.

Lemma applyReplacement_well_formed env doc r :
  well_formed doc -> well_formed (fst (applyReplacement env doc r)).
Proof.
  intros [Hstore Hpages].
  destruct (applyReplacement_store env doc r) as (Hsame & Hle & Hplaces).
  split.
  - intros k Hk.
    destruct (Hplaces k) as [Heq | [[-> ->] | [(_ & _ & Hold & _) | (_ & _ & entries & Hold & _)]]].
    + rewrite Heq in Hk. specialize (Hstore k Hk). lia.
    + done.
    + specialize (Hstore k Hold). lia.
    + assert (Hsome : is_Some (store doc !! k)) by (by eexists).
      specialize (Hstore k Hsome). lia.
  - intros page n Hpage Hplace. rewrite Hsame in Hpage.
    specialize (Hpages page n Hpage Hplace). lia.
Qed.

(** An object no replacement touches is the object before. *)
Lemma applyReplacement_object env doc r n :
  (n <= largestObjectNumber doc)%nat ->
  ~ touches env doc r n ->
  store (fst (applyReplacement env doc r)) !! n = store doc !! n.
Proof.
  intros Hn Hnot.
  destruct (applyReplacement_store env doc r) as (_ & _ & Hplaces).
  destruct (Hplaces n) as [Heq | [[-> _] | [(Hd & Ht & _) | (Hd & Ht & _)]]].
  - done.
  - lia.
  - exfalso. apply Hnot. split; [done | by left].
  - exfalso. apply Hnot. split; [done | by right].
Qed.

(** An entry no replacement touches has the value it had. *)
Lemma applyReplacement_entry env doc r m key entries :
  well_formed doc ->
  store doc !! m = Some (PDFDict entries) ->
  ~ touches_entry env doc r m key ->
  exists entries',
    store (fst (applyReplacement env doc r)) !! m = Some (PDFDict entries') /\
    dict_get key entries' = dict_get key entries.
Proof.
  intros [Hstore _] Hm Hnot.
  assert (Hle : (m <= largestObjectNumber doc)%nat) by (apply Hstore; by eexists).
  destruct (applyReplacement_store env doc r) as (_ & _ & Hplaces).
  destruct (Hplaces m) as [Heq | [[-> _] | [(Hd & Ht & _) | (Hd & Ht & entries0 & Hold & Hnew)]]].
  - exists entries. by rewrite Heq.
  - lia.
  - exfalso. apply Hnot. split; [done | by left].
  - rewrite Hm in Hold. injection Hold as <-.
    eexists. split; [exact Hnew |]. apply dict_get_set_ne.
    intros Hkey. apply Hnot. split; [done |]. by right.
Qed.

(** ** What the loop writes *)

Lemma applyReplacements_effect env plan doc :
  well_formed doc ->
  let doc' := applyReplacements env plan doc in
  pages doc' = pages doc /\
  (largestObjectNumber doc <= largestObjectNumber doc')%nat /\
  well_formed doc' /\
  (forall n, (n <= largestObjectNumber doc)%nat ->
     (forall r, r ∈ plan -> ~ touches env doc r n) ->
     store doc' !! n = store doc !! n) /\
  (forall m key entries, store doc !! m = Some (PDFDict entries) ->
     (forall r, r ∈ plan -> ~ touches_entry env doc r m key) ->
     exists entries', store doc' !! m = Some (PDFDict entries') /\
                      dict_get key entries' = dict_get key entries).
Proof.
  revert doc. induction plan as [|r plan IH]; intros doc Hwf.
  - simpl. split; [done |]. split; [done |]. split; [done |]. split; [done |].
    intros m key entries Hm _. by exists entries.
  - cbn [applyReplacements].
    destruct (applyReplacement_store env doc r) as (Hpages1 & Hle1 & _).
    pose proof (applyReplacement_well_formed env doc r Hwf) as Hwf1.
    destruct (IH _ Hwf1) as (Hpages & Hle & Hwf' & Hobjects & Hentries).
    split; [by rewrite Hpages |]. split; [lia |]. split; [done |]. split.
    + intros n Hn Hnot. rewrite Hobjects.
      * apply applyReplacement_object; [done |]. apply Hnot, elem_of_cons. by left.
      * lia.
      * intros r' Hr'. rewrite (touches_pages _ _ _ _ _ Hpages1).
        apply Hnot, elem_of_cons. by right.
    + intros m key entries Hm Hnot.
      destruct (applyReplacement_entry env doc r m key entries Hwf Hm)
        as (entries1 & Hm1 & Hget1); [apply Hnot, elem_of_cons; by left |].
      destruct (Hentries m key entries1 Hm1) as (entries' & Hm' & Hget').
      * intros r' Hr'. rewrite (touches_entry_pages _ _ _ _ _ _ Hpages1).
        apply Hnot, elem_of_cons. by right.
      * exists entries'. split; [done |]. by rewrite Hget'.
Qed.

(** What a replacement does that has its bytes and finds its old object:
    it embeds the bytes as a new object and repoints the entry of the page,
    or it overwrites the old object with them. *)
Lemma applyReplacement_outcome env doc r imageBytes n old :
  well_formed doc ->
  fetchBytes env (dataURLToUse (Repl.optimizedImg r)) = Some imageBytes ->
  target (Repl.xObjRef r) = Some n ->
  store doc !! n = Some old ->
  let doc' := fst (applyReplacement env doc r) in
  let newRef := S (largestObjectNumber doc) in
  (snd (applyReplacement env doc r) = Embedded /\
   exists img m entries,
     embedPng env imageBytes = Some img /\
     dictionaryOf doc r = Some m /\
     store doc !! m = Some (PDFDict entries) /\
     store doc'
     = <[m := PDFDict (dict_set (Repl.xObjKeyName r) (PDFRef newRef) entries)]>
         (<[newRef := img]> (store doc)) /\
     m <> newRef /\ store doc !! newRef = None /\
     largestObjectNumber doc' = newRef) \/
  (snd (applyReplacement env doc r) = Overwritten /\
   store doc' !! n
   = Some (PDFStream
             (imageDict (includes "image/jpeg" (dataURLToUse (Repl.optimizedImg r)))
                (Repl.width r) (Repl.height r))
             imageBytes)).
Proof.
  intros [Hstore Hpages] Hfetch Htarget Hold. unfold applyReplacement. rewrite Hfetch.
  assert (Hlookup : lookup doc (Repl.xObjRef r) = Some old)
    by (destruct (Repl.xObjRef r); simplify_eq/=; done).
  rewrite Hlookup.
  assert (Hover : forall d dict,
             store (overwrite (Repl.xObjRef r) dict imageBytes d) !! n
             = Some (PDFStream dict imageBytes)).
  { intros d dict. unfold overwrite.
    destruct (Repl.xObjRef r); simplify_eq/=; apply lookup_insert_eq. }
  destruct (includes "image/png" _); cbv beta iota zeta;
    [|right; split; [done | apply Hover]].
  unfold embedAndRepoint.
  destruct (embedPng env imageBytes) as [img|];
    [|right; split; [done | apply Hover]].
  destruct (repoint _ _ _ (register img doc)) as [doc2|] eqn:Hrepoint;
    [|right; split; [done | apply Hover]].
  left. split; [done |].
  apply repoint_spec in Hrepoint
    as (pageIdx & page & m & entries & Hnum & Hpage & Hplace & Hm & ->).
  simpl in *.
  assert (Hdict : dictionaryOf doc r = Some m)
    by (unfold dictionaryOf; rewrite Hnum, Hpage; done).
  assert (Hle : (m <= largestObjectNumber doc)%nat).
  { apply (Hpages page); [|done]. apply list_elem_of_lookup; eauto. }
  assert (Hne : m <> S (largestObjectNumber doc)) by lia.
  rewrite lookup_insert_ne in Hm by done.
  exists img, m, entries. repeat split; try done.
  destruct (store doc !! S (largestObjectNumber doc)) as [o|] eqn:Ho; [|done].
  assert (Hsome : is_Some (store doc !! S (largestObjectNumber doc))) by (by eexists).
  specialize (Hstore _ Hsome). lia.
Qed.

(** C8, amended: every planned replacement runs inside its own error
    boundary.  A replacement whose byte decoding throws is skipped: it leaves
    the document as it was and the remaining replacements are applied as if
    it were not in the plan; no failure of a replacement keeps the handler
    from the save, which is called on the document so patched.  The XObject
    of the skipped replacement is in the document and named by an entry of
    the XObject dictionary of its page.  An object of the original document
    is the original object in the output, and an entry of a dictionary has
    its original value, when none of the other replacements of the plan
    touches it: a replacement touches an object when its data is decoded and
    the object is its old object or the XObject dictionary of its page, and
    it touches an entry of that dictionary under its own key; so the XObject
    of the skipped replacement stays the original unless it is shared with a
    replacement that is applied, and so does every unmatched XObject.  A
    replacement whose PNG embedding throws is not skipped: the handler falls
    back to overwriting the old object in place. *)
Theorem decode_failure_is_skipped env doc pdfImages before r after :
  well_formed doc ->
  replacements (buildPlan doc pdfImages) = before ++ r :: after ->
  fetchBytes env (dataURLToUse (Repl.optimizedImg r)) = None ->
  let final := applyReplacements env (before ++ r :: after) doc in
  (forall d, applyReplacement env d r = (d, Failed)) /\
  final = applyReplacements env (before ++ after) doc /\
  savePdf env doc pdfImages = saveBytes env final /\
  (exists n m entries,
     target (Repl.xObjRef r) = Some n /\ is_Some (store doc !! n) /\
     dictionaryOf doc r = Some m /\ store doc !! m = Some (PDFDict entries) /\
     (Repl.xObjKeyName r, Repl.xObjRef r) ∈ entries) /\
  (forall n,
     (n <= largestObjectNumber doc)%nat ->
     (forall r', r' ∈ before ++ after -> ~ touches env doc r' n) ->
     store final !! n = store doc !! n) /\
  (forall m key entries,
     store doc !! m = Some (PDFDict entries) ->
     (forall r', r' ∈ before ++ after -> ~ touches_entry env doc r' m key) ->
     exists entries',
       store final !! m = Some (PDFDict entries') /\
       dict_get key entries' = dict_get key entries) /\
  (forall d r' imageBytes n old,
     fetchBytes env (dataURLToUse (Repl.optimizedImg r')) = Some imageBytes ->
     target (Repl.xObjRef r') = Some n ->
     store d !! n = Some old ->
     embedPng env imageBytes = None ->
     snd (applyReplacement env d r') = Overwritten /\
     store (fst (applyReplacement env d r')) !! n
     = Some (PDFStream
               (imageDict (includes "image/jpeg" (dataURLToUse (Repl.optimizedImg r')))
                  (Repl.width r') (Repl.height r'))
               imageBytes)).
Proof.
  intros Hwf Hplan Hfetch final.
  assert (Hskip : final = applyReplacements env (before ++ after) doc).
  { subst final. rewrite !applyReplacements_app. cbn [applyReplacements].
    by rewrite (decode_failure _ _ _ Hfetch). }
  split; [intros d; by apply decode_failure |]. split; [done |].
  split; [unfold savePdf; by rewrite Hplan |].
  destruct (applyReplacements_effect env (before ++ after) doc Hwf)
    as (_ & _ & _ & Hobjects & Hentries).
  split; [|split; [|split]].
  - pose proof (buildPlan_sound doc pdfImages) as Hsound.
    pose proof (buildPlan_placed doc pdfImages) as Hplaced.
    rewrite Hplan in Hsound, Hplaced.
    apply Forall_app in Hsound as [_ [Hr _]%Forall_cons].
    apply Forall_app in Hplaced as [_ [(pageIdx & page & Hnum & Hpage & Hentry) _]%Forall_cons].
    destruct (sound_target _ _ _ Hr) as (n & Hn & Hsome).
    unfold xObjectEntries in Hentry.
    destruct (pageXObjects doc page) as [[m entries]|] eqn:Hx;
      [|by apply elem_of_nil in Hentry].
    apply pageXObjects_place in Hx as [Hplace Hm].
    exists n, m, entries. repeat split; try done.
    unfold dictionaryOf. by rewrite Hnum, Hpage.
  - intros n Hn Hnot. rewrite Hskip. by apply Hobjects.
  - intros m key entries Hm Hnot. rewrite Hskip. by apply Hentries.
  - intros d r' imageBytes n old. apply embed_failure.
Qed.

Lemma tiny_doc_well_formed : well_formed tiny_doc.
Proof.
  split.
  - intros n [o Hn]. simpl in *.
    repeat (apply lookup_insert_Some in Hn as [[<- _] | [_ Hn]]; [lia |]).
    by rewrite lookup_empty in Hn.
  - intros page n ->%list_elem_of_singleton [= <-]. simpl. lia.
Defined.

Lemma decode_failure_is_skipped_witness :
  let final := applyReplacements browser_env [tiny_failing; tiny_unoptimized] tiny_doc in
  fetchBytes browser_env "data:image/jpeg;base64,/9j/4A!" = None /\
  snd (applyReplacement browser_env tiny_doc tiny_failing) = Failed /\
  final = applyReplacements browser_env [tiny_unoptimized] tiny_doc /\
  savePdf browser_env tiny_doc tiny_images = saveBytes browser_env final /\
  store final !! 2%nat = Some (PDFStream (ex_imageDict 1 1) [Byte.x0a]) /\
  (exists entries',
     store final !! 1%nat = Some (PDFDict entries') /\
     dict_get "Im1" entries' = Some (PDFRef 2)).
Proof.
  intros final.
  destruct (decode_failure_is_skipped browser_env tiny_doc tiny_images []
              tiny_failing [tiny_unoptimized] tiny_doc_well_formed eq_refl eq_refl)
    as (Hfailed & Hskip & Hsave & _ & Hobjects & Hentries & _).
  split; [reflexivity |]. split; [by rewrite Hfailed |]. split; [exact Hskip |].
  split; [exact Hsave |]. split.
  - apply (Hobjects 2%nat); [simpl; lia |].
    intros r' ->%list_elem_of_singleton [_ [H | H]]; by vm_compute in H.
  - apply (Hentries 1%nat "Im1"%string [("Im1", PDFRef 2); ("Im2", PDFRef 3)]%string);
      [reflexivity |].
    intros r' ->%list_elem_of_singleton [_ [H | [_ H]]]; by vm_compute in H.
Defined.

(** C9: a replacement of the plan whose record was never optimized
    ([optimizedDataURL] is [null]) is patched with the bytes of the record's
    extraction-time [dataURL], once these are decoded.  When the loop reaches
    it, its old object is found, whatever the earlier replacements did, and
    the loop either embeds the bytes as a new object and repoints the entry
    of the page's XObject dictionary to it, or overwrites the old object in
    place with a stream of these bytes.  The handler saves the document the
    loop ends with.  That document holds the embedded object; its entry
    still names it, and an overwritten object still is that stream, when no
    later replacement touches the entry or the object. *)
Theorem unoptimized_record_is_reembedded env doc pdfImages before r after imageBytes :
  well_formed doc ->
  replacements (buildPlan doc pdfImages) = before ++ r :: after ->
  Img.optimizedDataURL (Repl.optimizedImg r) = None ->
  fetchBytes env (Img.dataURL (Repl.optimizedImg r)) = Some imageBytes ->
  let reached := applyReplacements env before doc in
  let patched := fst (applyReplacement env reached r) in
  let final := applyReplacements env after patched in
  let newRef := S (largestObjectNumber reached) in
  let stream :=
    PDFStream
      (imageDict (includes "image/jpeg" (Img.dataURL (Repl.optimizedImg r)))
         (Repl.width r) (Repl.height r))
      imageBytes in
  savePdf env doc pdfImages = saveBytes env final /\
  dataURLToUse (Repl.optimizedImg r) = Img.dataURL (Repl.optimizedImg r) /\
  exists n old,
    target (Repl.xObjRef r) = Some n /\ store reached !! n = Some old /\
    ((snd (applyReplacement env reached r) = Embedded /\
      exists img m entries,
        embedPng env imageBytes = Some img /\
        dictionaryOf doc r = Some m /\
        store reached !! m = Some (PDFDict entries) /\
        store reached !! newRef = None /\
        store patched
        = <[m := PDFDict (dict_set (Repl.xObjKeyName r) (PDFRef newRef) entries)]>
            (<[newRef := img]> (store reached)) /\
        store final !! newRef = Some img /\
        ((forall r', r' ∈ after -> ~ touches_entry env doc r' m (Repl.xObjKeyName r)) ->
         exists entries',
           store final !! m = Some (PDFDict entries') /\
           dict_get (Repl.xObjKeyName r) entries' = Some (PDFRef newRef))) \/
     (snd (applyReplacement env reached r) = Overwritten /\
      store patched !! n = Some stream /\
      ((forall r', r' ∈ after -> ~ touches env doc r' n) ->
       store final !! n = Some stream))).
Proof.
  intros Hwf Hplan Hnull Hfetch reached patched final newRef stream.
  assert (Hurl : dataURLToUse (Repl.optimizedImg r) = Img.dataURL (Repl.optimizedImg r))
    by (unfold dataURLToUse; by rewrite Hnull).
  split.
  { unfold savePdf. rewrite Hplan, applyReplacements_app. done. }
  split; [done |].
  pose proof (buildPlan_sound doc pdfImages) as Hsound. rewrite Hplan in Hsound.
  apply Forall_app in Hsound as [_ [Hr Hafter]%Forall_cons].
  destruct (sound_target _ _ _ Hr) as (n & Hn & Hsome).
  destruct (applyReplacements_keeps env before doc n Hsome) as [old Hold].
  fold reached in Hold.
  destruct (applyReplacements_effect env before doc Hwf)
    as (Hpages0 & Hle0 & Hwf0 & _ & _).
  fold reached in Hpages0, Hle0, Hwf0.
  destruct (applyReplacement_store env reached r) as (Hpages1 & Hle1 & _).
  pose proof (applyReplacement_well_formed env reached r Hwf0) as Hwf1.
  fold patched in Hpages1, Hle1, Hwf1.
  destruct (applyReplacements_effect env after patched Hwf1)
    as (_ & _ & _ & Hobjects & Hentries).
  fold final in Hobjects, Hentries.
  assert (Hpages : pages patched = pages doc) by (by rewrite Hpages1).
  exists n, old. split; [done |]. split; [done |].
  rewrite <- Hurl in Hfetch. subst stream. rewrite <- Hurl.
  destruct (applyReplacement_outcome env reached r imageBytes n old Hwf0 Hfetch Hn Hold)
    as [(Hout & img & m & entries & Hembed & Hdict & Hm & Hstore & Hne & Hfree & Hlargest)
       | (Hout & Hstore)].
  - left. split; [done |]. exists img, m, entries.
    fold patched in Hstore, Hlargest. fold newRef in Hstore, Hne, Hfree, Hlargest.
    split; [done |]. split; [by rewrite <- (dictionaryOf_pages doc reached) |].
    split; [done |]. split; [done |]. split; [done |]. split.
    + rewrite Hobjects.
      * rewrite Hstore, lookup_insert_ne by done. apply lookup_insert_eq.
      * lia.
      * intros r' Hr' [_ [Ht | Hd]].
        -- rewrite Forall_forall in Hafter.
           destruct (sound_target _ _ _ (Hafter r' Hr')) as (t & Ht' & Hsome').
           rewrite Ht in Ht'. injection Ht' as <-.
           destruct Hwf as [Hbound _]. specialize (Hbound _ Hsome'). lia.
        -- rewrite (dictionaryOf_pages doc patched) in Hd by done.
           apply dictionaryOf_place in Hd as (page & Hpage & Hplace).
           destruct Hwf as [_ Hbound]. specialize (Hbound _ _ Hpage Hplace). lia.
    + intros Hnot.
      destruct (Hentries m (Repl.xObjKeyName r)
                  (dict_set (Repl.xObjKeyName r) (PDFRef newRef) entries))
        as (entries' & Hm' & Hget').
      * rewrite Hstore. apply lookup_insert_eq.
      * intros r' Hr'. rewrite (touches_entry_pages _ doc patched) by done. by apply Hnot.
      * exists entries'. split; [done |]. rewrite Hget'. apply dict_get_set.
  - right. split; [done |]. fold patched in Hstore. split; [done |].
    intros Hnot. rewrite Hobjects; [done | |].
    + destruct Hwf0 as [Hbound _].
      assert (Hsome0 : is_Some (store reached !! n)) by (by eexists).
      specialize (Hbound _ Hsome0). lia.
    + intros r' Hr'. rewrite (touches_pages _ doc patched) by done. by apply Hnot.
Qed.

Lemma unoptimized_record_is_reembedded_witness :
  let final := applyReplacements browser_env [tiny_failing; tiny_unoptimized] tiny_doc in
  fetchBytes browser_env tiny_png = Some tiny_png_bytes /\
  savePdf browser_env tiny_doc tiny_images = saveBytes browser_env final /\
  saveBytes browser_env final
  = Some ([Byte.x25; Byte.x50; Byte.x44; Byte.x46] ++ [Byte.x0a] ++ [Byte.x0b]
          ++ tiny_png_bytes) /\
  store final !! 4%nat = embedPng browser_env tiny_png_bytes /\
  (exists entries',
     store final !! 1%nat = Some (PDFDict entries') /\
     dict_get "Im2" entries' = Some (PDFRef 4)).
Proof.
  intros final.
  destruct (unoptimized_record_is_reembedded browser_env tiny_doc tiny_images
              [tiny_failing] tiny_unoptimized [] tiny_png_bytes
              tiny_doc_well_formed eq_refl eq_refl eq_refl)
    as (Hsave & _ & n & old & Hn & _ & Hcases).
  split; [reflexivity |]. split; [exact Hsave |]. split; [reflexivity |].
  destruct Hcases as [(_ & img & m & entries & Hembed & Hdict & _ & _ & _ & Hnew & Hentry)
                     | (Hout & _)]; [|by vm_compute in Hout].
  injection Hdict as <-. split.
  - rewrite Hembed. exact Hnew.
  - apply Hentry. intros r' Hr'. by apply elem_of_nil in Hr'.
Defined.

End SaveFacts.

(** * Properties of the extraction of a document *)
Module DocumentFacts.
Import Extract ExtractFacts Document.
Local Open Scope Q_scope.

(** ** Nested graphics states *)

Lemma step_stacks pg op st :
  moves_stacks op = false ->
  transformStack (fst (step pg op st)) = transformStack st /\
  clippingStack (fst (step pg op st)) = clippingStack st.
Proof.
  destruct op; simpl; try done; intros _.
  - unfold do_constructPath. by destruct pathData as [[|? [|? [|? [|? ?]]]]|].
  - by destruct (do_shadingFill_trackers pg st) as (? & _ & ? & _).
  - by destruct (do_paint_trackers pg XObject arg0 JUndefined st) as [(? & _ & ? & _) _].
  - by destruct (do_paint_trackers pg Inline arg0 JUndefined st) as [(? & _ & ? & _) _].
  - by destruct (do_paint_trackers pg FormXObject arg0 arg1 st) as [(? & _ & ? & _) _].
Qed.

Lemma nesting_neutral op body depth :
  moves_stacks op = false -> nesting (op :: body) depth = nesting body depth.
Proof. by destruct op. Qed.

Lemma scan_nested pg body :
  forall depth depth' st frames clips base baseClips,
    nesting body depth = Some depth' ->
    transformStack st = frames ++ base -> length frames = S depth ->
    clippingStack st = clips ++ baseClips -> length clips = S depth ->
    exists frames' clips',
      transformStack (scan pg body st) = frames' ++ base /\
      length frames' = S depth' /\
      clippingStack (scan pg body st) = clips' ++ baseClips /\
      length clips' = S depth' /\
      last clips' = last clips.
Proof.
  induction body as [|op body IH]; intros depth depth' st frames clips base baseClips
    Hnest Hframes Hlen Hclips Hlen'.
  - simpl in *. simplify_eq. by exists frames, clips.
  - cbn [scan]. destruct (moves_stacks op) eqn:Hmoves.
    + destruct op; try done; simpl in Hnest.
      * (* save *)
        destruct (IH (S depth) depth' (fst (step pg save st))
                    (currentTransform st :: frames) (currentClipBounds st :: clips)
                    base baseClips Hnest) as (frames' & clips' & H1 & H2 & H3 & H4 & H5);
          [simpl; by rewrite Hframes | simpl; by rewrite Hlen
          |simpl; by rewrite Hclips | simpl; by rewrite Hlen' |].
        exists frames', clips'. repeat split; try done. rewrite H5.
        by destruct clips.
      * (* restore *)
        destruct depth as [|below]; [done |].
        destruct frames as [|f1 [|f2 frames]]; simpl in Hlen; try lia.
        destruct clips as [|c1 [|c2 clips]]; simpl in Hlen'; try lia.
        destruct (IH below depth' (do_restore st) (f2 :: frames) (c2 :: clips)
                    base baseClips Hnest) as (frames' & clips' & H);
          [unfold do_restore; rewrite Hframes; simpl; by rewrite Hclips | simpl; lia
          |unfold do_restore; rewrite Hframes; simpl; by rewrite Hclips | simpl; lia |].
        by exists frames', clips'.
      * (* transform *)
        destruct frames as [|f1 frames]; [done |].
        destruct (IH depth depth' (do_transform a b c d e f st)
                    (multiply (Mat a b c d e f) (currentTransform st) :: frames) clips
                    base baseClips Hnest) as (frames' & clips' & H);
          [unfold do_transform; simpl; by rewrite Hframes | done | done | done |].
        by exists frames', clips'.
    + rewrite (nesting_neutral _ _ _ Hmoves) in Hnest.
      destruct (step_stacks pg op st Hmoves) as [Ht Hc].
      eapply (IH depth depth' _ frames clips); eauto; congruence.
Qed.

(** X1: a balanced run of operators between a [save] and its [restore]
    cannot leak: whatever transforms, paths, shadings and images the run
    holds, and however it nests further pairs, after the closing [restore]
    the transform stack, the current transform, the clipping stack and the
    current clip bounds are the ones before the opening [save]. *)
Theorem nested_scope_is_isolated pg st body :
  tracker_inv st ->
  nesting body 0 = Some 0%nat ->
  let st' := scan pg (save :: body ++ [restore]) st in
  transformStack st' = transformStack st /\
  currentTransform st' = currentTransform st /\
  clippingStack st' = clippingStack st /\
  currentClipBounds st' = currentClipBounds st.
Proof.
  intros [below Hinv] Hnest st'. subst st'.
  cbn [scan]. rewrite scan_app.
  destruct (scan_nested pg body 0 0 (fst (step pg save st))
              [currentTransform st] [currentClipBounds st]
              (transformStack st) (clippingStack st) Hnest)
    as (frames' & clips' & H1 & H2 & H3 & H4 & H5); try done.
  destruct frames' as [|f [|? ?]]; simplify_eq/=.
  destruct clips' as [|c [|? ?]]; simplify_eq/=.
  rewrite Hinv in H1.
  destruct (scan pg body (do_save st)) as [? ? ? stack ? clips ? ? ?].
  simpl in H1, H3. subst stack clips. unfold do_restore. simpl.
  by rewrite Hinv.
Qed.

Lemma nested_scope_is_isolated_witness :
  let body := [transform 2 0 0 2 1 1; save; constructPath [] (Some [0; 0; 4; 4]);
               restore; paintImageXObject (JString "Im1")] in
  currentTransform (scan ex_page (save :: body ++ [restore]) (initPage [] 0))
  = identity.
Proof.
  intros body.
  refine (proj1 (proj2 (nested_scope_is_isolated ex_page (initPage [] 0) body _ _))).
  - by exists [].
  - reflexivity.
Defined.

(** ** The depth of the two stacks *)

Lemma step_depths pg op st :
  length (transformStack st) = S (length (clippingStack st)) ->
  length (transformStack (fst (step pg op st)))
  = S (length (clippingStack (fst (step pg op st)))).
Proof.
  intros H. destruct (moves_stacks op) eqn:Hmoves.
  - destruct st as [? ? ? stack ? clips ? ? ?]; simpl in *.
    destruct op; try done; simpl.
    + lia.
    + unfold do_restore; simpl.
      destruct stack as [|f1 [|f2 stack]]; destruct clips as [|c1 clips]; simpl in *; lia.
    + destruct stack; simpl in *; lia.
  - destruct (step_stacks pg op st Hmoves) as [-> ->]. exact H.
Qed.

Lemma scan_depths pg ops st :
  length (transformStack st) = S (length (clippingStack st)) ->
  length (transformStack (scan pg ops st)) = S (length (clippingStack (scan pg ops st))).
Proof.
  revert st. induction ops as [|op ops IH]; intros st H; [done |].
  cbn [scan]. by apply IH, step_depths.
Qed.

(** X2: from the start of a page on, the transform stack is always one
    frame deeper than the clipping stack, whatever the operators; and a
    [restore] that meets the stack with its single bottom frame (one more
    [restore] than [save]) changes nothing at all. *)
Theorem unmatched_restore_changes_nothing pg images k ops :
  let st := scan pg ops (initPage images k) in
  length (transformStack st) = S (length (clippingStack st)) /\
  (length (transformStack st) = 1%nat -> step pg restore st = (st, Tracked)).
Proof.
  intros st.
  assert (H : length (transformStack st) = S (length (clippingStack st)))
    by (by apply scan_depths).
  split; [done |]. intros Hone. simpl. unfold do_restore.
  destruct st as [? ? ? stack ? clips ? ? ?]; simpl in *.
  destruct stack as [|f1 [|f2 stack]]; destruct clips as [|c clips]; simpl in *;
    try lia; done.
Qed.

Lemma unmatched_restore_changes_nothing_witness :
  let st := scan ex_page [save; constructPath [] (Some [0; 0; 4; 4]); restore]
              (initPage [] 0) in
  step ex_page restore st = (st, Tracked).
Proof.
  intros st.
  apply (unmatched_restore_changes_nothing ex_page [] 0%nat
           [save; constructPath [] (Some [0; 0; 4; 4]); restore]).
  reflexivity.
Defined.

(** ** The bounding box of a path *)

Lemma ltb_true x y : ltb x y = true <-> x < y.
Proof. apply (gtb_true y x). Qed.

Lemma ltb_false x y : ltb x y = false <-> y <= x.
Proof. apply (gtb_false y x). Qed.

Lemma widen lo hi v l :
  Forall (fun z => lo <= z /\ z <= hi) l -> lo ∈ l -> hi ∈ l ->
  let lo' := if ltb v lo then v else lo in
  let hi' := if gtb v hi then v else hi in
  Forall (fun z => lo' <= z /\ z <= hi') (l ++ [v]) /\ lo' ∈ l ++ [v] /\ hi' ∈ l ++ [v].
Proof.
  intros Hall Hlo Hhi lo' hi'.
  assert (Hord : lo <= hi) by (rewrite Forall_forall in Hall; by destruct (Hall _ Hlo)).
  assert (Hlo' : lo' <= lo /\ lo' <= v /\ lo' ∈ l ++ [v]).
  { subst lo'. destruct (ltb v lo) eqn:Hlt.
    - apply ltb_true in Hlt. split; [by apply Qlt_le_weak |]. split; [apply Qle_refl |].
      apply elem_of_app. right. by apply list_elem_of_singleton.
    - apply ltb_false in Hlt. split; [apply Qle_refl |]. split; [done |].
      apply elem_of_app. by left. }
  assert (Hhi' : hi <= hi' /\ v <= hi' /\ hi' ∈ l ++ [v]).
  { subst hi'. destruct (gtb v hi) eqn:Hgt.
    - apply gtb_true in Hgt. split; [by apply Qlt_le_weak |]. split; [apply Qle_refl |].
      apply elem_of_app. right. by apply list_elem_of_singleton.
    - apply gtb_false in Hgt. split; [apply Qle_refl |]. split; [done |].
      apply elem_of_app. by left. }
  destruct Hlo' as (Hlo1 & Hlo2 & Hlo3), Hhi' as (Hhi1 & Hhi2 & Hhi3).
  split; [|done]. apply Forall_app. split.
  - eapply Forall_impl; [exact Hall |]. intros z [Hz1 Hz2]. simpl.
    split; [by apply (Qle_trans _ lo) | by apply (Qle_trans _ hi)].
  - by repeat constructor.
Qed.

Lemma extend_encloses x y bb xs ys :
  encloses bb xs ys -> encloses (extend x y bb) (xs ++ [x]) (ys ++ [y]).
Proof.
  intros (Hx & Hy & Hminx & Hmaxx & Hminy & Hmaxy).
  destruct (widen _ _ x _ Hx Hminx Hmaxx) as (? & ? & ?).
  destruct (widen _ _ y _ Hy Hminy Hmaxy) as (? & ? & ?).
  by repeat split.
Qed.

Lemma extend_x_encloses x bb xs ys :
  encloses bb xs ys -> encloses (extend_x x bb) (xs ++ [x]) ys.
Proof.
  intros (Hx & Hy & Hminx & Hmaxx & Hminy & Hmaxy).
  destruct (widen _ _ x _ Hx Hminx Hmaxx) as (? & ? & ?).
  by repeat split.
Qed.

Lemma boundsLoop_encloses rest bb xs ys :
  encloses bb xs ys ->
  encloses (boundsLoop rest bb) (xs ++ xcoords rest) (ys ++ ycoords rest).
Proof.
  revert bb xs ys. induction rest as [rest IH] using (induction_ltof1 _ (@length _)).
  unfold ltof in IH. intros bb xs ys H.
  destruct rest as [|x [|y rest]]; simpl.
  - by rewrite !app_nil_r.
  - rewrite app_nil_r. by apply extend_x_encloses.
  - rewrite (cons_middle x xs), (cons_middle y ys), !app_assoc.
    apply IH; [simpl; lia | by apply extend_encloses].
Qed.

(** X3: the clip bounds taken from a path of at least two coordinate pairs
    enclose every coordinate of the path, and each of the four sides is the
    coordinate of one of its points. *)
Theorem path_bounds_enclose_the_path pg st pathOps pathData :
  (4 <= length pathData)%nat ->
  exists bb,
    currentClipBounds (fst (step pg (constructPath pathOps (Some pathData)) st)) = Some bb /\
    Forall (fun x => minX bb <= x /\ x <= maxX bb) (xcoords pathData) /\
    Forall (fun y => minY bb <= y /\ y <= maxY bb) (ycoords pathData) /\
    minX bb ∈ xcoords pathData /\ maxX bb ∈ xcoords pathData /\
    minY bb ∈ ycoords pathData /\ maxY bb ∈ ycoords pathData.
Proof.
  intros Hlen.
  destruct pathData as [|x0 [|y0 [|x1 [|y1 rest]]]]; simpl in Hlen; try lia.
  eexists. split; [reflexivity |].
  apply (boundsLoop_encloses (x1 :: y1 :: rest) _ [x0] [y0]).
  unfold encloses; simpl.
  repeat split; try (by repeat constructor; try apply Qle_refl);
    by apply list_elem_of_singleton.
Qed.

Lemma path_bounds_enclose_the_path_witness :
  exists bb,
    currentClipBounds
      (fst (step ex_page (constructPath [] (Some [5; 1; 2; 8; 9; 3; 4])) (initPage [] 0)))
    = Some bb /\
    minX bb ∈ [5; 2; 9; 4] /\ maxY bb ∈ [1; 8; 3].
Proof.
  destruct (path_bounds_enclose_the_path ex_page (initPage [] 0) []
              [5; 1; 2; 8; 9; 3; 4] ltac:(simpl; lia))
    as (bb & Hbb & _ & _ & Hminx & _ & _ & Hmaxy).
  by exists bb.
Defined.

(** ** Runs of [transform] operators *)

Lemma Meq_refl m : Meq m m.
Proof. unfold Meq. by repeat split. Qed.

Lemma Meq_sym m n : Meq m n -> Meq n m.
Proof. unfold Meq. intros (? & ? & ? & ? & ? & ?). by repeat split. Qed.

Lemma Meq_trans m n p : Meq m n -> Meq n p -> Meq m p.
Proof.
  unfold Meq. intros (Ha & Hb & Hc & Hd & He & Hf) (Ha' & Hb' & Hc' & Hd' & He' & Hf').
  repeat split; etransitivity; eauto.
Qed.

Lemma multiply_Meq m m' n n' :
  Meq m m' -> Meq n n' -> Meq (multiply m n) (multiply m' n').
Proof.
  destruct m, m', n, n'. unfold Meq; simpl.
  intros (Ha & Hb & Hc & Hd & He & Hf) (Ha' & Hb' & Hc' & Hd' & He' & Hf').
  repeat split;
    rewrite ?Ha, ?Hb, ?Hc, ?Hd, ?He, ?Hf, ?Ha', ?Hb', ?Hc', ?Hd', ?He', ?Hf'; reflexivity.
Qed.

Lemma multiply_assoc a b c :
  Meq (multiply c (multiply b a)) (multiply (multiply c b) a).
Proof. destruct a, b, c. unfold Meq; simpl. repeat split; ring. Qed.

Lemma multiply_identity m :
  Meq (multiply m identity) m /\ Meq (multiply identity m) m.
Proof. destruct m. unfold Meq; simpl. repeat split; ring. Qed.

Lemma transformOp_step pg m st :
  fst (step pg (transformOp m) st)
  = set_transform (replace_top (multiply m (currentTransform st)) (transformStack st))
      (multiply m (currentTransform st)) st.
Proof. by destruct m. Qed.

Lemma scan_transforms pg ms st :
  currentTransform (scan pg (transformOp <$> ms) st)
  = foldl (fun acc m => multiply m acc) (currentTransform st) ms.
Proof.
  revert st. induction ms as [|m ms IH]; intros st; [done |].
  rewrite fmap_cons. cbn [scan foldl]. by rewrite IH, transformOp_step.
Qed.

Lemma foldl_multiply_Meq ms x y :
  Meq x y ->
  Meq (foldl (fun acc m => multiply m acc) x ms) (foldl (fun acc m => multiply m acc) y ms).
Proof.
  revert x y. induction ms as [|m ms IH]; intros x y H; [done |].
  cbn [foldl]. apply IH, multiply_Meq; [apply Meq_refl | done].
Qed.

Lemma foldl_multiply_product ms p c :
  Meq (foldl (fun acc m => multiply m acc) (multiply p c) ms)
      (multiply (foldl (fun acc m => multiply m acc) p ms) c).
Proof.
  revert p. induction ms as [|m ms IH]; intros p; [apply Meq_refl |].
  cbn [foldl]. eapply Meq_trans; [|apply IH].
  apply foldl_multiply_Meq, multiply_assoc.
Qed.

(** X4: the product of the code is associative and has the identity matrix as
    neutral element (numerically), so a run of [transform] operators leaves
    the product of their matrices, each multiplied onto the ones before,
    multiplied onto the transform that was current before the run. *)
Theorem transforms_compose pg st ms :
  Meq (currentTransform (scan pg (transformOp <$> ms) st))
      (multiply (product ms) (currentTransform st)) /\
  (forall ms', Meq (product (ms ++ ms')) (multiply (product ms') (product ms))) /\
  (forall a b c, Meq (multiply c (multiply b a)) (multiply (multiply c b) a)) /\
  (forall m, Meq (multiply m identity) m /\ Meq (multiply identity m) m).
Proof.
  split; [|split; [|split]].
  - rewrite scan_transforms. unfold product.
    eapply Meq_trans; [|apply foldl_multiply_product].
    apply foldl_multiply_Meq, Meq_sym, multiply_identity.
  - intros ms'. unfold product. rewrite foldl_app.
    eapply Meq_trans; [|apply foldl_multiply_product].
    apply foldl_multiply_Meq, Meq_sym, multiply_identity.
  - apply multiply_assoc.
  - apply multiply_identity.
Qed.

(** ** The records of a page *)

Lemma fresh_newImage pg st url size w h suffix :
  fresh pg (newImage st pg url size w h
              ("page-" +:+ pretty (pageNum pg) +:+ "-" +:+ suffix)).
Proof. repeat split. by exists suffix. Qed.

Lemma do_paint_record pg kind arg0 arg1 st :
  let res := do_paint pg kind arg0 arg1 st in
  (snd res = Emitted /\
   exists img,
     allImages (fst res) = allImages st ++ [img] /\
     Img.index img = imageIndex st /\
     imageIndex (fst res) = S (imageIndex st) /\
     fresh pg img) \/
  (is_emitted (snd res) = false /\
   allImages (fst res) = allImages st /\
   (imageIndex st <= imageIndex (fst res))%nat).
Proof.
  intros res. subst res. unfold do_paint.
  destruct (invalidImageName _); [by right |].
  destruct (existsb _ _); [by right |].
  destruct (negb _); [by right |].
  destruct (has_bitmap _) as [obj|].
  - unfold extractBitmap.
    destruct (drawBitmap pg obj) as [url|]; [|by right].
    destruct (estimateDataURLSize url) as [size|]; [|right; simpl; repeat split; lia].
    left. split; [done |]. eexists. split; [reflexivity |].
    split; [done |]. split; [done |]. apply fresh_newImage.
  - destruct kind; try by right.
    unfold extractForm.
    destruct (transformedSize _ _) as [tw th].
    destruct (gtb tw 1 && gtb th 1); [|by right].
    destruct (cropPage _ _ _ _ _) as [url|]; [|by right].
    destruct (estimateDataURLSize url) as [size|]; [|right; simpl; repeat split; lia].
    left. split; [done |]. eexists. split; [reflexivity |].
    split; [done |]. split; [done |].
    apply (fresh_newImage pg st url size tw th ("form-" +:+ _)).
Qed.

Lemma step_record pg op st :
  (snd (step pg op st) = Emitted /\
   exists img,
     allImages (fst (step pg op st)) = allImages st ++ [img] /\
     Img.index img = imageIndex st /\
     imageIndex (fst (step pg op st)) = S (imageIndex st) /\
     fresh pg img) \/
  (is_emitted (snd (step pg op st)) = false /\
   allImages (fst (step pg op st)) = allImages st /\
   (imageIndex st <= imageIndex (fst (step pg op st)))%nat).
Proof.
  destruct op; simpl; try (right; repeat split; done).
  - right. unfold do_restore. destruct (transformStack st) as [|? [|? ?]];
      by destruct (clippingStack _).
  - right. unfold do_constructPath.
    by destruct pathData as [[|? [|? [|? [|? ?]]]]|].
  - unfold do_shadingFill.
    destruct (currentClipBounds st) as [cb|]; [|by right].
    destruct (shadingRegion pg cb (currentTransform st)) as [[[x y] w] h].
    destruct (gtb w 1 && gtb h 1); [|by right].
    destruct (cropPage pg x y w h) as [url|]; [|by right].
    destruct (estimateDataURLSize url) as [size|]; [|right; simpl; repeat split; lia].
    left. split; [done |]. eexists. split; [reflexivity |].
    split; [done |]. split; [done |].
    apply (fresh_newImage pg st url size w h ("shading-" +:+ _)).
  - apply do_paint_record.
  - apply do_paint_record.
  - apply do_paint_record.
Qed.

Lemma step_indexed pg op st :
  indexed (allImages st) (imageIndex st) ->
  indexed (allImages (fst (step pg op st))) (imageIndex (fst (step pg op st))).
Proof.
  intros [Hsorted Hbelow].
  destruct (step_record pg op st)
    as [(_ & img & -> & Hidx & -> & _) | (_ & -> & Hle)].
  - split.
    + apply StronglySorted_app_2; [|done | repeat constructor].
      intros a b Ha ->%list_elem_of_singleton. rewrite Forall_forall in Hbelow.
      rewrite Hidx. by apply Hbelow.
    + apply Forall_app. split.
      * eapply Forall_impl; [exact Hbelow |]. intros a Ha. simpl in *. lia.
      * constructor; [lia | constructor].
  - split; [done |]. eapply Forall_impl; [exact Hbelow |]. intros a Ha. simpl in *. lia.
Qed.

Lemma scan_indexed pg ops st :
  indexed (allImages st) (imageIndex st) ->
  indexed (allImages (scan pg ops st)) (imageIndex (scan pg ops st)).
Proof.
  revert st. induction ops as [|op ops IH]; intros st H; [done |].
  cbn [scan]. by apply IH, step_indexed.
Qed.

Lemma scan_records pg ops st :
  exists new,
    allImages (scan pg ops st) = allImages st ++ new /\
    Forall (fresh pg) new /\
    length new = length (List.filter is_emitted (outcomes pg ops st)).
Proof.
  revert st. induction ops as [|op ops IH]; intros st.
  - exists []. simpl. by rewrite app_nil_r.
  - cbn [scan outcomes]. destruct (IH (fst (step pg op st))) as (new & Hnew & Hfresh & Hlen).
    destruct (step_record pg op st)
      as [(Hout & img & Himgs & _ & _ & Himg) | (Hout & Himgs & _)].
    + exists (img :: new). rewrite Hnew, Himgs, <- app_assoc. split; [done |].
      split; [by constructor |]. simpl. rewrite Hout. simpl. by rewrite Hlen.
    + exists new. rewrite Hnew, Himgs. split; [done |]. split; [done |].
      simpl. by rewrite Hout.
Qed.

(** ** The keys of the matching pass *)

Lemma pretty_N_char_digit x : is_digit (pretty_N_char x) = true.
Proof. unfold pretty_N_char. by repeat case_match. Qed.

Lemma pretty_N_go_digits x s :
  all_digits s = true -> all_digits (pretty_N_go x s) = true.
Proof.
  revert s. induction (N.lt_wf_0 x) as [x _ IH]; intros s Hs.
  assert (x = 0 \/ 0 < x)%N as [-> | Hpos] by lia; [by rewrite pretty_N_go_0 |].
  rewrite pretty_N_go_step by done. apply IH; [by apply N.div_lt |].
  simpl. by rewrite pretty_N_char_digit.
Qed.

Lemma pretty_nat_digits (n : nat) : all_digits (pretty n) = true.
Proof.
  unfold pretty, pretty_nat, pretty, pretty_N.
  case_decide; [done | by apply pretty_N_go_digits].
Qed.

Lemma dash_splits a a' b b' :
  all_digits a = true -> all_digits a' = true ->
  a +:+ "-" +:+ b = a' +:+ "-" +:+ b' -> a = a' /\ b = b'.
Proof.
  revert a'. induction a as [|c a IH]; intros [|c' a'] Ha Ha' Heq; simpl in *.
  - by simplify_eq.
  - by simplify_eq.
  - by simplify_eq.
  - apply andb_true_iff in Ha as [_ Ha]. apply andb_true_iff in Ha' as [_ Ha'].
    injection Heq as -> Heq. destruct (IH a' Ha Ha' Heq) as [-> ->]. done.
Qed.

Lemma imgKey_inj a b :
  Save.imgKey a = Save.imgKey b ->
  Img.pageNum a = Img.pageNum b /\ Img.index a = Img.index b.
Proof.
  unfold Save.imgKey. intros Heq.
  apply dash_splits in Heq as [Hp Hi]; try apply pretty_nat_digits.
  split; by apply (inj pretty).
Qed.

(** ** The records of a document *)

Lemma fresh_extracted pg img :
  fresh pg img -> extracted_record img /\ Img.pageNum img = pageNum pg.
Proof.
  intros (Hp & Ho & Hu & Hs & suffix & Hname). split; [|done].
  repeat split; try done. exists suffix. by rewrite Hp.
Qed.

Lemma extractPages_spec pageNum pages images imageIndex result :
  extractPages pageNum pages images imageIndex = Some result ->
  indexed images imageIndex ->
  StronglySorted (fun a b => (Img.pageNum a <= Img.pageNum b)%nat) images ->
  Forall (fun img => (Img.pageNum img < pageNum)%nat) images ->
  Forall (fun page => is_Some page) pages /\
  (exists new,
     result = images ++ new /\
     Forall (fun img => (pageNum <= Img.pageNum img < pageNum + length pages)%nat /\
                        extracted_record img) new) /\
  StronglySorted (fun a b => (Img.index a < Img.index b)%nat) result /\
  StronglySorted (fun a b => (Img.pageNum a <= Img.pageNum b)%nat) result.
Proof.
  revert pageNum images imageIndex.
  induction pages as [|[[pg ops]|] pages IH]; intros pageNum images imageIndex
    Hresult Hindexed Hpages Hbelow; simpl in Hresult; [| |done].
  - simplify_eq. split; [constructor |]. split; [|by destruct Hindexed].
    exists []. by rewrite app_nil_r.
  - set (st := scan (at_pageNum pageNum pg) ops (initPage images imageIndex)) in *.
    destruct (scan_records (at_pageNum pageNum pg) ops (initPage images imageIndex))
      as (new & Hnew & Hfresh & _).
    fold st in Hnew. simpl in Hnew.
    assert (Hnew' : Forall (fun img => extracted_record img /\ Img.pageNum img = pageNum) new).
    { eapply Forall_impl; [exact Hfresh |]. intros img Himg.
      by apply fresh_extracted in Himg. }
    destruct (IH (S pageNum) (allImages st) (Extract.imageIndex st) Hresult)
      as (Hsome & (new' & -> & Hnew'') & Hsorted & Hsorted').
    + by apply scan_indexed.
    + rewrite Hnew. apply StronglySorted_app_2; [|done |].
      * intros a b Ha Hb. rewrite Forall_forall in Hbelow, Hnew'.
        apply Hbelow in Ha. apply Hnew' in Hb as [_ Hb]. lia.
      * clear -Hnew'. induction Hnew' as [|img new [_ Himg] Hnew' IHnew]; constructor;
          [done |]. eapply Forall_impl; [exact Hnew' |]. intros b [_ Hb]. simpl. lia.
    + rewrite Hnew. apply Forall_app. split.
      * eapply Forall_impl; [exact Hbelow |]. intros a Ha. simpl in *. lia.
      * eapply Forall_impl; [exact Hnew' |]. intros a [_ Ha]. simpl in *. lia.
    + split; [by constructor |]. split; [|done].
      exists (new ++ new'). rewrite Hnew, <- app_assoc. split; [done |].
      apply Forall_app. split.
      * eapply Forall_impl; [exact Hnew' |]. intros a [Ha Hp]. simpl in *.
        split; [lia | done].
      * eapply Forall_impl; [exact Hnew'' |]. intros a [Ha Hp]. simpl in *.
        split; [lia | done].
Qed.

Lemma sorted_indices_keys (images : list Img.t) :
  StronglySorted (fun a b => (Img.index a < Img.index b)%nat) images ->
  NoDup (Save.imgKey <$> images).
Proof.
  induction 1 as [|img images Hsorted IH Hall]; [constructor |].
  rewrite fmap_cons. constructor; [|done].
  intros (img' & Hkey & Hin)%list_elem_of_fmap.
  apply imgKey_inj in Hkey as [_ Hidx].
  rewrite Forall_forall in Hall. apply Hall in Hin. lia.
Qed.

Lemma sorted_indices_nodup (images : list Img.t) :
  StronglySorted (fun a b => (Img.index a < Img.index b)%nat) images ->
  NoDup (Img.index <$> images).
Proof.
  induction 1 as [|img images Hsorted IH Hall]; [constructor |].
  rewrite fmap_cons. constructor; [|done].
  intros (img' & Hidx & Hin)%list_elem_of_fmap.
  rewrite Forall_forall in Hall. apply Hall in Hin. lia.
Qed.

(** X5: a successful extraction of the embedded images has met no failing
    page; its records carry strictly growing indices, so no two of them
    share an index or a page-index key of the matching pass; they come page
    by page, with page numbers between 1 and the number of pages; and each is
    unoptimized and named page-n-... after its own page. *)
Theorem extraction_records pages images :
  extractEmbeddedImages (Some pages) = Some images ->
  Forall (fun page => is_Some page) pages /\
  StronglySorted (fun a b => (Img.index a < Img.index b)%nat) images /\
  NoDup (Img.index <$> images) /\
  NoDup (Save.imgKey <$> images) /\
  StronglySorted (fun a b => (Img.pageNum a <= Img.pageNum b)%nat) images /\
  Forall (fun img => (1 <= Img.pageNum img <= length pages)%nat /\ extracted_record img)
         images.
Proof.
  intros Hresult. simpl in Hresult.
  destruct (extractPages_spec 1 pages [] 0 images Hresult)
    as (Hsome & (new & -> & Hnew) & Hsorted & Hsorted');
    [split; constructor | constructor | constructor |].
  simpl in *. split; [done |]. split; [done |].
  split; [by apply sorted_indices_nodup |].
  split; [by apply sorted_indices_keys |]. split; [done |].
  eapply Forall_impl; [exact Hnew |]. intros img [Hp Himg]. simpl in *.
  split; [lia | done].
Qed.

Lemma extraction_records_witness :
  let pages := [Some (ex_page, [paintImageXObject (JString "Im1"); shadingFill]);
                None] in
  extractEmbeddedImages (Some pages) = None /\
  NoDup (Save.imgKey <$>
         [Img.mk 0 "data:image/png;base64,AAAA" 3 300 200 1 "page-1-Im1" false None 0;
          Img.mk 1 "data:image/png;base64,AAAA" 3 300 200 2 "page-2-Im1" false None 0]).
Proof.
  split; [reflexivity |].
  refine (proj1 (proj2 (proj2 (proj2
    (extraction_records
       [Some (ex_page, [paintImageXObject (JString "Im1")]);
        Some (ex_page, [dependency JNull; paintImageXObject (JString "Im1")])]
       _ _))))).
  by vm_compute.
Defined.

(** ** Rendered pages *)

Lemma renderPages_spec pageNum pages images result :
  renderPages pageNum pages images = Some result ->
  exists new,
    result = images ++ new /\
    length new = length pages /\
    forall i img,
      new !! i = Some img ->
      exists canvas size,
        pages !! i = Some (Some canvas) /\
        estimateDataURLSize (canvas_dataURL canvas) = Some size /\
        img = {| Img.index := pageNum + i - 1; Img.dataURL := canvas_dataURL canvas;
                 Img.originalSize := size;
                 Img.width := canvas_width canvas; Img.height := canvas_height canvas;
                 Img.pageNum := pageNum + i;
                 Img.imageName := "page-" +:+ pretty (pageNum + i)%nat;
                 Img.isOptimized := false; Img.optimizedDataURL := None;
                 Img.optimizedSize := 0 |}.
Proof.
  revert pageNum images. induction pages as [|[canvas|] pages IH];
    intros pageNum images Hresult; simpl in Hresult; [| |done].
  - simplify_eq. exists []. by rewrite app_nil_r.
  - destruct (estimateDataURLSize (canvas_dataURL canvas)) as [size|] eqn:Hsize; [|done].
    apply IH in Hresult as (new & -> & Hlen & Hnew).
    eexists (_ :: new). rewrite <- app_assoc. split; [reflexivity |].
    split; [simpl; by rewrite Hlen |].
    intros [|i] img Himg; simpl in Himg.
    + simplify_eq. exists canvas, size. rewrite !Nat.add_0_r. by repeat split.
    + destruct (Hnew i img Himg) as (canvas' & size' & Hpage & Hsize' & ->).
      exists canvas', size'. split; [done |]. split; [done |].
      by replace (S pageNum + i)%nat with (pageNum + S i)%nat by lia.
Qed.

(** X6: [renderPdfPages] is all or nothing.  When it returns, every page was
    rendered and the list has one record per page, in page order: the record
    at position i has index i, page number i+1, name page-(i+1), the size of
    the canvas, and is unoptimized.  A page that fails leaves no result. *)
Theorem rendered_pages pages images :
  renderPdfPages (Some pages) = Some images ->
  length images = length pages /\
  (forall i img,
     images !! i = Some img ->
     exists canvas size,
       pages !! i = Some (Some canvas) /\
       estimateDataURLSize (canvas_dataURL canvas) = Some size /\
       img = {| Img.index := i; Img.dataURL := canvas_dataURL canvas;
                Img.originalSize := size;
                Img.width := canvas_width canvas; Img.height := canvas_height canvas;
                Img.pageNum := S i;
                Img.imageName := "page-" +:+ pretty (S i);
                Img.isOptimized := false; Img.optimizedDataURL := None;
                Img.optimizedSize := 0 |}) /\
  Forall (fun page => is_Some page) pages.
Proof.
  intros Hresult. simpl in Hresult.
  apply renderPages_spec in Hresult as (new & -> & Hlen & Hnew). simpl.
  split; [done |].
  assert (Hat : forall i img,
             new !! i = Some img ->
             exists canvas size,
               pages !! i = Some (Some canvas) /\
               estimateDataURLSize (canvas_dataURL canvas) = Some size /\
               img = {| Img.index := i; Img.dataURL := canvas_dataURL canvas;
                        Img.originalSize := size;
                        Img.width := canvas_width canvas;
                        Img.height := canvas_height canvas;
                        Img.pageNum := S i;
                        Img.imageName := "page-" +:+ pretty (S i);
                        Img.isOptimized := false; Img.optimizedDataURL := None;
                        Img.optimizedSize := 0 |}).
  { intros i img Himg. destruct (Hnew i img Himg) as (canvas & size & ? & ? & ->).
    exists canvas, size. split; [done |]. split; [done |].
    by replace (1 + i - 1)%nat with i by lia. }
  split; [done |].
  apply Forall_forall. intros page Hpage.
  apply list_elem_of_lookup in Hpage as [i Hi].
  assert (Hlt : (i < length new)%nat) by (rewrite Hlen; by eapply lookup_lt_Some).
  apply lookup_lt_is_Some in Hlt as [img Himg].
  destruct (Hat i img Himg) as (canvas & _ & Hpage & _). by simplify_eq.
Qed.

Lemma rendered_pages_witness :
  length [Img.mk 0 "data:image/png;base64,AAAA" 3 1224 1584 1 "page-1" false None 0]
  = length [Some {| canvas_width := 1224; canvas_height := 1584;
                    canvas_dataURL := "data:image/png;base64,AAAA" |}].
Proof.
  refine (proj1 (rendered_pages
                   [Some {| canvas_width := 1224; canvas_height := 1584;
                            canvas_dataURL := "data:image/png;base64,AAAA" |}] _ _)).
  reflexivity.
Defined.

(** ** The full-page test of the save handler *)

Lemma page_dash_is_not_page_underscore suffix :
  String.prefix "page_" ("page-" +:+ suffix) = false.
Proof. reflexivity. Qed.

(** X7: the records of either extraction mode are named page-..., with a
    hyphen, while the save handler takes its full-page branch only for a
    first record named page_..., with an underscore: on the output of
    [extractPdfImages] the handler never takes that branch. *)
Theorem full_page_branch_not_taken pdf mode images :
  extractPdfImages pdf mode = Some images -> isFullPageMode images = false.
Proof.
  unfold extractPdfImages. intros Hresult.
  destruct images as [|img images]; [done |]. simpl.
  destruct (String.eqb mode "images").
  - destruct (operatorPages pdf) as [pages|]; [|done]. simpl in Hresult.
    destruct (extractPages_spec 1 pages [] 0 _ Hresult)
      as (_ & (new & Hnew & Hall) & _); [split; constructor | constructor | constructor |].
    simpl in Hnew. subst new.
    apply Forall_cons in Hall as [[_ (_ & _ & _ & suffix & ->)] _].
    apply page_dash_is_not_page_underscore.
  - destruct (String.eqb mode "fullpages"); [|done].
    destruct (renderedPages pdf) as [pages|]; [|done]. simpl in Hresult.
    apply renderPages_spec in Hresult as (new & Hnew & _ & Hat).
    simpl in Hnew. subst new.
    destruct (Hat 0%nat img eq_refl) as (canvas & size & _ & _ & ->).
    apply page_dash_is_not_page_underscore.
Qed.

Lemma full_page_branch_not_taken_witness :
  isFullPageMode
    [Img.mk 0 "data:image/png;base64,AAAA" 3 1224 1584 1 "page-1" false None 0] = false.
Proof.
  apply (full_page_branch_not_taken
           {| operatorPages := None;
              renderedPages :=
                Some [Some {| canvas_width := 1224; canvas_height := 1584;
                              canvas_dataURL := "data:image/png;base64,AAAA" |}] |}
           "fullpages").
  reflexivity.
Defined.

End DocumentFacts.

(** * Further properties of the save handler *)
Module SaveMoreFacts.
Import Save SaveFacts SaveMore.
Local Open Scope Q_scope.

(** ** The size of the plan *)

Lemma matchEntries_length doc images pageNum entries p :
  plan_inv doc images p ->
  (length (replacements (foldl (matchEntry doc (groupByPage images) pageNum) p entries))
   <= length (replacements p) + length entries)%nat.
Proof.
  revert p. induction entries as [|[key ref] entries IH]; intros p Hinv;
    cbn [foldl length]; [lia |].
  destruct (matchEntry_step doc images pageNum p key ref Hinv) as [Hinv' Hstep].
  specialize (IH _ Hinv').
  destruct Hstep as [Hsame | (r & Hone & _)].
  - rewrite Hsame in IH. lia.
  - rewrite Hone, length_app in IH. cbn [length] in IH. lia.
Qed.

Lemma matchPages_length doc images pageIdx rest p :
  plan_inv doc images p ->
  (length (replacements (matchPages doc (groupByPage images) pageIdx rest p))
   <= length (replacements p) + visitedEntries doc rest)%nat.
Proof.
  revert pageIdx p. induction rest as [|page rest IH]; intros pageIdx p Hinv; simpl.
  - unfold visitedEntries. simpl. lia.
  - unfold visitedEntries in *. rewrite !fmap_cons. simpl.
    pose proof (matchEntries_length doc images (pageIdx + 1) (xObjectEntries doc page) p Hinv)
      as Hpage.
    pose proof (IH (S pageIdx) (matchPage doc (groupByPage images) (pageIdx + 1) page p)
                  (matchEntries_inv doc images _ _ p Hinv)) as Hrest.
    unfold matchPage in *. lia.
Qed.

Lemma used_records_distinct (plan : list Repl.t) :
  NoDup (usedKey <$> plan) -> NoDup (Repl.optimizedImg <$> plan).
Proof.
  intros Hkeys. apply (NoDup_fmap_1 imgKey). by rewrite <- list_fmap_compose.
Qed.

(** X8: the plan never holds more replacements than there are records, nor
    more than there are XObject entries on the pages: a record is used at
    most once and an entry is planned at most once. *)
Theorem plan_is_bounded doc pdfImages :
  let plan := replacements (buildPlan doc pdfImages) in
  (length plan <= length pdfImages)%nat /\
  (length plan <= visitedEntries doc (pages doc))%nat /\
  NoDup (Repl.optimizedImg <$> plan) /\
  Repl.optimizedImg <$> plan ⊆ pdfImages.
Proof.
  intros plan.
  destruct (matchPages_inv doc pdfImages 0 (pages doc) emptyPlan (emptyPlan_inv _ _))
    as (_ & Hkeys & Hsound).
  fold (buildPlan doc pdfImages) in Hkeys, Hsound. fold plan in Hkeys, Hsound.
  assert (Hdistinct : NoDup (Repl.optimizedImg <$> plan)) by by apply used_records_distinct.
  assert (Hsub : Repl.optimizedImg <$> plan ⊆ pdfImages).
  { intros img (r & -> & Hr)%list_elem_of_fmap.
    rewrite Forall_forall in Hsound. by destruct (Hsound r Hr). }
  split; [|split; [|done]].
  - rewrite <- (length_fmap Repl.optimizedImg plan).
    by apply submseteq_length, NoDup_submseteq.
  - pose proof (matchPages_length doc pdfImages 0 (pages doc) emptyPlan (emptyPlan_inv _ _)).
    simpl in *. done.
Qed.

(** ** Records that match nothing *)

(** X9: when no record has both the page number and the size of an image
    XObject entry of that page, the plan is empty and the handler saves the
    document it loaded, unpatched; so it is for an empty record list. *)
Theorem unmatched_records_leave_document env doc pdfImages :
  (forall page, page ∈ pages doc -> NoDup (fst <$> xObjectEntries doc page)) ->
  (forall img pageIdx page key ref width height,
     img ∈ pdfImages ->
     Img.pageNum img = S pageIdx ->
     pages doc !! pageIdx = Some page ->
     (key, ref) ∈ xObjectEntries doc page ->
     imageXObjectSize doc ref = Some (Some width, Some height) ->
     ~ (Img.width img == width /\ Img.height img == height)) ->
  replacements (buildPlan doc pdfImages) = [] /\
  savePdf env doc pdfImages = saveBytes env doc.
Proof.
  intros Hkeys Hnone.
  assert (Hplan : replacements (buildPlan doc pdfImages) = []).
  { destruct (matchPages_step doc pdfImages [] (pages doc) emptyPlan eq_refl Hkeys
                (emptyPlan_inv _ _)) as ((_ & _ & Hsound) & _ & Hplaced);
      [constructor | constructor |].
    simpl in Hsound, Hplaced. fold (buildPlan doc pdfImages) in Hsound, Hplaced.
    destruct (replacements (buildPlan doc pdfImages)) as [|r plan]; [done |].
    apply Forall_cons in Hsound as [(Hin & Hpage & Hw & Hh & Hsize) _].
    apply Forall_cons in Hplaced as [(pageIdx & page & Hnum & Hlookup & Hentry) _].
    exfalso. eapply (Hnone _ pageIdx page); eauto. congruence. }
  split; [done |]. unfold savePdf. by rewrite Hplan.
Qed.

Lemma ex_strangers_unmatched img pageIdx page key ref width height :
  img ∈ ex_strangers ->
  Img.pageNum img = S pageIdx ->
  pages ex_doc !! pageIdx = Some page ->
  (key, ref) ∈ xObjectEntries ex_doc page ->
  imageXObjectSize ex_doc ref = Some (Some width, Some height) ->
  ~ (Img.width img == width /\ Img.height img == height).
Proof.
  intros Himg Hnum Hpage Hentry Hsize [Hw Hh].
  destruct pageIdx as [|[|?]]; simplify_eq/=.
  apply elem_of_cons in Himg as [->|Himg]; [done |].
  apply list_elem_of_singleton in Himg as ->. simpl in *.
  unfold xObjectEntries in Hentry. simpl in Hentry.
  repeat (apply elem_of_cons in Hentry as [Hentry|Hentry]; [simplify_eq; vm_compute in Hsize;
    simplify_eq; try (by vm_compute in Hh); try (by vm_compute in Hw) |]).
  by apply elem_of_nil in Hentry.
Qed.

Lemma unmatched_records_leave_document_witness :
  savePdf ex_env ex_doc ex_strangers = saveBytes ex_env ex_doc.
Proof.
  apply (unmatched_records_leave_document ex_env ex_doc ex_strangers).
  - apply ex_doc_keys.
  - apply ex_strangers_unmatched.
Defined.

(** ** What the patch loop does to the store *)

Lemma applyReplacement_grows env doc r :
  let doc' := fst (applyReplacement env doc r) in
  (largestObjectNumber doc' <= S (largestObjectNumber doc))%nat /\
  forall n,
    store doc !! n = None -> is_Some (store doc' !! n) ->
    n = S (largestObjectNumber doc) /\ largestObjectNumber doc' = S (largestObjectNumber doc).
Proof.
  unfold applyReplacement.
  destruct (fetchBytes env _) as [imageBytes|]; simpl;
    [|split; [lia | by intros n -> [? ?]]].
  destruct (lookup doc (Repl.xObjRef r)) as [old|] eqn:Hold; simpl;
    [|split; [lia | by intros n -> [? ?]]].
  assert (Hover : forall d dict,
             (forall n, store doc !! n = None -> is_Some (store d !! n) ->
                        n = S (largestObjectNumber doc)
                        /\ largestObjectNumber d = S (largestObjectNumber doc)) ->
             forall n, store doc !! n = None ->
                       is_Some (store (overwrite (Repl.xObjRef r) dict imageBytes d) !! n) ->
                       n = S (largestObjectNumber doc)
                       /\ largestObjectNumber (overwrite (Repl.xObjRef r) dict imageBytes d)
                          = S (largestObjectNumber doc)).
  { intros d dict Hd n Hnone Hsome.
    destruct (Repl.xObjRef r) as [?|?|m|m]; simpl in *; try by apply Hd.
    - destruct (decide (m = n)) as [->|Hne]; [congruence |].
      rewrite lookup_insert_ne in Hsome by done. by apply Hd.
    - destruct (decide (m = n)) as [->|Hne]; [congruence |].
      rewrite lookup_insert_ne in Hsome by done. by apply Hd. }
  assert (Hcount : forall d dict,
             largestObjectNumber (overwrite (Repl.xObjRef r) dict imageBytes d)
             = largestObjectNumber d).
  { intros d dict. by destruct (Repl.xObjRef r). }
  destruct (includes "image/png" _); simpl.
  - unfold embedAndRepoint. destruct (embedPng env imageBytes) as [img|]; simpl.
    + destruct (repoint _ _ _ (register img doc)) as [doc2|] eqn:Hrepoint; simpl.
      * apply repoint_pages in Hrepoint
          as (_ & Hcounter & page & place & entries & _ & _ & Hplace & Hstore).
        simpl in Hcounter, Hplace. rewrite Hcounter. split; [lia |].
        intros n Hnone Hsome. rewrite Hstore in Hsome. split; [|done].
        destruct (decide (place = n)) as [->|Hne].
        -- destruct (decide (S (largestObjectNumber doc) = n)) as [<-|Hne']; [done |].
           rewrite lookup_insert_ne in Hplace by done. congruence.
        -- rewrite lookup_insert_ne in Hsome by done. simpl in Hsome.
           destruct (decide (S (largestObjectNumber doc) = n)) as [<-|Hne']; [done |].
           rewrite lookup_insert_ne in Hsome by done.
           rewrite Hnone in Hsome. by destruct Hsome.
      * split; [rewrite Hcount; simpl; lia |]. apply Hover.
        intros n Hnone Hsome. simpl in *. split; [|done].
        destruct (decide (S (largestObjectNumber doc) = n)) as [<-|Hne']; [done |].
        rewrite lookup_insert_ne in Hsome by done.
        rewrite Hnone in Hsome. by destruct Hsome.
    + split; [rewrite Hcount; lia |]. apply Hover.
      intros n Hnone Hsome. rewrite Hnone in Hsome. by destruct Hsome.
  - split; [rewrite Hcount; lia |]. apply Hover.
    intros n Hnone Hsome. rewrite Hnone in Hsome. by destruct Hsome.
Qed.

(** X10: the patch loop only adds to the document.  It keeps the page
    list, removes no object, and raises the reference counter by at most one
    for each replacement; a place of the store that comes into being during
    the loop has a number above the old counter and at most the new one. *)
Theorem patch_loop_only_adds env plan doc :
  let doc' := applyReplacements env plan doc in
  pages doc' = pages doc /\
  (largestObjectNumber doc <= largestObjectNumber doc'
   <= largestObjectNumber doc + length plan)%nat /\
  (forall n, is_Some (store doc !! n) -> is_Some (store doc' !! n)) /\
  (forall n, store doc !! n = None -> is_Some (store doc' !! n) ->
             (largestObjectNumber doc < n <= largestObjectNumber doc')%nat).
Proof.
  revert doc. induction plan as [|r plan IH]; intros doc; cbn [applyReplacements length].
  - split; [done |]. split; [lia |]. split; [done |].
    intros n -> [? ?]. done.
  - destruct (applyReplacement_frame env doc r) as (Hpages & Hle & _).
    destruct (applyReplacement_grows env doc r) as (Hle' & Hfresh).
    destruct (IH (fst (applyReplacement env doc r))) as (IHpages & IHle & IHkeeps & IHfresh).
    split; [congruence |]. split; [lia |]. split.
    + intros n Hn. by apply IHkeeps, applyReplacement_keeps.
    + intros n Hnone Hsome.
      destruct (store (fst (applyReplacement env doc r)) !! n) as [o|] eqn:Hmid.
      * destruct (Hfresh n Hnone) as [-> Hcounter]; [by rewrite Hmid |]. lia.
      * specialize (IHfresh n Hmid Hsome). lia.
Qed.

(** ** Replacements without PNG data *)

Lemma applyReplacement_in_place env doc r :
  includes "image/png" (dataURLToUse (Repl.optimizedImg r)) = false ->
  let doc' := fst (applyReplacement env doc r) in
  largestObjectNumber doc' = largestObjectNumber doc /\
  snd (applyReplacement env doc r) <> Embedded /\
  forall n, target (Repl.xObjRef r) <> Some n -> store doc' !! n = store doc !! n.
Proof.
  intros Hpng. unfold applyReplacement. rewrite Hpng.
  destruct (fetchBytes env _) as [imageBytes|]; simpl; [|done].
  destruct (lookup doc (Repl.xObjRef r)) as [old|]; simpl; [|done].
  destruct (Repl.xObjRef r) as [?|?|m|m]; simpl; try done.
  - split; [done |]. split; [done |]. intros n Hn.
    apply lookup_insert_ne. congruence.
  - split; [done |]. split; [done |]. intros n Hn.
    apply lookup_insert_ne. congruence.
Qed.

(** X11: replacements whose data URL does not say image/png (a JPEG, for
    one) are written in place: none of them ends in an embedding, the
    reference counter stays where it was, and the store changes at most at
    the places of the old image objects of the plan. *)
Theorem non_png_replacements_are_in_place env plan doc :
  no_png plan ->
  let doc' := applyReplacements env plan doc in
  largestObjectNumber doc' = largestObjectNumber doc /\
  (forall n, (forall r, r ∈ plan -> target (Repl.xObjRef r) <> Some n) ->
             store doc' !! n = store doc !! n) /\
  (forall d r, r ∈ plan -> snd (applyReplacement env d r) <> Embedded).
Proof.
  intros Hpng. split; [|split].
  - revert doc. induction Hpng as [|r plan Hr Hplan IH]; intros doc; [done |].
    cbn [applyReplacements]. rewrite IH.
    by destruct (applyReplacement_in_place env doc r Hr).
  - revert doc. induction Hpng as [|r plan Hr Hplan IH]; intros doc n Hn; [done |].
    cbn [applyReplacements]. rewrite IH.
    + destruct (applyReplacement_in_place env doc r Hr) as (_ & _ & Hstore).
      apply Hstore, Hn. by left.
    + intros r' Hr'. apply Hn. by right.
  - intros d r Hr. unfold no_png in Hpng. rewrite Forall_forall in Hpng.
    by destruct (applyReplacement_in_place env d r (Hpng r Hr)) as (_ & Hne & _).
Qed.

Lemma non_png_replacements_are_in_place_witness :
  largestObjectNumber (applyReplacements ex_env [ex_jpeg] ex_doc) = 4%nat /\
  store (applyReplacements ex_env [ex_jpeg] ex_doc) !! 2%nat
  = Some (PDFStream (imageDict true 200 100) [Byte.x01; Byte.x02]).
Proof.
  split; [|reflexivity].
  refine (proj1 (non_png_replacements_are_in_place ex_env [ex_jpeg] ex_doc _)).
  repeat constructor.
Defined.

(** ** The object written in place *)

(** X12: an image object overwritten in place is again an image XObject of
    the size the matching pass read from the old one, whatever the size of
    the new data: the dictionary written carries the Width and Height of the
    replacement. *)
Theorem overwritten_image_keeps_its_size env doc r n :
  target (Repl.xObjRef r) = Some n ->
  snd (applyReplacement env doc r) = Overwritten ->
  imageXObjectSize (fst (applyReplacement env doc r)) (Repl.xObjRef r)
  = Some (Some (Repl.width r), Some (Repl.height r)).
Proof.
  intros Htarget. unfold applyReplacement.
  destruct (fetchBytes env _) as [imageBytes|]; simpl; [|done].
  destruct (lookup doc (Repl.xObjRef r)) as [old|]; simpl; [|done].
  destruct (if includes "image/png" _ then _ else _) as [doc1 embedded].
  destruct embedded; simpl; [done |]. intros _.
  unfold imageXObjectSize.
  destruct (Repl.xObjRef r) as [?|?|m|m]; simplify_eq/=;
    by rewrite lookup_insert_eq.
Qed.

Lemma overwritten_image_keeps_its_size_witness :
  imageXObjectSize (fst (applyReplacement ex_env ex_doc ex_jpeg)) (PDFRef 2)
  = Some (Some 200, Some 100).
Proof.
  apply (overwritten_image_keeps_its_size ex_env ex_doc ex_jpeg 2); reflexivity.
Defined.

End SaveMoreFacts.

(** * Properties of the memory management *)
Module MemoryFacts.
Import Memory.

Lemma clearLoop_spec rounds h :
  (length (stack h) <= rounds)%nat ->
  clearLoop rounds h
  = (set_stack [] h, concat (cleanupHistoryItem <$> reverse (stack h))).
Proof.
  revert h. induction rounds as [|rounds IH]; intros [s m] Hlen; simpl in *.
  - destruct s; [done | simpl in Hlen; lia].
  - destruct s as [|x s' _] using rev_ind; [done |].
    rewrite length_app in *. simpl in *.
    replace (0 <? length s' + 1)%nat with true by (symmetry; apply Nat.ltb_lt; lia).
    unfold pop. simpl. rewrite removelast_last, last_snoc. simpl.
    rewrite IH by (simpl; lia).
    unfold set_stack. simpl. by rewrite reverse_snoc.
Qed.


Lemma clear_spec h :
  clear h = (set_stack [] h, concat (cleanupHistoryItem <$> reverse (stack h))).
Proof. by apply clearLoop_spec. Qed.

Lemma call_bounded c h :
  (Z.of_nat (length (stack h)) <= Z.max 1 (maxSize h))%Z ->
  maxSize (fst (call c h)) = maxSize h /\
  (Z.of_nat (length (stack (fst (call c h)))) <= Z.max 1 (maxSize h))%Z.
Proof.
  intros Hlen. destruct c as [item| |]; simpl.
  - unfold push. destruct (maxSize h <=? _)%Z eqn:Hfull.
    + destruct (stack h) as [|oldest rest] eqn:Hstack; simpl; [lia |].
      rewrite length_app. simpl in *. lia.
    + apply Z.leb_gt in Hfull. simpl. rewrite length_app. simpl. lia.
  - split; [done |]. destruct (stack h) as [|x s'] using rev_ind; [done |].
    rewrite removelast_last. rewrite length_app in Hlen. simpl in Hlen. lia.
  - rewrite clear_spec. simpl. lia.
Qed.

Lemma run_bounded calls h :
  (Z.of_nat (length (stack h)) <= Z.max 1 (maxSize h))%Z ->
  maxSize (fst (run calls h)) = maxSize h /\
  (Z.of_nat (length (stack (fst (run calls h)))) <= Z.max 1 (maxSize h))%Z.
Proof.
  revert h. induction calls as [|c calls IH]; intros h Hlen; [done |].
  cbn [run]. destruct (call_bounded c h Hlen) as [Hmax Hlen'].
  destruct (call c h) as [h1 effects] eqn:Hcall. simpl in Hmax, Hlen'.
  rewrite <- Hmax in Hlen'. specialize (IH h1 Hlen').
  destruct (run calls h1) as [h2 effects']. simpl in *.
  rewrite <- Hmax. by rewrite Hmax in *.
Qed.

(** X13: whatever is pushed, popped and cleared on a manager created with
    [maxSize], the stack never holds more than [maxSize] items, or one item
    when [maxSize] is below 1; [maxSize] itself never changes. *)
Theorem history_is_bounded maxSize calls :
  let h := fst (run calls (new maxSize)) in
  Memory.maxSize h = maxSize /\
  (Z.of_nat (size h) <= Z.max 1 maxSize)%Z.
Proof.
  intros h. apply (run_bounded calls (new maxSize)). simpl. lia.
Qed.

Lemma run_pushes items h :
  (1 <= maxSize h)%Z ->
  (Z.of_nat (length (stack h)) <= maxSize h)%Z ->
  let all := stack h ++ items in
  let excess := (length all - Z.to_nat (maxSize h))%nat in
  run (Push <$> items) h
  = (set_stack (drop excess all) h, concat (cleanupHistoryItem <$> take excess all)).
Proof.
  revert h. induction items as [|item items IH]; intros [s m] Hmax Hlen; simpl in *.
  - rewrite app_nil_r. replace (length s - Z.to_nat m)%nat with 0%nat by lia. done.
  - unfold push, set_stack. simpl. destruct (m <=? Z.of_nat (length s))%Z eqn:Hfull.
    + apply Z.leb_le in Hfull.
      destruct s as [|oldest rest]; simpl in *; [lia |].
      change (list_fmap HistoryItem Call Push items) with (Push <$> items).
      pose proof (IH {| stack := rest ++ [item]; maxSize := m |}) as IH'.
      simpl in IH'. rewrite IH' by (rewrite ?length_app; simpl; lia). clear IH IH'.
      unfold set_stack. simpl. rewrite <- !app_assoc. simpl.
      rewrite !length_app. simpl.
      replace (S (length rest + S (length items)) - Z.to_nat m)%nat
        with (S (length rest + S (length items) - Z.to_nat m))%nat by lia.
      done.
    + apply Z.leb_gt in Hfull.
      change (list_fmap HistoryItem Call Push items) with (Push <$> items).
      pose proof (IH {| stack := s ++ [item]; maxSize := m |}) as IH'.
      simpl in IH'. rewrite IH' by (rewrite ?length_app; simpl; lia). clear IH IH'.
      unfold set_stack. simpl. by rewrite <- !app_assoc.
Qed.

(** X14: after a run of pushes on a new manager with [maxSize] at least 1
    the stack holds the most recent [maxSize] items, oldest first, and the
    items that fell out have been cleaned up, each once, in the order they
    were pushed; nothing else has been cleaned up. *)
Theorem history_keeps_the_most_recent maxSize items :
  (1 <= maxSize)%Z ->
  let excess := (length items - Z.to_nat maxSize)%nat in
  run (Push <$> items) (new maxSize)
  = ({| stack := drop excess items; maxSize := maxSize |},
     concat (cleanupHistoryItem <$> take excess items)).
Proof.
  intros Hmax. apply (run_pushes items (new maxSize)); simpl; lia.
Qed.

Lemma history_keeps_the_most_recent_witness :
  run (Push <$> [Snapshot None (Some "blob:a"); CanvasElement 7; Nothing;
                 Snapshot (Some 8) (Some "data:b")]%string) (new 2)
  = ({| stack := [Nothing; Snapshot (Some 8) (Some "data:b"%string)]; maxSize := 2 |},
     [Revoked "blob:a"; Disposed 7]).
Proof.
  apply (history_keeps_the_most_recent 2
           [Snapshot None (Some "blob:a"); CanvasElement 7; Nothing;
            Snapshot (Some 8) (Some "data:b")]%string).
  lia.
Defined.

(** X15: a [pop] right after a [push] returns the pushed item.  Below
    capacity the manager is then as it was before the push; at capacity the
    oldest item has been dropped and cleaned up, and stays lost. *)
Theorem pop_after_push item h :
  snd (pop (fst (push item h))) = Some item /\
  fst (pop (fst (push item h)))
  = (if (maxSize h <=? Z.of_nat (length (stack h)))%Z
     then set_stack (tail (stack h)) h else h) /\
  snd (push item h)
  = (if (maxSize h <=? Z.of_nat (length (stack h)))%Z
     then from_option cleanupHistoryItem [] (head (stack h)) else []).
Proof.
  destruct h as [s m]. unfold push, pop. simpl.
  destruct (m <=? Z.of_nat (length s))%Z.
  - destruct s as [|oldest rest]; simpl; [done |].
    by rewrite last_snoc, removelast_last.
  - simpl. by rewrite last_snoc, removelast_last.
Qed.

(** X16: [clear] ends with an empty stack, for a stack of any length, and
    cleans up every item exactly once, from the newest to the oldest. *)
Theorem clear_cleans_every_item h :
  clear h = (set_stack [] h, concat (cleanupHistoryItem <$> reverse (stack h))) /\
  isEmpty (fst (clear h)) = true /\
  size (fst (clear h)) = 0%nat.
Proof. rewrite clear_spec. by repeat split. Qed.

(** ** What is revoked *)

Lemma revokeObjectURL_blob url e :
  e ∈ revokeObjectURL url ->
  exists u, url = Some u /\ e = Revoked u /\ String.prefix "blob:" u = true.
Proof.
  destruct url as [u|]; simpl; [|by intros ?%elem_of_nil].
  destruct (String.prefix "blob:" u) eqn:Hblob; [|by intros ?%elem_of_nil].
  intros ->%list_elem_of_singleton. by exists u.
Qed.

Lemma prefix_cons a s b t :
  String.prefix (String a s) (String b t)
  = if ascii_dec a b then String.prefix s t else false.
Proof. reflexivity. Qed.

Lemma data_is_not_blob u :
  String.prefix "data:" u = true -> String.prefix "blob:" u = false.
Proof.
  destruct u as [|c u]; [done |]. rewrite !prefix_cons.
  destruct (ascii_dec "d" c) as [<-|Hd]; [intros _ | done].
  destruct (ascii_dec "b" "d") as [Heq|]; [discriminate Heq | reflexivity].
Qed.

Lemma revokeObjectURL_data url :
  from_option (fun u => String.prefix "data:" u = true) True url ->
  revokeObjectURL url = [].
Proof.
  destruct url as [u|]; simpl; [|done]. intros Hdata.
  by rewrite (data_is_not_blob u Hdata).
Qed.

Lemma cleanupPdfImages_revokes pdfImages :
  Forall (revokes_blob (concat (urls <$> pdfImages))) (snd (cleanupPdfImages pdfImages)).
Proof.
  unfold cleanupPdfImages. cbn [snd].
  induction pdfImages as [|img pdfImages IH]; [constructor |].
  rewrite !fmap_cons. cbn [concat]. apply Forall_app. split.
  - apply Forall_forall. intros e He.
    assert (Hurl : exists u, e = Revoked u /\ String.prefix "blob:" u = true
                             /\ u ∈ urls img).
    { unfold urls.
      apply elem_of_app in He as [He|He];
        [|apply elem_of_app in He as [He|He]];
        apply revokeObjectURL_blob in He as (u & Hu & -> & Hblob);
        exists u; (split; [done |]); (split; [done |]).
      - simplify_eq. by left.
      - right. rewrite Hu. simpl. by left.
      - right. rewrite Hu. simpl. apply elem_of_app. right. by left. }
    destruct Hurl as (u & -> & Hblob & Hin). unfold revokes_blob. split; [done |].
    apply elem_of_app. by left.
  - eapply Forall_impl; [exact IH |].
    intros [c|u]; unfold revokes_blob; [done |]. intros [Hblob Hin]. split; [done |].
    apply elem_of_app. by right.
Qed.

(** X17: the cleanup functions hand to [URL.revokeObjectURL] only URLs that
    start with blob:, and only URLs of the item or of the records they were
    given; [cleanupPdfImages] disposes of no canvas and leaves the array
    empty. *)
Theorem only_blob_urls_are_revoked :
  (forall item url,
     Revoked url ∈ cleanupHistoryItem item ->
     String.prefix "blob:" url = true /\ url ∈ itemURLs item) /\
  (forall pdfImages,
     fst (cleanupPdfImages pdfImages) = [] /\
     Forall (revokes_blob (concat (urls <$> pdfImages))) (snd (cleanupPdfImages pdfImages))).
Proof.
  split.
  - intros [|c|canvas dataURL] url; simpl.
    + by intros ?%elem_of_nil.
    + intros Hin%list_elem_of_singleton. done.
    + intros [Hin|Hin]%elem_of_app.
      * destruct canvas; simpl in Hin; [|by apply elem_of_nil in Hin].
        by apply list_elem_of_singleton in Hin.
      * apply revokeObjectURL_blob in Hin as (u & -> & Hu & Hblob).
        simplify_eq. split; [done |]. by apply list_elem_of_singleton.
  - intros pdfImages. split; [done |]. apply cleanupPdfImages_revokes.
Qed.

(** X18: records whose URLs are all data: URLs, as the extraction and the
    canvas exports of the editor produce them, are cleaned up without a
    single call: [cleanupPdfImages] only empties the array. *)
Theorem data_urls_are_left_alone pdfImages :
  Forall (fun img => Forall (fun u => String.prefix "data:" u = true) (urls img)) pdfImages ->
  cleanupPdfImages pdfImages = ([], []).
Proof.
  intros Hdata. unfold cleanupPdfImages. f_equal.
  induction Hdata as [|img pdfImages Himg Hdata IH]; [done |].
  rewrite fmap_cons. cbn [concat]. rewrite IH, app_nil_r.
  unfold urls in Himg. apply Forall_cons in Himg as [Hfirst Hrest].
  apply Forall_app in Hrest as [Hopt Htemp].
  rewrite (revokeObjectURL_data (Some (Img.dataURL (record img)))) by done.
  rewrite (revokeObjectURL_data (Img.optimizedDataURL (record img))),
          (revokeObjectURL_data (tempPreviewDataURL img)); [done | |].
  - destruct (tempPreviewDataURL img); simpl in *; [|done].
    by apply Forall_cons in Htemp as [? _].
  - destruct (Img.optimizedDataURL (record img)); simpl in *; [|done].
    by apply Forall_cons in Hopt as [? _].
Qed.

Lemma data_urls_are_left_alone_witness :
  cleanupPdfImages
    [ {| record := Img.mk 0 "data:image/png;base64,AAAA" 3 50 50 1 "page-1-Im2" true
                     (Some "data:image/jpeg;base64,BBBB"%string) 4;
         tempPreviewDataURL := None |} ]
  = ([], []).
Proof.
  apply data_urls_are_left_alone.
  repeat constructor.
Defined.

End MemoryFacts.

(** * Properties of the state container *)
Module EditorStateFacts.
Import EditorState.

Section Container.
Context `{Engine}.

(** ** Own properties *)

Lemma own_put_eq key x fields : own key (put key x fields) = Some x.
Proof.
  induction fields as [|[k y] fields IH]; simpl.
  - by rewrite String.eqb_refl.
  - destruct (String.eqb k key) eqn:Hk; simpl; by rewrite Hk.
Qed.

Lemma own_put_ne key key' x fields :
  key <> key' -> own key' (put key x fields) = own key' fields.
Proof.
  intros Hne. induction fields as [|[k y] fields IH]; simpl.
  - destruct (String.eqb_spec key key'); [done | done].
  - destruct (String.eqb_spec k key) as [->|Hk]; simpl.
    + by destruct (String.eqb_spec key key').
    + by destruct (String.eqb_spec k key').
Qed.


(** ** Reading along keys *)

Lemma get_keys_none w keys :
  foldl (fun obj key => obj ≫= fun o => read w o key) None keys = None.
Proof. by induction keys. Qed.

Lemma get_keys_cons w key keys root :
  get_keys w (key :: keys) root = read w root key ≫= get_keys w keys.
Proof.
  unfold get_keys. simpl. destruct (read w root key); simpl; [done |].
  apply get_keys_none.
Qed.

Lemma get_keys_app w pre post root :
  get_keys w (pre ++ post) root = get_keys w pre root ≫= get_keys w post.
Proof.
  revert root. induction pre as [|key pre IH]; intros root; [done |].
  simpl. rewrite !get_keys_cons. destruct (read w root key); simpl; [apply IH | done].
Qed.

(** From a value that is no plain object, no key leads to a plain object. *)
Lemma get_keys_leaf w keys x y :
  get_keys w keys (Leaf x) = Some y -> exists v, y = Leaf v.
Proof.
  revert x. induction keys as [|key keys IH]; intros x.
  - intros [= <-]. by exists x.
  - rewrite get_keys_cons.
    destruct x; simpl; try (by apply IH);
      destruct (engine_get _ _ _); simpl; try done; by apply IH.
Qed.

Lemma plainObjectAt_get w keys obj fields :
  plainObjectAt keys obj = Some fields -> get_keys w keys obj = Some (Object fields).
Proof.
  revert obj. induction keys as [|key keys IH]; intros [x|fields0]; simpl; try done.
  - by intros [= ->].
  - destruct (own key fields0) as [child|] eqn:Hown; [|done].
    intros Hrest. rewrite get_keys_cons. simpl. rewrite Hown. simpl. by apply IH.
Qed.

Lemma get_object w keys obj fields :
  get_keys w keys obj = Some (Object fields) -> plainObjectAt keys obj = Some fields.
Proof.
  revert obj. induction keys as [|key keys IH]; intros obj.
  - intros [= ->]. done.
  - destruct obj as [x|fields0].
    + intros Hget. by apply get_keys_leaf in Hget as [v Hv].
    + rewrite get_keys_cons. simpl.
      destruct (own key fields0) as [child|]; simpl; [by apply IH |].
      intros Hget. by apply get_keys_leaf in Hget as [v Hv].
Qed.

Lemma plainObjectAt_leaf keys x : plainObjectAt keys (Leaf x) = None.
Proof. by destruct keys. Qed.

Lemma plainObjectAt_prefix pre post obj fields :
  plainObjectAt (pre ++ post) obj = Some fields -> is_Some (plainObjectAt pre obj).
Proof.
  revert obj. induction pre as [|key pre IH]; intros [x|fields0]; simpl;
    rewrite ?plainObjectAt_leaf; try done.
  destruct (own key fields0) as [child|]; [by apply IH | done].
Qed.


(** ** Key lists *)

Lemma split_nonempty path : split path <> [].
Proof.
  destruct path as [|c path]; simpl; [done |].
  destruct (Ascii.eqb c "."); [done |]. by destruct (split path).
Qed.

Lemma split_last path :
  split path = removelast (split path) ++ [List.last (split path) EmptyString].
Proof. apply app_removelast_last, split_nonempty. Qed.

Lemma leads_spec h keys :
  leads h keys = true -> exists post, keys = h ++ post /\ post <> [].
Proof.
  revert keys. induction h as [|x h IH]; intros [|y keys]; simpl; try done.
  - intros _. by exists (y :: keys).
  - intros [Hxy Hrest]%andb_prop. apply String.eqb_eq in Hxy as ->.
    destruct (IH _ Hrest) as (post & -> & Hpost). by exists post.
Qed.

(** A proper prefix of a path leads to the object that holds its last key,
    or stops before. *)
Lemma leads_holder h keys lastKey :
  leads h (keys ++ [lastKey]) = true -> exists post, keys = h ++ post.
Proof.
  intros (post & Heq & Hpost)%leads_spec.
  destruct post as [|x post' _] using rev_ind; [done |].
  rewrite app_assoc in Heq. apply app_inj_tail in Heq as [-> _]. by exists post'.
Qed.

Lemma diverge_sym ks qs : diverge ks qs = diverge qs ks.
Proof.
  revert qs. induction ks as [|k ks IH]; intros [|q qs]; simpl; try done.
  rewrite (String.eqb_sym q k). destruct (String.eqb k q); [apply IH | done].
Qed.

(** When a path parts from another, the object that holds its last key lies
    on the other path, before its end, or off it. *)
Lemma diverge_holder h lastKey ks :
  diverge (h ++ [lastKey]) ks = true -> leads h ks = true \/ diverge ks h = true.
Proof.
  revert ks. induction h as [|x h IH]; intros [|k ks]; simpl; try done.
  - intros _. by left.
  - rewrite (String.eqb_sym k x). destruct (String.eqb x k); [|by right].
    intros Hdiv. destruct (IH _ Hdiv) as [? | ?]; [by left | by right].
Qed.

(** ** The walk of [set] through plain objects *)

Lemma store_plain w fields key x :
  key <> "__proto__"%string -> store w fields key x = (Object (put key x fields), w).
Proof.
  intros Hkey. unfold store. destruct (own key fields); [done |].
  by apply String.eqb_neq in Hkey as ->.
Qed.

Lemma plainObjectAt_object keys obj fields :
  plainObjectAt keys obj = Some fields -> to_boolean obj = true.
Proof. destruct obj; [by rewrite plainObjectAt_leaf | done]. Qed.

(** On a path that stays in the tree the walk changes nothing, the
    assignment changes the last key in the plain object the walk arrives at,
    and nothing outside the tree is touched. *)
Lemma assign_direct keys lastKey v obj w fields :
  plainObjectAt keys obj = Some fields ->
  lastKey <> "__proto__"%string ->
  exists obj',
    assign keys lastKey v obj w
    = Some (obj', w, default (Leaf (prototype_get w lastKey)) (own lastKey fields)) /\
    plainObjectAt keys obj' = Some (put lastKey (Leaf v) fields) /\
    (forall qs, diverge (keys ++ [lastKey]) qs = true ->
                get_keys w qs obj' = get_keys w qs obj).
Proof.
  intros Hat Hlast. revert obj Hat.
  induction keys as [|key keys IH]; intros [x|fields0] Hat; simpl in Hat; try done.
  - injection Hat as ->. exists (Object (put lastKey (Leaf v) fields)).
    simpl. rewrite store_plain by done. split; [done |]. split; [done |].
    intros [|q qs]; simpl; [done |].
    destruct (String.eqb_spec lastKey q) as [->|Hne]; [done |]. intros _.
    rewrite !get_keys_cons. simpl. by rewrite own_put_ne.
  - destruct (own key fields0) as [child|] eqn:Hown; [|done].
    destruct (IH child Hat) as (child' & Hassign & Hat' & Hframe).
    exists (Object (put key child' fields0)).
    cbn [assign]. rewrite Hown. cbn [from_option id].
    rewrite (plainObjectAt_object _ _ _ Hat). rewrite Hown, Hassign. simpl.
    split; [done |]. split; [by rewrite own_put_eq |].
    intros [|q qs]; simpl; [done |].
    rewrite !get_keys_cons. simpl.
    destruct (String.eqb_spec key q) as [<-|Hne].
    + intros Hdiv. rewrite own_put_eq, Hown. simpl. by apply Hframe.
    + intros _. by rewrite own_put_ne.
Qed.

(** After the assignment the objects on the path and off it are there as
    before. *)
Lemma assign_keeps_object keys lastKey obj obj' w h fields fields0 :
  plainObjectAt keys obj' = Some fields ->
  (forall qs, diverge (keys ++ [lastKey]) qs = true ->
              get_keys w qs obj' = get_keys w qs obj) ->
  plainObjectAt h obj = Some fields0 ->
  leads h (keys ++ [lastKey]) || diverge (keys ++ [lastKey]) h = true ->
  is_Some (plainObjectAt h obj').
Proof.
  intros Hat Hframe Hh Hcheck. apply orb_prop in Hcheck as [Hleads | Hdiv].
  - apply leads_holder in Hleads as [post ->]. by eapply plainObjectAt_prefix.
  - exists fields0. apply (get_object w). rewrite Hframe by done.
    by apply plainObjectAt_get.
Qed.



(** ** [set] on a path that stays in the tree *)

Lemma direct_spec path st :
  direct path st = true <->
  is_Some (plainObjectAt (removelast (split path)) (_state st)) /\
  List.last (split path) EmptyString <> "__proto__"%string.
Proof.
  unfold direct. destruct (plainObjectAt _ _) as [fields|]; split.
  - intros Hlast%negb_true_iff%String.eqb_neq. split; [by eexists | done].
  - intros [_ Hlast]. by apply negb_true_iff, String.eqb_neq.
  - done.
  - by intros [[? ?] _].
Qed.

Lemma set_direct path v st :
  direct path st = true ->
  exists root old,
    get path st = Some old /\
    set path v st
    = Some ({| _state := root; world := world st; _listeners := _listeners st;
               allocated := allocated st |},
            _notifyListeners st path v old) /\
    get_keys (world st) (split path) root = Some (Leaf v) /\
    (forall qs, diverge (split path) qs = true ->
                get_keys (world st) qs root = get_keys (world st) qs (_state st)) /\
    (forall h fields,
       plainObjectAt h (_state st) = Some fields ->
       leads h (split path) || diverge (split path) h = true ->
       is_Some (plainObjectAt h root)).
Proof.
  intros [[fields Hat] Hlast]%direct_spec.
  destruct (assign_direct _ _ v _ (world st) _ Hat Hlast) as (root & Hassign & Hat' & Hframe).
  exists root, (default (Leaf (prototype_get (world st) (List.last (split path) EmptyString)))
                  (own (List.last (split path) EmptyString) fields)).
  split; [|split; [|split; [|split]]].
  - unfold get. rewrite (split_last path) at 1.
    rewrite get_keys_app, (plainObjectAt_get _ _ _ _ Hat). done.
  - unfold set. cbv zeta. by rewrite Hassign.
  - rewrite (split_last path) at 1.
    rewrite get_keys_app, (plainObjectAt_get _ _ _ _ Hat'). simpl.
    unfold get_keys. simpl. by rewrite own_put_eq.
  - intros qs Hqs. apply Hframe. by rewrite <- split_last.
  - intros h fields0 Hh Hcheck. rewrite (split_last path) in Hcheck.
    exact (assign_keeps_object _ _ _ _ _ _ _ _ Hat' Hframe Hh Hcheck).
Qed.

Lemma set_direct_keeps path v st st' calls other :
  direct path st = true ->
  set path v st = Some (st', calls) ->
  direct other st = true ->
  diverge (split other) (split path) = true ->
  direct other st' = true.
Proof.
  intros Hdirect Hset [[fields Hat] Hlast]%direct_spec Hdiv.
  destruct (set_direct path v st Hdirect) as (root & old & _ & Hset' & _ & _ & Hkeeps).
  rewrite Hset' in Hset. injection Hset as <- _.
  apply direct_spec. split; [|done]. simpl.
  apply (Hkeeps _ _ Hat). rewrite (split_last other) in Hdiv.
  apply diverge_holder in Hdiv as [-> | ->]; [done | apply orb_true_r].
Qed.

(** ** [get] and [set] *)

(** X19: on a path that stays in the tree, that is, whose keys before the
    last lead from the root through own properties that are plain objects,
    and whose last key is not [__proto__], [set(path, v)] returns; afterwards
    [get(path)] returns [v]; nothing outside the tree is touched and the
    subscriptions stay as they are; every listener that is called gets the
    path, [v] as new value and, as old value, what [get(path)] returned
    before. *)
Theorem set_then_get path v st :
  direct path st = true ->
  exists st' calls,
    set path v st = Some (st', calls) /\
    get path st' = Some (Leaf v) /\
    world st' = world st /\
    _listeners st' = _listeners st /\
    Forall (fun c => n_path c = path /\ newValue c = v /\ get path st = Some (oldValue c))
      calls.
Proof.
  intros Hdirect.
  destruct (set_direct path v st Hdirect) as (root & old & Hold & Hset & Hget & _ & _).
  eexists _, _. split; [exact Hset |]. split; [exact Hget |].
  split; [done |]. split; [done |].
  unfold _notifyListeners. apply Forall_fmap, Forall_forall. by intros s _.
Qed.

(** X20: [set] on a path that stays in the tree leaves alone what [get]
    returns for every path that parts from it at some key, wherever that path
    leads. *)
Theorem set_keeps_other_paths path v st other :
  direct path st = true ->
  diverge (split path) (split other) = true ->
  exists st' calls,
    set path v st = Some (st', calls) /\
    get other st' = get other st.
Proof.
  intros Hdirect Hdiv.
  destruct (set_direct path v st Hdirect) as (root & old & _ & Hset & _ & Hframe & _).
  eexists _, _. split; [exact Hset |]. unfold get. simpl. by apply Hframe.
Qed.


(** ** [update] *)

Lemma update_cons path v rest st st1 calls1 :
  set path v st = Some (st1, calls1) ->
  update ((path, v) :: rest) st
  = match update rest st1 with
    | Some (st2, calls2) => Some (st2, calls1 ++ calls2)
    | None => None
    end.
Proof. simpl. by intros ->. Qed.

Lemma update_app updates1 updates2 st :
  update (updates1 ++ updates2) st
  = match update updates1 st with
    | Some (st1, calls1) =>
        match update updates2 st1 with
        | Some (st2, calls2) => Some (st2, calls1 ++ calls2)
        | None => None
        end
    | None => None
    end.
Proof.
  revert st. induction updates1 as [|[path v] updates1 IH]; intros st; simpl.
  - by destruct (update updates2 st) as [[? ?]|].
  - destruct (set path v st) as [[st1 calls1]|]; [|done]. rewrite IH.
    destruct (update updates1 st1) as [[st2 calls2]|]; [|done].
    destruct (update updates2 st2) as [[st3 calls3]|]; [|done].
    by rewrite app_assoc.
Qed.

(** An [update] whose paths stay in the tree and part from one another. *)
Lemma update_direct updates st :
  Forall (fun path => direct path st = true) (fst <$> updates) ->
  later_diverge (fst <$> updates) = true ->
  exists st' calls,
    update updates st = Some (st', calls) /\
    world st' = world st /\
    (forall path v, (path, v) ∈ updates -> get path st' = Some (Leaf v)) /\
    (forall other,
       forallb (fun p => diverge (split p) (split other)) (fst <$> updates) = true ->
       get other st' = get other st) /\
    (forall other,
       direct other st = true ->
       forallb (fun p => diverge (split other) (split p)) (fst <$> updates) = true ->
       direct other st' = true).
Proof.
  revert st. induction updates as [|[path v] updates IH]; intros st Hdirect Hlater.
  - exists st, []. repeat split; try done. intros path v Hin. by apply elem_of_nil in Hin.
  - rewrite fmap_cons in Hdirect, Hlater. cbn [fst] in *.
    apply Forall_cons in Hdirect as [Hpath Hdirect].
    cbn [later_diverge] in Hlater. apply andb_prop in Hlater as [Hparts Hlater].
    destruct (set_direct path v st Hpath) as (root & old & _ & Hset & Hget & Hframe & _).
    set (st1 := {| _state := root; world := world st; _listeners := _listeners st;
                   allocated := allocated st |}) in *.
    assert (Hdirect1 : Forall (fun p => direct p st1 = true) (fst <$> updates)).
    { apply Forall_forall. intros p Hp.
      rewrite Forall_forall in Hdirect. rewrite forallb_forall in Hparts.
      apply (set_direct_keeps path v st st1 _ p Hpath Hset (Hdirect p Hp)).
      by apply Hparts, list_elem_of_In. }
    destruct (IH st1 Hdirect1 Hlater) as (st' & calls & Hupdate & Hworld & Hgets & Hkeeps & Hstay).
    exists st', (_notifyListeners st path v old ++ calls).
    split; [by rewrite (update_cons _ _ _ _ _ _ Hset), Hupdate |].
    split; [done |]. split; [|split].
    + intros p x [[= -> ->] | Hin]%elem_of_cons; [|by apply Hgets].
      rewrite (Hkeeps path Hparts). exact Hget.
    + intros other Hother. rewrite fmap_cons in Hother. simpl in Hother.
      apply andb_prop in Hother as [Hfirst Hrest].
      rewrite (Hkeeps other Hrest). unfold get. simpl. by apply Hframe.
    + intros other Hother Hall. rewrite fmap_cons in Hall. simpl in Hall.
      apply andb_prop in Hall as [Hfirst Hrest].
      apply Hstay; [|done].
      by apply (set_direct_keeps path v st st1 _ other Hpath Hset).
Qed.

(** X22: an [update] whose paths stay in the tree and part from one another
    returns and sets them all: afterwards [get] gives for every entry the
    value of that entry and, for a path that parts from all of them, what it
    gave before; nothing outside the tree is touched. *)
Theorem update_sets_every_path updates st :
  Forall (fun path => direct path st = true) (fst <$> updates) ->
  later_diverge (fst <$> updates) = true ->
  exists st' calls,
    update updates st = Some (st', calls) /\
    world st' = world st /\
    (forall path v, (path, v) ∈ updates -> get path st' = Some (Leaf v)) /\
    (forall other,
       forallb (fun p => diverge (split p) (split other)) (fst <$> updates) = true ->
       get other st' = get other st).
Proof.
  intros Hdirect Hlater.
  destruct (update_direct updates st Hdirect Hlater)
    as (st' & calls & Hupdate & Hworld & Hgets & Hkeeps & _).
  by exists st', calls.
Qed.

(** ** The objects of the constructor *)

Lemma shaped_spec st :
  shaped st = true <->
  forall h, h ∈ holders -> is_Some (plainObjectAt h (_state st)).
Proof.
  unfold shaped. rewrite forallb_forall. split.
  - intros Hall h Hin. apply list_elem_of_In, Hall in Hin.
    destruct (get_keys (world st) h (_state st)) as [[?|fields]|] eqn:Hget; try done.
    exists fields. by eapply get_object.
  - intros Hall h Hin. apply list_elem_of_In, Hall in Hin as [fields Hat].
    by rewrite (plainObjectAt_get _ _ _ _ Hat).
Qed.

Lemma settled_spec path :
  settled path = true ->
  removelast (split path) ∈ holders /\
  List.last (split path) EmptyString <> "__proto__"%string /\
  forallb (fun h => leads h (split path) || diverge (split path) h) holders = true.
Proof.
  unfold settled. intros [[Hin Hclean]%andb_prop Hcheck]%andb_prop.
  apply bool_decide_eq_true in Hin. split; [done |]. split; [|done].
  rewrite (split_last path) in Hclean. unfold clean in Hclean.
  rewrite forallb_app in Hclean. apply andb_prop in Hclean as [_ Hlast].
  simpl in Hlast. apply andb_prop in Hlast as [Hlast _].
  intros Heq. rewrite Heq in Hlast. done.
Qed.

Lemma settled_direct path st :
  shaped st = true -> settled path = true -> direct path st = true.
Proof.
  intros Hshaped (Hin & Hlast & _)%settled_spec. apply direct_spec.
  rewrite shaped_spec in Hshaped. split; [by apply Hshaped | done].
Qed.

Lemma get_direct path st : direct path st = true -> is_Some (get path st).
Proof.
  intros [[fields Hat] _]%direct_spec. unfold get. rewrite (split_last path).
  rewrite get_keys_app, (plainObjectAt_get _ _ _ _ Hat). by eexists.
Qed.

Lemma set_settled path v st :
  shaped st = true -> settled path = true ->
  exists st' calls, set path v st = Some (st', calls) /\ shaped st' = true.
Proof.
  intros Hshaped Hsettled.
  destruct (set_direct path v st (settled_direct _ _ Hshaped Hsettled))
    as (root & old & _ & Hset & _ & _ & Hkeeps).
  eexists _, _. split; [exact Hset |].
  apply settled_spec in Hsettled as (_ & _ & Hcheck).
  apply shaped_spec. intros h Hin. simpl.
  rewrite shaped_spec in Hshaped. destruct (Hshaped h Hin) as [fields Hat].
  apply (Hkeeps _ _ Hat). rewrite forallb_forall in Hcheck.
  by apply Hcheck, list_elem_of_In.
Qed.

Lemma update_settled updates st :
  shaped st = true -> forallb settled (fst <$> updates) = true ->
  exists st' calls, update updates st = Some (st', calls) /\ shaped st' = true.
Proof.
  revert st. induction updates as [|[path v] updates IH]; intros st Hshaped Hall.
  - by exists st, [].
  - rewrite fmap_cons in Hall. simpl in Hall. apply andb_prop in Hall as [Hpath Hall].
    destruct (set_settled path v st Hshaped Hpath) as (st1 & calls1 & Hset & Hshaped1).
    destruct (IH st1 Hshaped1 Hall) as (st2 & calls2 & Hupdate & Hshaped2).
    exists st2, (calls1 ++ calls2). simpl. by rewrite Hset, Hupdate.
Qed.

(** ** [reset] *)

Lemma reset_update st : reset st = update resetEntries st.
Proof.
  unfold reset, resetEntries, resetImageState, resetPdfState.
  rewrite update_app.
  destruct (update imageDefaults st) as [[st1 calls1]|]; [|done].
  rewrite update_app.
  destruct (update pdfDefaults st1) as [[st2 calls2]|]; [|done].
  cbn [update].
  destruct (set "ui.comparing" (VBool false) st2) as [[st3 calls3]|]; [|done].
  destruct (set "ui.loading" (VBool false) st3) as [[st4 calls4]|]; [|done].
  by rewrite app_nil_r.
Qed.

(** X23: on a container that still has the objects of the constructor,
    [reset] returns; afterwards [get] gives the default for each of the 21
    paths it writes, and the container still has those objects.  It is not a
    full reset: the zoom option of the cropper, the preview background and
    comparison flag, the theme, the system-theme flag and the editing format
    and quality are what they were. *)
Theorem reset_restores_the_defaults st :
  shaped st = true ->
  exists st' calls,
    reset st = Some (st', calls) /\
    shaped st' = true /\
    (forall path v, (path, v) ∈ resetEntries -> get path st' = Some (Leaf v)) /\
    (forall path, path ∈ keptByReset -> is_Some (get path st) /\ get path st' = get path st).
Proof.
  intros Hshaped. rewrite reset_update.
  destruct (update_settled resetEntries st Hshaped eq_refl)
    as (st' & calls & Hupdate & Hshaped').
  assert (Hdirect : Forall (fun path => direct path st = true) (fst <$> resetEntries)).
  { apply Forall_forall. intros path Hin. apply settled_direct; [done |].
    assert (Hall : forallb settled (fst <$> resetEntries) = true) by reflexivity.
    rewrite forallb_forall in Hall. by apply Hall, list_elem_of_In. }
  destruct (update_direct resetEntries st Hdirect eq_refl)
    as (st2 & calls2 & Hupdate2 & _ & Hgets & Hkeeps & _).
  rewrite Hupdate in Hupdate2. injection Hupdate2 as <- <-.
  exists st', calls. split; [done |]. split; [done |]. split; [done |].
  intros path Hin.
  assert (Hkept : forallb (fun q =>
                     settled q
                     && forallb (fun p => diverge (split p) (split q))
                          (fst <$> resetEntries)) keptByReset = true) by reflexivity.
  rewrite forallb_forall in Hkept. apply list_elem_of_In, Hkept in Hin.
  apply andb_prop in Hin as [Hsettled Hdiv].
  split; [by apply get_direct, settled_direct | by apply Hkeeps].
Qed.

(** ** The accessor object of the editor *)

Lemma accessorPath_spec property path :
  accessorPath property = Some path -> (property, path) ∈ accessors.
Proof.
  unfold accessorPath. intros Hfind.
  destruct (List.find _ accessors) as [[name path']|] eqn:Hfound; [|done].
  simpl in Hfind. simplify_eq. apply find_some in Hfound as [Hin Hname].
  simpl in Hname. apply String.eqb_eq in Hname as ->. by apply list_elem_of_In.
Qed.

Lemma accessors_settled property path :
  (property, path) ∈ accessors -> settled path = true.
Proof.
  intros Hin.
  assert (Hall : forallb (fun entry => settled (snd entry)) accessors = true) by reflexivity.
  rewrite forallb_forall in Hall. by apply list_elem_of_In, Hall in Hin.
Qed.

Lemma accessors_diverge a pa b pb :
  (a, pa) ∈ accessors -> (b, pb) ∈ accessors -> a <> b ->
  diverge (split pa) (split pb) = true.
Proof.
  intros Ha Hb Hne.
  assert (Hall : forallb (fun e1 =>
                    forallb (fun e2 =>
                       String.eqb (fst e1) (fst e2)
                       || diverge (split (snd e1)) (split (snd e2))) accessors)
                    accessors = true) by reflexivity.
  rewrite forallb_forall in Hall. apply list_elem_of_In, Hall in Ha.
  rewrite forallb_forall in Ha. apply list_elem_of_In, Ha in Hb. simpl in Hb.
  apply orb_prop in Hb as [Heq|Hdiv]; [|done]. by apply String.eqb_eq in Heq.
Qed.

(** X24: the properties of the accessor object are independent cells.  On
    a container that still has the objects of the constructor, an assignment
    to one property returns, the property then reads as the value assigned,
    and every other property reads as it did before. *)
Theorem accessors_are_independent a b pa pb v st :
  accessorPath a = Some pa -> accessorPath b = Some pb -> a <> b ->
  shaped st = true ->
  exists st',
    state_set a v st = Some st' /\
    shaped st' = true /\
    state_get a st' = Some (Leaf v) /\
    is_Some (state_get b st) /\
    state_get b st' = state_get b st.
Proof.
  intros Ha Hb Hne Hshaped. unfold state_set, state_get. rewrite Ha, Hb. simpl.
  apply accessorPath_spec in Ha, Hb.
  pose proof (settled_direct pa st Hshaped (accessors_settled a pa Ha)) as Hdirect.
  destruct (set_settled pa v st Hshaped (accessors_settled a pa Ha))
    as (st' & calls & Hset & Hshaped').
  destruct (set_direct pa v st Hdirect) as (root & old & _ & Hset' & Hget & Hframe & _).
  rewrite Hset in Hset'. injection Hset' as -> _.
  eexists. rewrite Hset. simpl. split; [done |]. split; [done |].
  split; [done |].
  split; [by apply get_direct, settled_direct, (accessors_settled b) |].
  unfold get. simpl. apply Hframe. by eapply accessors_diverge.
Qed.

Lemma run_shaped calls st :
  shaped st = true -> Forall known calls ->
  exists st', run calls st = Some st' /\ shaped st' = true.
Proof.
  intros Hshaped Hknown. revert st Hshaped.
  induction Hknown as [|c calls Hc Hknown IH]; intros st Hshaped; [by exists st |].
  assert (Hcall : exists st1, call c st = Some st1 /\ shaped st1 = true).
  { destruct c as [property v|]; simpl in *.
    - destruct Hc as [path Hpath]. unfold state_set. rewrite Hpath. simpl.
      destruct (set_settled path v st Hshaped) as (st1 & calls1 & Hset & Hshaped1);
        [by eapply accessors_settled, accessorPath_spec |].
      exists st1. by rewrite Hset.
    - rewrite reset_update.
      destruct (update_settled resetEntries st Hshaped eq_refl)
        as (st1 & calls1 & Hupdate & Hshaped1).
      exists st1. by rewrite Hupdate. }
  destruct Hcall as (st1 & Hcall & Hshaped1).
  destruct (IH st1 Hshaped1) as (st' & Hrun & Hshaped').
  exists st'. unfold run in *. simpl. by rewrite Hcall.
Qed.

(** X25: whatever the editor assigns to the properties of the accessor
    object, in whatever order and with whatever resets in between, no call
    on the new container fails, and the container keeps the objects of the
    constructor. *)
Theorem editor_calls_never_fail calls :
  Forall known calls ->
  exists st, run calls new = Some st /\ shaped st = true.
Proof. intros Hknown. by apply run_shaped. Qed.

(** ** Subscriptions *)

Lemma filter_all {A} (f : A -> bool) l :
  Forall (fun x => f x = true) l -> List.filter f l = l.
Proof.
  induction 1 as [|x l Hx Hl IH]; simpl; [done |]. by rewrite Hx, IH.
Qed.

(** X26: the function [subscribe] returns removes the subscription of that
    call and no other, also when the same listener is subscribed more than
    once: right after the call it gives back the list of subscriptions as
    it was, the state untouched; called again it changes nothing. *)
Theorem unsubscribe_undoes_subscribe l w st :
  ids_allocated st ->
  let st1 := fst (subscribe l w st) in
  let subscription := snd (subscribe l w st) in
  ids_allocated st1 /\
  _listeners (unsubscribe subscription st1) = _listeners st /\
  _state (unsubscribe subscription st1) = _state st /\
  unsubscribe subscription (unsubscribe subscription st1) = unsubscribe subscription st1.
Proof.
  intros Hids. simpl. unfold ids_allocated in *. simpl.
  assert (Hkeep : List.filter (fun s => negb (sub_id s =? allocated st)%nat) (_listeners st)
                  = _listeners st).
  { apply filter_all. eapply Forall_impl; [exact Hids |]. intros s Hs. simpl in Hs.
    apply negb_true_iff, Nat.eqb_neq. lia. }
  split; [|split; [|split]].
  - apply Forall_app. split.
    + eapply Forall_impl; [exact Hids |]. intros s Hs. simpl in *. lia.
    + constructor; [simpl; lia | constructor].
  - unfold unsubscribe. simpl. rewrite List.filter_app. simpl.
    by rewrite Nat.eqb_refl, Hkeep, app_nil_r.
  - done.
  - unfold unsubscribe. simpl. f_equal. rewrite List.filter_app. simpl.
    by rewrite Nat.eqb_refl, Hkeep, app_nil_r, Hkeep.
Qed.

End Container.

(** ** Examples, in the engine of the examples *)

#[local] Existing Instance ex_engine.

Lemma set_then_get_witness :
  exists st' calls,
    set "pdf.mode" (VBool true) (fst (subscribe 7 (Some "pdf"%string) new))
    = Some (st', calls) /\
    get "pdf.mode" st' = Some (Leaf (VBool true)) /\
    Forall (fun c => oldValue c = Leaf (VBool false)) calls.
Proof.
  destruct (set_then_get "pdf.mode" (VBool true) (fst (subscribe 7 (Some "pdf"%string) new))
              eq_refl) as (st' & calls & Hset & Hget & _ & _ & Hcalls).
  exists st', calls. split; [done |]. split; [done |].
  eapply Forall_impl; [exact Hcalls |]. intros c (_ & _ & Hold).
  change (Some (Leaf (VBool false)) = Some (oldValue c)) in Hold. by injection Hold.
Defined.

Lemma set_keeps_other_paths_witness :
  exists st' calls,
    set "pdf.mode" (VBool true) new = Some (st', calls) /\
    get "pdf.images.length" st' = Some (Leaf (VNumber 0)).
Proof.
  destruct (set_keeps_other_paths "pdf.mode" (VBool true) new "pdf.images.length"
              eq_refl eq_refl) as (st' & calls & Hset & Hother).
  exists st', calls. split; [done |]. rewrite Hother. reflexivity.
Defined.


Lemma update_sets_every_path_witness :
  exists st' calls,
    update pdfDefaults (fst (default (new, []) (set "pdf.mode" (VBool true) new)))
    = Some (st', calls) /\
    get "pdf.mode" st' = Some (Leaf (VBool false)).
Proof.
  destruct (update_sets_every_path pdfDefaults
              (fst (default (new, []) (set "pdf.mode" (VBool true) new))))
    as (st' & calls & Hupdate & _ & Hgets & _).
  - repeat constructor.
  - reflexivity.
  - exists st', calls. split; [done |]. apply Hgets.
    unfold pdfDefaults. do 6 right. left.
Defined.

Lemma reset_restores_the_defaults_witness :
  exists st' calls,
    reset (fst (default (new, []) (set "pdf.mode" (VBool true) new))) = Some (st', calls) /\
    get "pdf.mode" st' = Some (Leaf (VBool false)).
Proof.
  destruct (reset_restores_the_defaults
              (fst (default (new, []) (set "pdf.mode" (VBool true) new))) eq_refl)
    as (st' & calls & Hreset & _ & Hdefaults & _).
  exists st', calls. split; [done |].
  apply Hdefaults. unfold resetEntries. apply elem_of_app. right.
  apply elem_of_app. left. unfold pdfDefaults. do 6 right. left.
Defined.

Lemma accessors_are_independent_witness :
  exists st',
    state_set "isPdfMode" (VBool true) new = Some st' /\
    state_get "isPdfMode" st' = Some (Leaf (VBool true)) /\
    state_get "pdfImages" st' = Some (Leaf VEmptyArray).
Proof.
  destruct (accessors_are_independent "isPdfMode" "pdfImages" "pdf.mode" "pdf.images"
              (VBool true) new eq_refl eq_refl ltac:(done) eq_refl)
    as (st' & Hset & _ & Hget & _ & Hother).
  exists st'. split; [done |]. split; [done |]. by rewrite Hother.
Defined.

Lemma editor_calls_never_fail_witness :
  exists st,
    run [Assign "pdfImages" (VHost 1); Assign "masterCanvas" (VHost 2); Reset;
         Assign "currentPreviewIndex" (VNumber 3)] new = Some st /\
    shaped st = true.
Proof.
  apply editor_calls_never_fail.
  repeat constructor; by eexists.
Defined.

Lemma unsubscribe_undoes_subscribe_witness :
  _listeners (unsubscribe (snd (subscribe 7 (Some "pdf"%string) new))
                (fst (subscribe 7 (Some "pdf"%string) new)))
  = [].
Proof.
  refine (proj1 (proj2 (unsubscribe_undoes_subscribe 7 (Some "pdf"%string) new _))).
  constructor.
Defined.

End EditorStateFacts.

(** * Properties of the record updates *)
Module EditFacts.
Import Save SaveFacts Edit.
Local Open Scope Q_scope.

Lemma same_cell_matches matched width height a b :
  same_cell a b -> matches matched width height b = matches matched width height a.
Proof.
  intros (Hpage & Hindex & Hw & Hh). unfold matches, imgKey.
  rewrite Hpage, Hindex. f_equal; [f_equal |].
  - destruct (Qeq_bool (Img.width b) width) eqn:H1, (Qeq_bool (Img.width a) width) eqn:H2;
      try done.
    + apply Qeq_bool_iff in H1. apply Qeq_bool_neq in H2. destruct H2.
      by rewrite <- Hw.
    + apply Qeq_bool_iff in H2. apply Qeq_bool_neq in H1. destruct H1.
      by rewrite Hw.
  - destruct (Qeq_bool (Img.height b) height) eqn:H1, (Qeq_bool (Img.height a) height) eqn:H2;
      try done.
    + apply Qeq_bool_iff in H1. apply Qeq_bool_neq in H2. destruct H2.
      by rewrite <- Hh.
    + apply Qeq_bool_iff in H2. apply Qeq_bool_neq in H1. destruct H1.
      by rewrite Hh.
Qed.

Lemma same_cell_key a b : same_cell a b -> imgKey b = imgKey a.
Proof. intros (Hpage & Hindex & _). unfold imgKey. by rewrite Hpage, Hindex. Qed.

Section Related.
Variable R : Img.t -> Img.t -> Prop.
Hypothesis R_same_cell : forall a b, R a b -> same_cell a b.

Lemma filter_related images images' n :
  Forall2 R images images' ->
  Forall2 R (filter (fun img => Img.pageNum img = n) images)
            (filter (fun img => Img.pageNum img = n) images').
Proof.
  induction 1 as [|a b images images' Hab Hrest IH]; [constructor |].
  rewrite !filter_cons. destruct (R_same_cell a b Hab) as (Hpage & _).
  rewrite Hpage. destruct (decide (Img.pageNum a = n)); [by constructor | done].
Qed.

Lemma find_related matched width height l l' :
  Forall2 R l l' ->
  option_Forall2 R (List.find (matches matched width height) l)
                   (List.find (matches matched width height) l').
Proof.
  induction 1 as [|a b l l' Hab Hrest IH]; simpl; [constructor |].
  rewrite (same_cell_matches matched width height a b (R_same_cell a b Hab)).
  destruct (matches matched width height a); [by constructor | done].
Qed.

Lemma matchXObject_related images images' pageNum key ref width height p p' :
  Forall2 R images images' -> plan_related R p p' ->
  plan_related R (matchXObject (groupByPage images) pageNum key ref width height p)
                 (matchXObject (groupByPage images') pageNum key ref width height p').
Proof.
  intros Himages [Hmatched Hplan]. unfold matchXObject.
  rewrite !groupByPage_lookup, Hmatched.
  destruct (find_related (matchedImages p) width height _ _
              (filter_related images images' pageNum Himages)) as [a b Hab|]; [|done].
  split; simpl.
  - by rewrite (same_cell_key a b (R_same_cell a b Hab)).
  - apply Forall2_app; [done |]. constructor; [|constructor]. by repeat split.
Qed.

Lemma matchEntries_related doc images images' pageNum entries p p' :
  Forall2 R images images' -> plan_related R p p' ->
  plan_related R (foldl (matchEntry doc (groupByPage images) pageNum) p entries)
                 (foldl (matchEntry doc (groupByPage images') pageNum) p' entries).
Proof.
  intros Himages. revert p p'.
  induction entries as [|[key ref] entries IH]; intros p p' Hplan; [done |].
  cbn [foldl]. apply IH. unfold matchEntry.
  destruct (imageXObjectSize doc ref) as [[[width|] [height|]]|]; try done.
  by apply matchXObject_related.
Qed.

Lemma matchPages_related doc images images' pageIdx rest p p' :
  Forall2 R images images' -> plan_related R p p' ->
  plan_related R (matchPages doc (groupByPage images) pageIdx rest p)
                 (matchPages doc (groupByPage images') pageIdx rest p').
Proof.
  intros Himages. revert pageIdx p p'.
  induction rest as [|page rest IH]; intros pageIdx p p' Hplan; [done |].
  cbn [matchPages]. apply IH. unfold matchPage. by apply matchEntries_related.
Qed.

Lemma buildPlan_related doc images images' :
  Forall2 R images images' ->
  plan_related R (buildPlan doc images) (buildPlan doc images').
Proof.
  intros Himages. unfold buildPlan. apply matchPages_related; [done |].
  split; [done | constructor].
Qed.

End Related.

Lemma restored_same_cell a b : restored a b -> same_cell a b.
Proof.
  intros [-> | (url & size & width & height & -> & Hw & Hh)]; by repeat split.
Qed.

Lemma applyBulkOptimization_restored optimize pdfImages :
  keeps_size optimize ->
  Forall2 restored pdfImages (applyBulkOptimization optimize pdfImages).
Proof.
  intros Hsize. induction pdfImages as [|img rest IH]; simpl; [constructor |].
  destruct (optimize img) as [[[url size] canvas]|] eqn:Hopt.
  - destruct canvas as [[width height]|]; simpl; (constructor; [|done]); right.
    + destruct (Hsize img url size width height Hopt) as [Hw Hh].
      by exists url, size, width, height.
    + by exists url, size, (Img.width img), (Img.height img).
  - constructor; [by left |]. clear. induction rest; constructor; [by left | done].
Qed.

(** X27: the bulk optimization does not disturb the matching.  When the
    canvases it uses have the size of their records, the plan built from the
    optimized records pairs the same XObject entries, in the same order,
    with the same records, now in their optimized form, and consumes the
    same keys; so it is when the loop is left by an exception half way. *)
Theorem bulk_optimization_keeps_the_plan doc optimize pdfImages :
  keeps_size optimize ->
  let optimized := applyBulkOptimization optimize pdfImages in
  length optimized = length pdfImages /\
  Forall2 restored pdfImages optimized /\
  matchedImages (buildPlan doc optimized) = matchedImages (buildPlan doc pdfImages) /\
  Forall2 (same_entry restored)
    (replacements (buildPlan doc pdfImages)) (replacements (buildPlan doc optimized)).
Proof.
  intros Hsize optimized.
  pose proof (applyBulkOptimization_restored optimize pdfImages Hsize) as Hrestored.
  destruct (buildPlan_related restored restored_same_cell doc _ _ Hrestored) as [Hm Hr].
  split; [symmetry; by eapply Forall2_length |]. done.
Qed.

Lemma bulk_optimization_keeps_the_plan_witness :
  length (applyBulkOptimization ex_optimize ex_images) = length ex_images.
Proof.
  refine (proj1 (bulk_optimization_keeps_the_plan ex_doc ex_optimize ex_images _)).
  intros img url size width height Hcanvas. discriminate Hcanvas.
Defined.



(** The edit of the example: the cropped image is stored, the preview URL
    of the first record is revoked, the optimized data the edit replaced is
    not, and nothing is left. *)
Lemma ex_session_is_cleared :
  Img.optimizedDataURL <$> (Memory.record <$> saveEdit ex_session)
  = [None; Some "data:image/png;base64,DDDD"%string] /\
  backToGallery ex_session
  = ({| Session.pdfImages := []; Session.currentPdfFile := None;
        Session.currentEditingImageIndex := Some (-1)%Z; Session.masterCanvas := None |},
     [Memory.Revoked "blob:preview-1"], None).
Proof. by vm_compute. Qed.

End EditFacts.
